(** * Dynamic Memory Management Visualizer: a shallow embedding

    The Python simulators of the repository are embedded as Rocq functions
    over explicit states:

    - [module2_segmentation_virtual_memory/page_replacement.py]
      (modules [PageReplacementAlgorithm], [FIFOReplacement],
      [LRUReplacement], [OptimalReplacement], [Replacement]),
    - [module2_segmentation_virtual_memory/virtual_memory.py]
      (modules [BackingStore], [VirtualMemoryManager]),
    - [module1_paging_engine/physical_memory.py], [allocator.py],
      [page_table.py], [paging_engine.py]
      (modules [Frame], [PhysicalMemory], [MemoryAllocator],
      [PageTableEntry], [PageTable], [PagingSimulator]),
    - [module2_segmentation_virtual_memory/segmentation_engine.py]
      (modules [Segment], [SegmentTable], [SegmentationEngine]).

    Python integers are [Z]; list positions are [nat]; dictionaries are
    [gmap]s, except where insertion order is observable.  A Python call that
    may raise returns an [outcome]. *)

From Stdlib Require Import QArith.
From stdpp Require Import gmap strings list fin_maps pretty.

Open Scope Z_scope.

(** ** Python exceptions *)

Inductive exn : Set :=
| StopIteration
| IndexError
| ZeroDivisionError.

(** The outcome of a call on a mutable object: the value returned together
    with the object after the call, or the exception raised together with
    the object as the call left it. *)
Inductive outcome (S A : Type) : Type :=
| Ret (a : A) (s : S)
| Raise (e : exn) (s : S).
Arguments Ret {S A} a s.
Arguments Raise {S A} e s.

(** [l.index(x)]: position of the first occurrence; [None] stands for
    [ValueError]. *)
Fixpoint index (x : Z) (l : list Z) : option Z :=
  match l with
  | [] => None
  | y :: l' => if decide (y = x) then Some 0 else Z.succ <$> index x l'
  end.

(** [for i, page in enumerate(frames): if page == page_id: ... break]:
    the first slot holding [page_id]. *)
Fixpoint slot_of (page_id : Z) (frames : list (option Z)) : option nat :=
  match frames with
  | [] => None
  | page :: rest =>
      if decide (page = Some page_id) then Some 0%nat
      else S <$> slot_of page_id rest
  end.

(** [l.remove(x)]: drops the first occurrence (the callers check [x in l]
    first). *)
Fixpoint remove_first (x : Z) (l : list Z) : list Z :=
  match l with
  | [] => []
  | y :: l' => if decide (y = x) then l' else y :: remove_first x l'
  end.

(** ** page_replacement.py *)

(** The result dictionary of [access_page]. *)
Record AccessResult : Type := mkAccessResult {
  page_id : Z;
  page_fault : bool;
  replaced_page : option Z;
  frame_index : option nat;
  algorithm : string
}.

Module PageReplacementAlgorithm.

Record t : Type := mk {
  num_frames : Z;
  frames : list (option Z);
  page_faults : Z;
  page_hits : Z
}.

(** [[None] * num_frames] *)
Definition init (num_frames : Z) : t :=
  mk num_frames (replicate (Z.to_nat num_frames) None) 0 0.

Definition set_frames (fr : list (option Z)) (s : t) : t :=
  mk (num_frames s) fr (page_faults s) (page_hits s).

Definition hit (s : t) : t :=
  mk (num_frames s) (frames s) (page_faults s) (page_hits s + 1).

Definition fault (s : t) : t :=
  mk (num_frames s) (frames s) (page_faults s + 1) (page_hits s).

(** [page_id in self.frames] *)
Definition is_page_loaded (page_id : Z) (s : t) : bool :=
  bool_decide (Some page_id ∈ frames s).

Fixpoint first_free (frames : list (option Z)) : option nat :=
  match frames with
  | [] => None
  | None :: _ => Some 0%nat
  | Some _ :: rest => S <$> first_free rest
  end.

Definition get_free_frame_index (s : t) : option nat :=
  first_free (frames s).

Definition reset (s : t) : t :=
  mk (num_frames s) (replicate (Z.to_nat (num_frames s)) None) 0 0.

(** [[p for p in self.frames if p is not None]] *)
Definition loaded_pages (frames : list (option Z)) : list Z := omap id frames.

(** The dictionary returned by [get_statistics]; the two rates are Python
    floats and are rationals here. *)
Record Statistics : Type := mkStatistics {
  stat_page_faults : Z;
  stat_page_hits : Z;
  stat_total_accesses : Z;
  stat_fault_rate : Q;
  stat_hit_rate : Q;
  stat_loaded_pages : list Z
}.

Definition get_statistics (s : t) : Statistics :=
  let total_accesses := page_faults s + page_hits s in
  mkStatistics (page_faults s) (page_hits s) total_accesses
    (if bool_decide (total_accesses > 0)
     then (inject_Z (page_faults s) / inject_Z total_accesses)%Q else 0%Q)
    (if bool_decide (total_accesses > 0)
     then (inject_Z (page_hits s) / inject_Z total_accesses)%Q else 0%Q)
    (loaded_pages (frames s)).

End PageReplacementAlgorithm.

Module FIFOReplacement.
Import PageReplacementAlgorithm.

Record t : Type := mk {
  base : PageReplacementAlgorithm.t;
  queue : list Z
}.

Definition init (num_frames : Z) : t :=
  mk (PageReplacementAlgorithm.init num_frames) [].

Definition access_page (page_id : Z) (future_references : option (list Z))
    (s : t) : AccessResult * t :=
  if is_page_loaded page_id (base s) then
    (mkAccessResult page_id false None (slot_of page_id (frames (base s))) "FIFO",
     mk (hit (base s)) (queue s))
  else
    let b := fault (base s) in
    match get_free_frame_index b with
    | Some free_index =>
        (mkAccessResult page_id true None (Some free_index) "FIFO",
         mk (set_frames (<[free_index := Some page_id]> (frames b)) b)
            (queue s ++ [page_id]))
    | None =>
        match queue s with
        | [] => (mkAccessResult page_id true None None "FIFO", mk b [])
        | oldest_page :: q =>
            match slot_of oldest_page (frames b) with
            | Some i =>
                (mkAccessResult page_id true (Some oldest_page) (Some i) "FIFO",
                 mk (set_frames (<[i := Some page_id]> (frames b)) b)
                    (q ++ [page_id]))
            | None => (mkAccessResult page_id true None None "FIFO", mk b q)
            end
        end
    end.

Definition reset (s : t) : t :=
  mk (PageReplacementAlgorithm.reset (base s)) [].

End FIFOReplacement.

Module LRUReplacement.
Import PageReplacementAlgorithm.

Record t : Type := mk {
  base : PageReplacementAlgorithm.t;
  access_order : list Z
}.

Definition init (num_frames : Z) : t :=
  mk (PageReplacementAlgorithm.init num_frames) [].

Definition access_page (page_id : Z) (future_references : option (list Z))
    (s : t) : AccessResult * t :=
  if is_page_loaded page_id (base s) then
    (mkAccessResult page_id false None (slot_of page_id (frames (base s))) "LRU",
     mk (hit (base s)) (remove_first page_id (access_order s) ++ [page_id]))
  else
    let b := fault (base s) in
    match get_free_frame_index b with
    | Some free_index =>
        (mkAccessResult page_id true None (Some free_index) "LRU",
         mk (set_frames (<[free_index := Some page_id]> (frames b)) b)
            (access_order s ++ [page_id]))
    | None =>
        match access_order s with
        | [] => (mkAccessResult page_id true None None "LRU", mk b [])
        | lru_page :: o =>
            match slot_of lru_page (frames b) with
            | Some i =>
                (mkAccessResult page_id true (Some lru_page) (Some i) "LRU",
                 mk (set_frames (<[i := Some page_id]> (frames b)) b)
                    (o ++ [page_id]))
            | None => (mkAccessResult page_id true None None "LRU", mk b o)
            end
        end
    end.

Definition reset (s : t) : t :=
  mk (PageReplacementAlgorithm.reset (base s)) [].

End LRUReplacement.

Module OptimalReplacement.
Import PageReplacementAlgorithm.

Record t : Type := mk {
  base : PageReplacementAlgorithm.t
}.

Definition init (num_frames : Z) : t :=
  mk (PageReplacementAlgorithm.init num_frames).

(** The victim-selection loop.  [page_to_replace] and [max_distance] are
    the loop's two variables; a page that never recurs ends the loop at
    once ([break]). *)
Fixpoint scan (future_references : list Z) (frames : list (option Z))
    (page_to_replace : option Z) (max_distance : Z) : option Z :=
  match frames with
  | [] => page_to_replace
  | None :: rest => scan future_references rest page_to_replace max_distance
  | Some loaded_page :: rest =>
      match index loaded_page future_references with
      | None => Some loaded_page
      | Some distance =>
          if decide (distance > max_distance)
          then scan future_references rest (Some loaded_page) distance
          else scan future_references rest page_to_replace max_distance
      end
  end.

(** [next(p for p in self.frames if p is not None)] *)
Fixpoint first_loaded (frames : list (option Z)) : option Z :=
  match frames with
  | [] => None
  | Some p :: _ => Some p
  | None :: rest => first_loaded rest
  end.

Definition access_page (page_id : Z) (future_references : option (list Z))
    (s : t) : outcome t AccessResult :=
  if is_page_loaded page_id (base s) then
    Ret (mkAccessResult page_id false None
           (slot_of page_id (frames (base s))) "OPTIMAL")
        (mk (hit (base s)))
  else
    let b := fault (base s) in
    match get_free_frame_index b with
    | Some free_index =>
        Ret (mkAccessResult page_id true None (Some free_index) "OPTIMAL")
            (mk (set_frames (<[free_index := Some page_id]> (frames b)) b))
    | None =>
        let future_references := default [] future_references in
        let chosen :=
          match scan future_references (frames b) None (-1) with
          | Some p => Some p
          | None => first_loaded (frames b)
          end in
        match chosen with
        | None => Raise StopIteration (mk b)
        | Some page_to_replace =>
            match slot_of page_to_replace (frames b) with
            | Some i =>
                Ret (mkAccessResult page_id true (Some page_to_replace)
                       (Some i) "OPTIMAL")
                    (mk (set_frames (<[i := Some page_id]> (frames b)) b))
            | None => Ret (mkAccessResult page_id true None None "OPTIMAL") (mk b)
            end
        end
    end.

Definition reset (s : t) : t :=
  mk (PageReplacementAlgorithm.reset (base s)).

End OptimalReplacement.

(** The engine owned by the virtual memory manager: one of the three
    subclasses. *)
Inductive ReplacementAlgorithm : Set := FIFO | LRU | OPTIMAL.

Module Replacement.

Inductive t : Type :=
| Fifo (s : FIFOReplacement.t)
| Lru (s : LRUReplacement.t)
| Optimal (s : OptimalReplacement.t).

Definition base (r : t) : PageReplacementAlgorithm.t :=
  match r with
  | Fifo s => FIFOReplacement.base s
  | Lru s => LRUReplacement.base s
  | Optimal s => OptimalReplacement.base s
  end.

Definition frames (r : t) : list (option Z) :=
  PageReplacementAlgorithm.frames (base r).

Definition is_page_loaded (page_id : Z) (r : t) : bool :=
  PageReplacementAlgorithm.is_page_loaded page_id (base r).

(** In-place writes to [self.replacement.frames]. *)
Definition set_frames (fr : list (option Z)) (r : t) : t :=
  match r with
  | Fifo s =>
      Fifo (FIFOReplacement.mk
              (PageReplacementAlgorithm.set_frames fr (FIFOReplacement.base s))
              (FIFOReplacement.queue s))
  | Lru s =>
      Lru (LRUReplacement.mk
             (PageReplacementAlgorithm.set_frames fr (LRUReplacement.base s))
             (LRUReplacement.access_order s))
  | Optimal s =>
      Optimal (OptimalReplacement.mk
                 (PageReplacementAlgorithm.set_frames fr (OptimalReplacement.base s)))
  end.

(** Dynamic dispatch of [access_page]. *)
Definition access_page (page_id : Z) (future_references : option (list Z))
    (r : t) : outcome t AccessResult :=
  match r with
  | Fifo s =>
      let '(res, s') := FIFOReplacement.access_page page_id future_references s in
      Ret res (Fifo s')
  | Lru s =>
      let '(res, s') := LRUReplacement.access_page page_id future_references s in
      Ret res (Lru s')
  | Optimal s =>
      match OptimalReplacement.access_page page_id future_references s with
      | Ret res s' => Ret res (Optimal s')
      | Raise e s' => Raise e (Optimal s')
      end
  end.

Definition reset (r : t) : t :=
  match r with
  | Fifo s => Fifo (FIFOReplacement.reset s)
  | Lru s => Lru (LRUReplacement.reset s)
  | Optimal s => Optimal (OptimalReplacement.reset s)
  end.

End Replacement.

(** ** virtual_memory.py *)

(** [bytes(n)]: a zero-filled blob of [n] bytes. *)
Definition bytes (n : N) : list Byte.byte := replicate (N.to_nat n) Byte.x00.

Module BackingStore.

Record t : Type := mk { pages : gmap Z (list Byte.byte) }.

Definition init : t := mk ∅.

Definition store_page (page_id : Z) (data : list Byte.byte) (b : t) : t :=
  mk (<[page_id := data]> (pages b)).

Definition load_page (page_id : Z) (b : t) : option (list Byte.byte) :=
  pages b !! page_id.

Definition has_page (page_id : Z) (b : t) : bool :=
  bool_decide (is_Some (pages b !! page_id)).

Definition remove_page (page_id : Z) (b : t) : bool * t :=
  if bool_decide (is_Some (pages b !! page_id))
  then (true, mk (delete page_id (pages b)))
  else (false, b).

End BackingStore.

(** The dictionaries returned by [VirtualMemoryManager.access_page]: the
    three-key error dictionary ([success] is [False]) or the engine's result
    extended with [swap_in], [swap_out] and [success = True]. *)
Inductive VMResult : Type :=
| VMError (error : string) (page_fault : bool)
| VMAccess (result : AccessResult) (swap_in swap_out : bool).

Definition success (r : VMResult) : bool :=
  match r with
  | VMError _ _ => false
  | VMAccess _ _ _ => true
  end.

Definition vm_page_fault (r : VMResult) : bool :=
  match r with
  | VMError _ pf => pf
  | VMAccess res _ _ => page_fault res
  end.

Module VirtualMemoryManager.

(** [frame_size] is a byte count handed to [bytes]; it is kept in [N]. *)
Record t : Type := mk {
  num_frames : Z;
  frame_size : N;
  algorithm : ReplacementAlgorithm;
  replacement : Replacement.t;
  backing_store : BackingStore.t;
  process_pages : gmap Z (list Z);
  swap_ins : Z;
  swap_outs : Z;
  address_cache : gmap (Z * Z) Z
}.

Definition _create_replacement_algorithm (num_frames : Z)
    (algorithm : ReplacementAlgorithm) : Replacement.t :=
  match algorithm with
  | FIFO => Replacement.Fifo (FIFOReplacement.init num_frames)
  | LRU => Replacement.Lru (LRUReplacement.init num_frames)
  | OPTIMAL => Replacement.Optimal (OptimalReplacement.init num_frames)
  end.

Definition init (num_frames : Z) (frame_size : N)
    (algorithm : ReplacementAlgorithm) : t :=
  mk num_frames frame_size algorithm
     (_create_replacement_algorithm num_frames algorithm)
     BackingStore.init ∅ 0 0 ∅.

Definition set_replacement (r : Replacement.t) (m : t) : t :=
  mk (num_frames m) (frame_size m) (algorithm m) r (backing_store m)
     (process_pages m) (swap_ins m) (swap_outs m) (address_cache m).

Definition set_backing_store (b : BackingStore.t) (m : t) : t :=
  mk (num_frames m) (frame_size m) (algorithm m) (replacement m) b
     (process_pages m) (swap_ins m) (swap_outs m) (address_cache m).

Definition set_process_pages (pp : gmap Z (list Z)) (m : t) : t :=
  mk (num_frames m) (frame_size m) (algorithm m) (replacement m)
     (backing_store m) pp (swap_ins m) (swap_outs m) (address_cache m).

Definition set_swaps (ins outs : Z) (m : t) : t :=
  mk (num_frames m) (frame_size m) (algorithm m) (replacement m)
     (backing_store m) (process_pages m) ins outs (address_cache m).

(** One round of the seeding loop of [load_process]. *)
Definition seed_page (frame_size : N) (b : BackingStore.t) (page_id : Z)
    : BackingStore.t :=
  if BackingStore.has_page page_id b then b
  else BackingStore.store_page page_id (bytes frame_size) b.

Definition load_process (process_id : Z) (pages : list Z) (m : t) : bool * t :=
  let m := set_process_pages (<[process_id := pages]> (process_pages m)) m in
  (true, set_backing_store (foldl (seed_page (frame_size m)) (backing_store m) pages) m).

(** [for i, loaded_page in enumerate(frames): if loaded_page == page_id:
    frames[i] = None] (no [break]: every matching slot is cleared). *)
Definition clear_page (page_id : Z) (frames : list (option Z)) : list (option Z) :=
  (λ loaded_page, if decide (loaded_page = Some page_id) then None else loaded_page)
    <$> frames.

(** One round of the loop of [remove_process]. *)
Definition free_page (m : t) (page_id : Z) : t :=
  let m := set_backing_store (BackingStore.remove_page page_id (backing_store m)).2 m in
  if Replacement.is_page_loaded page_id (replacement m)
  then set_replacement
         (Replacement.set_frames
            (clear_page page_id (Replacement.frames (replacement m)))
            (replacement m)) m
  else m.

Definition remove_process (process_id : Z) (m : t) : bool * t :=
  match process_pages m !! process_id with
  | None => (false, m)
  | Some pages =>
      let m := foldl free_page m pages in
      (true, set_process_pages (delete process_id (process_pages m)) m)
  end.

Definition access_page (process_id page_id : Z) (write : bool)
    (future_references : option (list Z)) (m : t) : outcome t VMResult :=
  match process_pages m !! process_id with
  | None =>
      Ret (VMError ("Process " +:+ pretty process_id +:+ " not found") false) m
  | Some pages =>
      if negb (bool_decide (page_id ∈ pages)) then
        Ret (VMError ("Page " +:+ pretty page_id +:+ " not in process "
                        +:+ pretty process_id) false) m
      else if Replacement.is_page_loaded page_id (replacement m) then
        match Replacement.access_page page_id future_references (replacement m) with
        | Ret result r => Ret (VMAccess result false false) (set_replacement r m)
        | Raise e r => Raise e (set_replacement r m)
        end
      else if negb (BackingStore.has_page page_id (backing_store m)) then
        Ret (VMError ("Page " +:+ pretty page_id +:+ " not in backing store") true) m
      else
        match Replacement.access_page page_id future_references (replacement m) with
        | Raise e r => Raise e (set_replacement r m)
        | Ret result r =>
            let m := set_replacement r m in
            match replaced_page result with
            | Some replaced =>
                let m :=
                  set_backing_store
                    (BackingStore.store_page replaced (bytes (frame_size m))
                       (backing_store m)) m in
                Ret (VMAccess result true true)
                    (set_swaps (swap_ins m + 1) (swap_outs m + 1) m)
            | None =>
                Ret (VMAccess result true false)
                    (set_swaps (swap_ins m + 1) (swap_outs m) m)
            end
        end
  end.

(** The result is [None] for an unknown process or a page outside the
    process's list, and otherwise [(physical_address, offset, page_fault)];
    the division raises when [frame_size] is 0. *)
Definition translate_address (process_id virtual_address : Z) (m : t)
    : outcome t (option (option Z * Z * bool)) :=
  match process_pages m !! process_id with
  | None => Ret None m
  | Some pages =>
      if decide (frame_size m = 0%N) then Raise ZeroDivisionError m
      else
        let page_id := virtual_address `div` Z.of_N (frame_size m) in
        let offset := virtual_address `mod` Z.of_N (frame_size m) in
        if negb (bool_decide (page_id ∈ pages)) then Ret None m
        else if negb (Replacement.is_page_loaded page_id (replacement m))
        then Ret (Some (None, offset, true)) m
        else
          match slot_of page_id (Replacement.frames (replacement m)) with
          | None => Ret (Some (None, offset, true)) m
          | Some frame_index =>
              Ret (Some (Some (Z.of_nat frame_index * Z.of_N (frame_size m) + offset),
                         offset, false)) m
          end
  end.

Definition set_replacement_algorithm (algorithm : ReplacementAlgorithm)
    (m : t) : t :=
  mk (num_frames m) (frame_size m) algorithm
     (_create_replacement_algorithm (num_frames m) algorithm)
     (backing_store m) (process_pages m) (swap_ins m) (swap_outs m)
     (address_cache m).

Definition reset (m : t) : t :=
  mk (num_frames m) (frame_size m) (algorithm m)
     (_create_replacement_algorithm (num_frames m) (algorithm m))
     BackingStore.init ∅ 0 0 ∅.

End VirtualMemoryManager.

(** ** physical_memory.py *)

Inductive FrameStatus : Set := FREE | ALLOCATED.

Global Instance FrameStatus_eq_dec : EqDecision FrameStatus.
Proof. solve_decision. Defined.

Module Frame.

Record t : Type := mk {
  frame_id : Z;
  size : Z;
  status : FrameStatus;
  process_id : option Z;
  page_id : option Z;
  allocated_size : Z
}.

Definition init (frame_id size : Z) : t := mk frame_id size FREE None None 0.

(** The test shared by [Frame.allocate] and the three scans. *)
Definition fits (size : Z) (f : t) : bool :=
  bool_decide (status f = FREE) && bool_decide (size ≤ Frame.size f).

Definition allocate (process_id page_id size : Z) (f : t) : bool * t :=
  if fits size f
  then (true, mk (frame_id f) (Frame.size f) ALLOCATED (Some process_id)
                 (Some page_id) (Z.min size (Frame.size f)))
  else (false, f).

Definition deallocate (f : t) : bool * t :=
  if bool_decide (status f = ALLOCATED)
  then (true, mk (frame_id f) (size f) FREE None None 0)
  else (false, f).

End Frame.

Module PhysicalMemory.

Record t : Type := mk {
  num_frames : Z;
  frame_size : Z;
  frames : list Frame.t;
  _next_frame_id : Z
}.

(** [[Frame(i, frame_size) for i in range(num_frames)]] *)
Definition init (num_frames frame_size : Z) : t :=
  mk num_frames frame_size
     ((λ i : nat, Frame.init (Z.of_nat i) frame_size) <$> seq 0 (Z.to_nat num_frames))
     num_frames.

Definition set_frames (fr : list Frame.t) (pm : t) : t :=
  mk (num_frames pm) (frame_size pm) fr (_next_frame_id pm).

Definition get_frame (frame_id : Z) (pm : t) : option Frame.t :=
  if bool_decide (0 ≤ frame_id < Z.of_nat (length (frames pm)))
  then frames pm !! Z.to_nat frame_id
  else None.

(** A method called on the frame object returned by [get_frame]: the
    object lives in the list, so the list sees the change. *)
Definition update_frame (frame_id : Z) (f : Frame.t) (pm : t) : t :=
  set_frames (<[Z.to_nat frame_id := f]> (frames pm)) pm.

Definition get_free_frames (pm : t) : list Frame.t :=
  filter (λ frame, Frame.status frame = FREE) (frames pm).

Definition get_allocated_frames (pm : t) : list Frame.t :=
  filter (λ frame, Frame.status frame = ALLOCATED) (frames pm).

Definition reset (pm : t) : t :=
  set_frames ((λ f, (Frame.deallocate f).2) <$> frames pm) pm.

End PhysicalMemory.

(** ** allocator.py *)

Inductive AllocationStrategy : Set := FIRST_FIT | BEST_FIT | NEXT_FIT.

Module MemoryAllocator.

Record t : Type := mk {
  strategy : AllocationStrategy;
  _next_fit_start : nat
}.

Definition init (strategy : AllocationStrategy) : t := mk strategy 0.

Fixpoint _first_fit (frames : list Frame.t) (process_id page_id size : Z)
    : option Z * list Frame.t :=
  match frames with
  | [] => (None, [])
  | frame :: rest =>
      if Frame.fits size frame then
        let '(ok, frame') := Frame.allocate process_id page_id size frame in
        if ok then (Some (Frame.frame_id frame'), frame' :: rest)
        else
          let '(r, rest') := _first_fit rest process_id page_id size in
          (r, frame' :: rest')
      else
        let '(r, rest') := _first_fit rest process_id page_id size in
        (r, frame :: rest')
  end.

(** The selection loop of [_best_fit].  The frames still to scan start at
    position [i]; [best_frame] is the position of the frame object the
    loop holds, and [best_waste = None] stands for [float('inf')]. *)
Fixpoint best_fit_scan (frames : list Frame.t) (size : Z) (i : nat)
    (best_frame : option nat) (best_waste : option Z) : option nat :=
  match frames with
  | [] => best_frame
  | frame :: rest =>
      if Frame.fits size frame then
        let waste := Frame.size frame - size in
        if match best_waste with
           | None => true
           | Some w => bool_decide (waste < w)
           end
        then best_fit_scan rest size (S i) (Some i) (Some waste)
        else best_fit_scan rest size (S i) best_frame best_waste
      else best_fit_scan rest size (S i) best_frame best_waste
  end.

Definition _best_fit (frames : list Frame.t) (process_id page_id size : Z)
    : option Z * list Frame.t :=
  match best_fit_scan frames size 0 None None with
  | None => (None, frames)
  | Some i =>
      match frames !! i with
      | None => (None, frames)
      | Some best_frame =>
          let '(ok, frame') := Frame.allocate process_id page_id size best_frame in
          if ok then (Some (Frame.frame_id frame'), <[i := frame']> frames)
          else (None, frames)
      end
  end.

(** One of the two [for i in range(...)] loops of [_next_fit], over the
    positions [idxs].  [frames[i]] raises [IndexError] out of range; the
    result [None] means that the loop ran to its end. *)
Fixpoint next_fit_loop (idxs : list nat) (process_id page_id size : Z)
    (a : t) (frames : list Frame.t)
    : outcome (t * list Frame.t) (option Z) :=
  match idxs with
  | [] => Ret None (a, frames)
  | i :: idxs' =>
      match frames !! i with
      | None => Raise IndexError (a, frames)
      | Some frame =>
          if Frame.fits size frame then
            let '(ok, frame') := Frame.allocate process_id page_id size frame in
            if ok then
              Ret (Some (Frame.frame_id frame'))
                  (mk (strategy a) ((i + 1) `mod` length frames)%nat,
                   <[i := frame']> frames)
            else next_fit_loop idxs' process_id page_id size a frames
          else next_fit_loop idxs' process_id page_id size a frames
      end
  end.

Definition _next_fit (process_id page_id size : Z) (a : t)
    (frames : list Frame.t) : outcome (t * list Frame.t) (option Z) :=
  let start := _next_fit_start a in
  match next_fit_loop (seq start (length frames - start)) process_id page_id size
          a frames with
  | Ret None _ =>
      next_fit_loop (seq 0 start) process_id page_id size a frames
  | r => r
  end.

Definition allocate (process_id page_id size : Z) (a : t)
    (frames : list Frame.t) : outcome (t * list Frame.t) (option Z) :=
  match strategy a with
  | FIRST_FIT =>
      let '(r, frames') := _first_fit frames process_id page_id size in
      Ret r (a, frames')
  | BEST_FIT =>
      let '(r, frames') := _best_fit frames process_id page_id size in
      Ret r (a, frames')
  | NEXT_FIT => _next_fit process_id page_id size a frames
  end.

Definition deallocate (frames : list Frame.t) (frame_id : Z)
    : bool * list Frame.t :=
  if bool_decide (0 ≤ frame_id < Z.of_nat (length frames)) then
    match frames !! Z.to_nat frame_id with
    | Some f =>
        let '(ok, f') := Frame.deallocate f in
        (ok, <[Z.to_nat frame_id := f']> frames)
    | None => (false, frames)
    end
  else (false, frames).

Definition set_strategy (strategy : AllocationStrategy) (a : t) : t :=
  match strategy with
  | NEXT_FIT => mk strategy 0
  | _ => mk strategy (_next_fit_start a)
  end.

End MemoryAllocator.

(** ** page_table.py *)

Inductive PageStatus : Set := NOT_PRESENT | PRESENT | MODIFIED | REFERENCED.

Module PageTableEntry.

Record t : Type := mk {
  page_id : Z;
  frame_id : option Z;
  status : PageStatus;
  valid : bool;
  present_bit : bool;
  modified_bit : bool;
  referenced_bit : bool;
  protection_bits : Z
}.

Definition init (page_id : Z) : t :=
  mk page_id None NOT_PRESENT false false false false 0.

Definition map_to_frame (frame_id : Z) (e : t) : t :=
  mk (page_id e) (Some frame_id) PRESENT true true (modified_bit e)
     (referenced_bit e) (protection_bits e).

Definition unmap_frame (e : t) : t :=
  mk (page_id e) None NOT_PRESENT (valid e) false (modified_bit e)
     (referenced_bit e) (protection_bits e).

Definition mark_modified (e : t) : t :=
  mk (page_id e) (frame_id e) MODIFIED (valid e) (present_bit e) true
     (referenced_bit e) (protection_bits e).

Definition mark_referenced (e : t) : t :=
  mk (page_id e) (frame_id e)
     (match status e with PRESENT => REFERENCED | st => st end)
     (valid e) (present_bit e) (modified_bit e) true (protection_bits e).

End PageTableEntry.

(** The dictionary returned by [PageTable.get_stats]. *)
Record PageTableStats : Type := mkPageTableStats {
  stats_process_id : Z;
  total_pages : nat;
  mapped_pages : nat;
  unmapped_pages : nat;
  stats_page_size : Z
}.

Module PageTable.

Record t : Type := mk {
  process_id : Z;
  page_size : Z;
  entries : gmap Z PageTableEntry.t
}.

Definition init (process_id page_size : Z) : t := mk process_id page_size ∅.

Definition set_entries (es : gmap Z PageTableEntry.t) (pt : t) : t :=
  mk (process_id pt) (page_size pt) es.

Definition get_entry (page_id : Z) (pt : t) : option PageTableEntry.t :=
  entries pt !! page_id.

Definition create_page (page_id : Z) (pt : t) : PageTableEntry.t * t :=
  match entries pt !! page_id with
  | Some e => (e, pt)
  | None =>
      (PageTableEntry.init page_id,
       set_entries (<[page_id := PageTableEntry.init page_id]> (entries pt)) pt)
  end.

(** A method called on an entry object held by the table. *)
Definition update_entry (page_id : Z) (e : PageTableEntry.t) (pt : t) : t :=
  set_entries (<[page_id := e]> (entries pt)) pt.

Definition map_page_to_frame (page_id frame_id : Z) (pt : t) : bool * t :=
  let '(entry, pt) :=
    match get_entry page_id pt with
    | Some e => (e, pt)
    | None => create_page page_id pt
    end in
  (true, update_entry page_id (PageTableEntry.map_to_frame frame_id entry) pt).

Definition unmap_page (page_id : Z) (pt : t) : bool * t :=
  match get_entry page_id pt with
  | Some e => (true, update_entry page_id (PageTableEntry.unmap_frame e) pt)
  | None => (false, pt)
  end.

(** The page ids whose entry has the present bit.  The order in which a
    Python dictionary lists them is not kept: the callers only walk over
    them to release frames. *)
Definition get_mapped_pages (pt : t) : list Z :=
  (map_to_list (filter (λ kv, PageTableEntry.present_bit kv.2 = true) (entries pt))).*1.

(** [(logical_address // page_size, logical_address % page_size)];
    [None] stands for [ZeroDivisionError]. *)
Definition translate_address (logical_address : Z) (pt : t) : option (Z * Z) :=
  if decide (page_size pt = 0) then None
  else Some (logical_address `div` page_size pt, logical_address `mod` page_size pt).

Definition get_stats (pt : t) : PageTableStats :=
  let total := size (entries pt) in
  let mapped := length (get_mapped_pages pt) in
  mkPageTableStats (process_id pt) total mapped (total - mapped)%nat (page_size pt).

End PageTable.

(** ** paging_engine.py *)

(** The per-process dictionary kept in [PagingSimulator.processes]. *)
Record ProcessInfo : Type := mkProcessInfo {
  num_pages : Z;
  allocated_pages : Z
}.

Module PagingSimulator.

Record t : Type := mk {
  physical_memory : PhysicalMemory.t;
  page_tables : gmap Z PageTable.t;
  allocator : MemoryAllocator.t;
  page_faults : Z;
  successful_translations : Z;
  processes : gmap Z ProcessInfo
}.

Definition init (num_frames frame_size : Z)
    (allocation_strategy : AllocationStrategy) : t :=
  mk (PhysicalMemory.init num_frames frame_size) ∅
     (MemoryAllocator.init allocation_strategy) 0 0 ∅.

Definition set_physical_memory (pm : PhysicalMemory.t) (s : t) : t :=
  mk pm (page_tables s) (allocator s) (page_faults s)
     (successful_translations s) (processes s).

Definition set_page_tables (pts : gmap Z PageTable.t) (s : t) : t :=
  mk (physical_memory s) pts (allocator s) (page_faults s)
     (successful_translations s) (processes s).

Definition set_allocator (a : MemoryAllocator.t) (s : t) : t :=
  mk (physical_memory s) (page_tables s) a (page_faults s)
     (successful_translations s) (processes s).

Definition set_processes (ps : gmap Z ProcessInfo) (s : t) : t :=
  mk (physical_memory s) (page_tables s) (allocator s) (page_faults s)
     (successful_translations s) ps.

Definition count_fault (s : t) : t :=
  mk (physical_memory s) (page_tables s) (allocator s) (page_faults s + 1)
     (successful_translations s) (processes s).

Definition count_success (s : t) : t :=
  mk (physical_memory s) (page_tables s) (allocator s) (page_faults s)
     (successful_translations s + 1) (processes s).

(** A method called on an entry of the page table of [process_id]. *)
Definition update_entry (process_id page_id : Z) (e : PageTableEntry.t)
    (s : t) : t :=
  match page_tables s !! process_id with
  | Some pt =>
      set_page_tables
        (<[process_id := PageTable.update_entry page_id e pt]> (page_tables s)) s
  | None => s
  end.

Definition create_process (process_id num_pages : Z) (s : t) : bool * t :=
  match page_tables s !! process_id with
  | Some _ => (false, s)
  | None =>
      let page_table :=
        foldl (λ pt (i : nat), (PageTable.create_page (Z.of_nat i) pt).2)
              (PageTable.init process_id (PhysicalMemory.frame_size (physical_memory s)))
              (seq 0 (Z.to_nat num_pages)) in
      (true,
       set_processes (<[process_id := mkProcessInfo num_pages 0]> (processes s))
         (set_page_tables (<[process_id := page_table]> (page_tables s)) s))
  end.

(** One round of the loop of [remove_process]. *)
Definition release_page (page_table : PageTable.t) (pm : PhysicalMemory.t)
    (page_id : Z) : PhysicalMemory.t :=
  match PageTable.get_entry page_id page_table with
  | Some entry =>
      match PageTableEntry.frame_id entry with
      | Some frame_id =>
          match PhysicalMemory.get_frame frame_id pm with
          | Some frame =>
              PhysicalMemory.update_frame frame_id (Frame.deallocate frame).2 pm
          | None => pm
          end
      | None => pm
      end
  | None => pm
  end.

Definition remove_process (process_id : Z) (s : t) : bool * t :=
  match page_tables s !! process_id with
  | None => (false, s)
  | Some page_table =>
      let pm :=
        foldl (release_page page_table) (physical_memory s)
              (PageTable.get_mapped_pages page_table) in
      (true,
       set_processes (delete process_id (processes s))
         (set_page_tables (delete process_id (page_tables s))
            (set_physical_memory pm s)))
  end.

Definition allocate_page (process_id page_id : Z) (size : option Z) (s : t)
    : outcome t (option Z) :=
  match page_tables s !! process_id with
  | None => Ret None s
  | Some page_table =>
      let '(entry, page_table) :=
        match PageTable.get_entry page_id page_table with
        | Some e => (e, page_table)
        | None => PageTable.create_page page_id page_table
        end in
      let s := set_page_tables (<[process_id := page_table]> (page_tables s)) s in
      match PageTableEntry.present_bit entry, PageTableEntry.frame_id entry with
      | true, Some frame_id => Ret (Some frame_id) s
      | _, _ =>
          let alloc_size :=
            default (PhysicalMemory.frame_size (physical_memory s)) size in
          match MemoryAllocator.allocate process_id page_id alloc_size
                  (allocator s) (PhysicalMemory.frames (physical_memory s)) with
          | Raise e (a, frames) =>
              Raise e (set_allocator a
                         (set_physical_memory
                            (PhysicalMemory.set_frames frames (physical_memory s)) s))
          | Ret r (a, frames) =>
              let s := set_allocator a
                         (set_physical_memory
                            (PhysicalMemory.set_frames frames (physical_memory s)) s) in
              match r with
              | None => Ret None s
              | Some frame_id =>
                  let s := update_entry process_id page_id
                             (PageTableEntry.map_to_frame frame_id entry) s in
                  let s :=
                    match PhysicalMemory.get_frame frame_id (physical_memory s) with
                    | Some frame =>
                        set_physical_memory
                          (PhysicalMemory.update_frame frame_id
                             (Frame.allocate process_id page_id alloc_size frame).2
                             (physical_memory s)) s
                    | None => s
                    end in
                  let s :=
                    match processes s !! process_id with
                    | Some info =>
                        set_processes
                          (<[process_id :=
                               mkProcessInfo (num_pages info) (allocated_pages info + 1)]>
                             (processes s)) s
                    | None => s
                    end in
                  Ret (Some frame_id) s
              end
          end
      end
  end.

Definition deallocate_page (process_id page_id : Z) (s : t) : bool * t :=
  match page_tables s !! process_id with
  | None => (false, s)
  | Some page_table =>
      match PageTable.get_entry page_id page_table with
      | None => (false, s)
      | Some entry =>
          match PageTableEntry.present_bit entry, PageTableEntry.frame_id entry with
          | true, Some frame_id =>
              let s :=
                match PhysicalMemory.get_frame frame_id (physical_memory s) with
                | Some frame =>
                    set_physical_memory
                      (PhysicalMemory.update_frame frame_id
                         (Frame.deallocate frame).2 (physical_memory s)) s
                | None => s
                end in
              let s := update_entry process_id page_id
                         (PageTableEntry.unmap_frame entry) s in
              let s :=
                match processes s !! process_id with
                | Some info =>
                    set_processes
                      (<[process_id :=
                           mkProcessInfo (num_pages info)
                             (Z.max 0 (allocated_pages info - 1))]>
                         (processes s)) s
                | None => s
                end in
              (true, s)
          | _, _ => (false, s)
          end
      end
  end.

(** The result is [None] for an unknown process, and otherwise the tuple
    [(physical_address, offset, page_fault)]. *)
Definition translate_address (process_id logical_address : Z) (s : t)
    : outcome t (option (option Z * Z * bool)) :=
  match page_tables s !! process_id with
  | None => Ret None s
  | Some page_table =>
      match PageTable.translate_address logical_address page_table with
      | None => Raise ZeroDivisionError s
      | Some (page_id, offset) =>
          match PageTable.get_entry page_id page_table with
          | None => Ret (Some (None, offset, true)) (count_fault s)
          | Some entry =>
              match PageTableEntry.present_bit entry, PageTableEntry.frame_id entry with
              | true, Some frame_id =>
                  match PhysicalMemory.get_frame frame_id (physical_memory s) with
                  | None => Ret (Some (None, offset, true)) (count_fault s)
                  | Some frame =>
                      let physical_address :=
                        frame_id * PhysicalMemory.frame_size (physical_memory s) + offset in
                      Ret (Some (Some physical_address, offset, false))
                          (count_success
                             (update_entry process_id page_id
                                (PageTableEntry.mark_referenced entry) s))
                  end
              | _, _ =>
                  Ret (Some (None, offset, true))
                      (update_entry process_id page_id
                         (PageTableEntry.mark_referenced entry) (count_fault s))
              end
          end
      end
  end.

Definition access_page (process_id page_id : Z) (write : bool) (s : t)
    : bool * t :=
  match page_tables s !! process_id with
  | None => (false, s)
  | Some page_table =>
      match PageTable.get_entry page_id page_table with
      | None => (false, count_fault s)
      | Some entry =>
          if negb (PageTableEntry.present_bit entry) then (false, count_fault s)
          else
            let entry := PageTableEntry.mark_referenced entry in
            let entry := if write then PageTableEntry.mark_modified entry else entry in
            (true, count_success (update_entry process_id page_id entry s))
      end
  end.

Definition reset (s : t) : t :=
  mk (PhysicalMemory.reset (physical_memory s)) ∅
     (MemoryAllocator.mk (MemoryAllocator.strategy (allocator s)) 0) 0 0 ∅.

Definition set_allocation_strategy (strategy : AllocationStrategy) (s : t) : t :=
  set_allocator (MemoryAllocator.set_strategy strategy (allocator s)) s.

End PagingSimulator.

(** ** segmentation_engine.py *)

Module Segment.

Inductive SegmentStatus : Set := ALLOCATED | FREE.

Record t : Type := mk {
  segment_id : Z;
  name : string;
  base : Z;
  limit : Z;
  status : SegmentStatus
}.

Definition init (segment_id : Z) (name : string) (base limit : Z) : t :=
  mk segment_id name base limit ALLOCATED.

Definition contains_address (offset : Z) (sg : t) : bool :=
  bool_decide (0 ≤ offset < limit sg).

Definition translate (offset : Z) (sg : t) : option Z :=
  if contains_address offset sg then Some (base sg + offset) else None.

End Segment.

Module SegmentTable.

(** [segments] is a dictionary whose values are listed in insertion order
    by [calculate_fragmentation]; it is kept as an association list. *)
Record t : Type := mk {
  process_id : Z;
  segments : list (Z * Segment.t)
}.

Definition init (process_id : Z) : t := mk process_id [].

(** [d[k] = v]: an existing key keeps its place, a new one goes last. *)
Fixpoint dict_set (k : Z) (v : Segment.t) (d : list (Z * Segment.t))
    : list (Z * Segment.t) :=
  match d with
  | [] => [(k, v)]
  | (k', v') :: d' =>
      if decide (k' = k) then (k, v) :: d' else (k', v') :: dict_set k v d'
  end.

Fixpoint dict_get (k : Z) (d : list (Z * Segment.t)) : option Segment.t :=
  match d with
  | [] => None
  | (k', v') :: d' => if decide (k' = k) then Some v' else dict_get k d'
  end.

Definition add_segment (segment_id : Z) (name : string) (base limit : Z)
    (st : t) : Segment.t * t :=
  let segment := Segment.init segment_id name base limit in
  (segment, mk (process_id st) (dict_set segment_id segment (segments st))).

Definition get_segment (segment_id : Z) (st : t) : option Segment.t :=
  dict_get segment_id (segments st).

Definition translate_address (segment_id offset : Z) (st : t)
    : option Z * bool * string :=
  match get_segment segment_id st with
  | None => (None, false, "Segment " +:+ pretty segment_id +:+ " does not exist")
  | Some segment =>
      if negb (Segment.contains_address offset segment) then
        (None, false,
         "Offset " +:+ pretty offset +:+ " out of bounds (limit: "
           +:+ pretty (Segment.limit segment) +:+ ")")
      else (Segment.translate offset segment, true, "")
  end.

End SegmentTable.

(** The dictionaries returned by [calculate_fragmentation]; the Python
    floats are rationals here. *)
Inductive Fragmentation : Type :=
| FragmentationNone (internal external : Q)
| FragmentationReport (internal_bytes external_bytes
                       internal_percent external_percent : Q).

Module SegmentationEngine.

Record t : Type := mk {
  segment_tables : gmap Z SegmentTable.t;
  next_base_address : Z;
  access_attempts : Z;
  access_successes : Z;
  bounds_violations : Z
}.

Definition init : t := mk ∅ 0x1000 0 0 0.

Definition create_process (process_id : Z) (s : t) : bool * t :=
  match segment_tables s !! process_id with
  | Some _ => (false, s)
  | None =>
      (true,
       mk (<[process_id := SegmentTable.init process_id]> (segment_tables s))
          (next_base_address s) (access_attempts s) (access_successes s)
          (bounds_violations s))
  end.

Definition remove_process (process_id : Z) (s : t) : bool * t :=
  match segment_tables s !! process_id with
  | None => (false, s)
  | Some _ =>
      (true,
       mk (delete process_id (segment_tables s)) (next_base_address s)
          (access_attempts s) (access_successes s) (bounds_violations s))
  end.

Definition add_segment (process_id segment_id : Z) (name : string)
    (size : Z) (base : option Z) (s : t) : bool * t :=
  match segment_tables s !! process_id with
  | None => (false, s)
  | Some segment_table =>
      let '(base, next) :=
        match base with
        | None => (next_base_address s, next_base_address s + (size + 0x100))
        | Some b => (b, next_base_address s)
        end in
      (true,
       mk (<[process_id :=
               (SegmentTable.add_segment segment_id name base size segment_table).2]>
             (segment_tables s))
          next (access_attempts s) (access_successes s) (bounds_violations s))
  end.

Definition translate_address (process_id segment_id offset : Z) (s : t)
    : (option Z * bool * string) * t :=
  let attempts := access_attempts s + 1 in
  match segment_tables s !! process_id with
  | None =>
      ((None, false, "Process " +:+ pretty process_id +:+ " does not exist"),
       mk (segment_tables s) (next_base_address s) attempts
          (access_successes s) (bounds_violations s))
  | Some segment_table =>
      let '(physical_addr, valid, error_msg) :=
        SegmentTable.translate_address segment_id offset segment_table in
      ((physical_addr, valid, error_msg),
       if valid
       then mk (segment_tables s) (next_base_address s) attempts
               (access_successes s + 1) (bounds_violations s)
       else mk (segment_tables s) (next_base_address s) attempts
               (access_successes s) (bounds_violations s + 1))
  end.

(** [sorted(segments, key=lambda s: s.base)]: a stable sort. *)
Fixpoint insert_by_base (x : Segment.t) (l : list Segment.t) : list Segment.t :=
  match l with
  | [] => [x]
  | y :: l' =>
      if bool_decide (Segment.base x ≤ Segment.base y) then x :: y :: l'
      else y :: insert_by_base x l'
  end.

Definition sorted_by_base (l : list Segment.t) : list Segment.t :=
  foldr insert_by_base [] l.

(** The loop over [range(len(sorted_segments) - 1)]. *)
Fixpoint gaps (sorted_segments : list Segment.t) (external_frag : Q) : Q :=
  match sorted_segments with
  | current :: ((next :: _) as rest) =>
      let current_end := Segment.base current + Segment.limit current in
      let next_base := Segment.base next in
      gaps rest
        (if bool_decide (next_base > current_end)
         then (external_frag + inject_Z (next_base - current_end))%Q
         else external_frag)
  | _ => external_frag
  end.

Definition calculate_fragmentation (process_id : Z) (s : t) : Fragmentation :=
  match segment_tables s !! process_id with
  | None => FragmentationNone 0 0
  | Some segment_table =>
      let segments := (SegmentTable.segments segment_table).*2 in
      match segments with
      | [] => FragmentationNone 0 0
      | _ =>
          let sorted_segments := sorted_by_base segments in
          let internal_frag := 0%Q in
          let external_frag := gaps sorted_segments 0 in
          let total_size := foldr (λ seg acc, Segment.limit seg + acc) 0 segments in
          let internal_pct :=
            if bool_decide (total_size > 0)
            then (internal_frag / inject_Z total_size * 100)%Q else 0%Q in
          let external_pct :=
            if bool_decide (total_size > 0)
            then (external_frag / inject_Z total_size * 100)%Q else 0%Q in
          FragmentationReport internal_frag external_frag internal_pct external_pct
      end
  end.

Definition reset (s : t) : t := mk ∅ 0x1000 0 0 0.

End SegmentationEngine.

(** ** address_translation.py *)

(** The value of a function call that may raise. *)
Inductive result (A : Type) : Type :=
| Returns (a : A)
| Raises (e : exn).
Arguments Returns {A} a.
Arguments Raises {A} e.

Module AddressTranslation.

(** [page_table] maps a page id to its frame id or to [None]. *)
Definition logical_to_physical_paging (logical_address page_size : Z)
    (page_table : gmap Z (option Z)) (frame_size : Z)
    : result (option (option Z * Z * bool)) :=
  if decide (page_size = 0) then Raises ZeroDivisionError
  else
    let page_id := logical_address `div` page_size in
    let offset := logical_address `mod` page_size in
    match page_table !! page_id with
    | None => Returns None
    | Some None => Returns (Some (None, offset, true))
    | Some (Some frame_id) =>
        Returns (Some (Some (frame_id * frame_size + offset), offset, false))
    end.

(** [segment_table] maps a segment id to its [(base, limit)] pair. *)
Definition logical_to_physical_segmentation (segment_id offset : Z)
    (segment_table : gmap Z (Z * Z)) : option (option Z * bool * string) :=
  match segment_table !! segment_id with
  | None => None
  | Some (base, limit) =>
      if bool_decide (offset < 0) || bool_decide (offset >= limit) then
        Some (None, false,
              "Offset " +:+ pretty offset +:+ " out of bounds (limit: "
                +:+ pretty limit +:+ ")")
      else Some (Some (base + offset), true, "")
  end.

Definition split_address (address page_size : Z) : result (Z * Z) :=
  if decide (page_size = 0) then Raises ZeroDivisionError
  else Returns (address `div` page_size, address `mod` page_size).

Definition combine_address (page_number offset page_size : Z) : Z :=
  page_number * page_size + offset.

End AddressTranslation.

(** * Runs, reachable states and the vocabulary of the properties *)

(** Feeding an access sequence to an engine, one [access_page] per page;
    the result dictionaries are collected in order. *)
Definition fifo_run (l : list Z) (s : FIFOReplacement.t)
    : list AccessResult * FIFOReplacement.t :=
  foldl (λ '(out, s) p,
           let '(r, s') := FIFOReplacement.access_page p None s in (out ++ [r], s'))
        ([], s) l.

Definition lru_run (l : list Z) (s : LRUReplacement.t)
    : list AccessResult * LRUReplacement.t :=
  foldl (λ '(out, s) p,
           let '(r, s') := LRUReplacement.access_page p None s in (out ++ [r], s'))
        ([], s) l.

(** The outcome of an Optimal fault that evicts [victim] from slot [i]. *)
Definition optimal_evicts (page_id victim : Z) (i : nat)
    (s : OptimalReplacement.t) : outcome OptimalReplacement.t AccessResult :=
  let b := OptimalReplacement.base s in
  Ret (mkAccessResult page_id true (Some victim) (Some i) "OPTIMAL")
      (OptimalReplacement.mk
         (PageReplacementAlgorithm.mk
            (PageReplacementAlgorithm.num_frames b)
            (<[i := Some page_id]> (PageReplacementAlgorithm.frames b))
            (PageReplacementAlgorithm.page_faults b + 1)
            (PageReplacementAlgorithm.page_hits b))).

(** The object as a call leaves it, whether it returned or raised. *)
Definition state_after {S A : Type} (o : outcome S A) : S :=
  match o with
  | Ret _ s => s
  | Raise _ s => s
  end.

(** The order structure of an engine: the FIFO queue or the LRU recency
    list; the Optimal engine keeps none. *)
Definition order_structure (r : Replacement.t) : option (list Z) :=
  match r with
  | Replacement.Fifo s => Some (FIFOReplacement.queue s)
  | Replacement.Lru s => Some (LRUReplacement.access_order s)
  | Replacement.Optimal _ => None
  end.

Definition algorithm_name (r : Replacement.t) : string :=
  match r with
  | Replacement.Fifo _ => "FIFO"
  | Replacement.Lru _ => "LRU"
  | Replacement.Optimal _ => "OPTIMAL"
  end.

(** The state-changing calls of [VirtualMemoryManager] ([translate_address],
    [get_statistics] and [get_memory_layout] only read). *)
Inductive vm_op : Type :=
| LoadProcess (process_id : Z) (pages : list Z)
| RemoveProcess (process_id : Z)
| AccessPage (process_id page_id : Z) (write : bool)
             (future_references : option (list Z))
| SetReplacementAlgorithm (algorithm : ReplacementAlgorithm)
| ResetManager.

Definition vm_exec (op : vm_op) (m : VirtualMemoryManager.t)
    : VirtualMemoryManager.t :=
  match op with
  | LoadProcess process_id pages =>
      (VirtualMemoryManager.load_process process_id pages m).2
  | RemoveProcess process_id => (VirtualMemoryManager.remove_process process_id m).2
  | AccessPage process_id page_id write future_references =>
      state_after
        (VirtualMemoryManager.access_page process_id page_id write future_references m)
  | SetReplacementAlgorithm algorithm =>
      VirtualMemoryManager.set_replacement_algorithm algorithm m
  | ResetManager => VirtualMemoryManager.reset m
  end.

Inductive vm_reachable : VirtualMemoryManager.t → Prop :=
| vm_fresh num_frames frame_size algorithm :
    vm_reachable (VirtualMemoryManager.init num_frames frame_size algorithm)
| vm_after op m : vm_reachable m → vm_reachable (vm_exec op m).

(** The frame property of [remove_process] over page lists that may overlap:
    removing process [A] leaves every page registered to another process [B]
    with the blob it had and in the slot it occupied. *)
Definition remove_process_spares_other_processes : Prop :=
  ∀ m (A B : Z) (pagesA pagesB : list Z),
    vm_reachable m → A ≠ B →
    VirtualMemoryManager.process_pages m !! A = Some pagesA →
    VirtualMemoryManager.process_pages m !! B = Some pagesB →
    let m' := (VirtualMemoryManager.remove_process A m).2 in
    ∀ p, p ∈ pagesB →
      (BackingStore.has_page p (VirtualMemoryManager.backing_store m) = true →
       BackingStore.has_page p (VirtualMemoryManager.backing_store m') = true) ∧
      (∀ i : nat,
         Replacement.frames (VirtualMemoryManager.replacement m) !! i = Some (Some p) →
         Replacement.frames (VirtualMemoryManager.replacement m') !! i = Some (Some p)).

(** Two processes loaded with the overlapping page lists [0,1] and [1,2]. *)
Definition shared_page_manager : VirtualMemoryManager.t :=
  vm_exec (LoadProcess 2 [1; 2])
    (vm_exec (LoadProcess 1 [0; 1]) (VirtualMemoryManager.init 2 16 FIFO)).

(** The run that leaves stale entries in the order structure of a two-frame
    manager: process 1 brings pages 1 and 2 in and is removed, then process
    2 fills both slots with pages 3 and 4. *)
Definition stale_order_manager (algorithm : ReplacementAlgorithm)
    : VirtualMemoryManager.t :=
  foldl (λ m op, vm_exec op m) (VirtualMemoryManager.init 2 16 algorithm)
    [LoadProcess 1 [1; 2]; LoadProcess 2 [3; 4; 5];
     AccessPage 1 1 false None; AccessPage 1 2 false None;
     RemoveProcess 1;
     AccessPage 2 3 false None; AccessPage 2 4 false None].

(** The space a request of [size] leaves unused in frame [f]. *)
Definition waste (size : Z) (f : Frame.t) : Z := Frame.size f - size.

(** [waste < best_waste], with [None] for [float('inf')]. *)
Definition improves (best_waste : option Z) (w : Z) : Prop :=
  match best_waste with
  | None => True
  | Some w0 => w < w0
  end.

(** Three free frames of sizes 4, 2 and 2. *)
Definition frames_4_2_2 : list Frame.t :=
  [Frame.init 0 4; Frame.init 1 2; Frame.init 2 2].

(** The public calls of [PagingSimulator]. *)
Module PagingOp.
Inductive t : Type :=
| CreateProcess (process_id num_pages : Z)
| AllocatePage (process_id page_id : Z) (size : option Z)
| DeallocatePage (process_id page_id : Z)
| RemoveProcess (process_id : Z)
| TranslateAddress (process_id logical_address : Z)
| AccessPage (process_id page_id : Z) (write : bool)
| Reset
| SetAllocationStrategy (strategy : AllocationStrategy).
End PagingOp.

Definition paging_exec (op : PagingOp.t) (s : PagingSimulator.t)
    : PagingSimulator.t :=
  match op with
  | PagingOp.CreateProcess process_id num_pages =>
      (PagingSimulator.create_process process_id num_pages s).2
  | PagingOp.AllocatePage process_id page_id size =>
      state_after (PagingSimulator.allocate_page process_id page_id size s)
  | PagingOp.DeallocatePage process_id page_id =>
      (PagingSimulator.deallocate_page process_id page_id s).2
  | PagingOp.RemoveProcess process_id =>
      (PagingSimulator.remove_process process_id s).2
  | PagingOp.TranslateAddress process_id logical_address =>
      state_after (PagingSimulator.translate_address process_id logical_address s)
  | PagingOp.AccessPage process_id page_id write =>
      (PagingSimulator.access_page process_id page_id write s).2
  | PagingOp.Reset => PagingSimulator.reset s
  | PagingOp.SetAllocationStrategy strategy =>
      PagingSimulator.set_allocation_strategy strategy s
  end.

Inductive paging_reachable : PagingSimulator.t → Prop :=
| paging_fresh num_frames frame_size allocation_strategy :
    paging_reachable (PagingSimulator.init num_frames frame_size allocation_strategy)
| paging_after op s : paging_reachable s → paging_reachable (paging_exec op s).

(** The frames of the simulator and its present page-table entries. *)
Definition sim_frames (s : PagingSimulator.t) : list Frame.t :=
  PhysicalMemory.frames (PagingSimulator.physical_memory s).

Definition present_entry (s : PagingSimulator.t) (process_id page_id : Z)
    (e : PageTableEntry.t) : Prop :=
  ∃ pt, PagingSimulator.page_tables s !! process_id = Some pt ∧
        PageTable.entries pt !! page_id = Some e ∧
        PageTableEntry.present_bit e = true.

(** The invariant behind the ownership properties: frame ids are list
    positions, page tables use the frame size as page size, the next-fit
    cursor stays within the frame list, and every present entry points to
    an allocated frame that records the entry's process and page. *)
Definition paging_inv (s : PagingSimulator.t) : Prop :=
  (∀ (i : nat) f, sim_frames s !! i = Some f → Frame.frame_id f = Z.of_nat i) ∧
  (∀ pid pt, PagingSimulator.page_tables s !! pid = Some pt →
             PageTable.page_size pt
             = PhysicalMemory.frame_size (PagingSimulator.physical_memory s)) ∧
  (MemoryAllocator._next_fit_start (PagingSimulator.allocator s)
   ≤ length (sim_frames s))%nat ∧
  (∀ pid page e,
     present_entry s pid page e →
     ∃ (i : nat) f,
       PageTableEntry.frame_id e = Some (Z.of_nat i) ∧
       sim_frames s !! i = Some f ∧ Frame.status f = ALLOCATED ∧
       Frame.process_id f = Some pid ∧ Frame.page_id f = Some page).

(** One frame, owned by page 0 of process 1. *)
Definition full_simulator : PagingSimulator.t :=
  paging_exec (PagingOp.AllocatePage 1 0 None)
    (paging_exec (PagingOp.CreateProcess 1 0) (PagingSimulator.init 1 16 NEXT_FIT)).

(** Two processes, each with page 0 mapped, on a two-frame simulator. *)
Definition two_process_simulator : PagingSimulator.t :=
  foldl (λ s op, paging_exec op s) (PagingSimulator.init 2 16 BEST_FIT)
    [PagingOp.CreateProcess 1 0; PagingOp.CreateProcess 2 0;
     PagingOp.AllocatePage 1 0 None; PagingOp.AllocatePage 2 0 None].

(** The state-changing calls of [SegmentationEngine]. *)
Module SegmentationOp.
Inductive t : Type :=
| CreateProcess (process_id : Z)
| RemoveProcess (process_id : Z)
| AddSegment (process_id segment_id : Z) (name : string) (size : Z)
             (base : option Z)
| TranslateAddress (process_id segment_id offset : Z)
| Reset.
End SegmentationOp.

Definition segmentation_exec (op : SegmentationOp.t) (s : SegmentationEngine.t)
    : SegmentationEngine.t :=
  match op with
  | SegmentationOp.CreateProcess process_id =>
      (SegmentationEngine.create_process process_id s).2
  | SegmentationOp.RemoveProcess process_id =>
      (SegmentationEngine.remove_process process_id s).2
  | SegmentationOp.AddSegment process_id segment_id name size base =>
      (SegmentationEngine.add_segment process_id segment_id name size base s).2
  | SegmentationOp.TranslateAddress process_id segment_id offset =>
      (SegmentationEngine.translate_address process_id segment_id offset s).2
  | SegmentationOp.Reset => SegmentationEngine.reset s
  end.

Inductive segmentation_reachable : SegmentationEngine.t → Prop :=
| segmentation_fresh : segmentation_reachable SegmentationEngine.init
| segmentation_after op s :
    segmentation_reachable s → segmentation_reachable (segmentation_exec op s).

(** The segment [segment_id] of process [process_id], if any. *)
Definition segment_of (process_id segment_id : Z) (s : SegmentationEngine.t)
    : option Segment.t :=
  st ← SegmentationEngine.segment_tables s !! process_id;
  SegmentTable.get_segment segment_id st.

Definition external_bytes (fr : Fragmentation) : option Q :=
  match fr with
  | FragmentationReport _ eb _ _ => Some eb
  | FragmentationNone _ _ => None
  end.

Definition external_percent (fr : Fragmentation) : option Q :=
  match fr with
  | FragmentationReport _ _ _ ep => Some ep
  | FragmentationNone _ _ => None
  end.

(** The placement property read for every engine: whenever a process holds
    just a segment CODE with base 0x1000 and limit 0x1000, a DATA segment of
    limit 0x1000 added without base lands at 0x2100. *)
Definition data_lands_after_code : Prop :=
  ∀ s (process_id code_id data_id : Z) st,
    segmentation_reachable s →
    SegmentationEngine.segment_tables s !! process_id = Some st →
    SegmentTable.segments st
    = [(code_id, Segment.init code_id "CODE" 0x1000 0x1000)] →
    code_id ≠ data_id →
    ∃ data,
      segment_of process_id data_id
        (SegmentationEngine.add_segment process_id data_id "DATA" 0x1000 None s).2
      = Some data ∧
      Segment.base data = 0x2100.

(** A process whose CODE segment was added with the explicit base 0x1000. *)
Definition explicit_code_engine : SegmentationEngine.t :=
  segmentation_exec (SegmentationOp.AddSegment 1 0 "CODE" 0x1000 (Some 0x1000))
    (segmentation_exec (SegmentationOp.CreateProcess 1) SegmentationEngine.init).

(** A fresh engine on which CODE and then DATA, both of size 0x1000, were
    added to process 1 without base. *)
Definition auto_code_engine : SegmentationEngine.t :=
  segmentation_exec (SegmentationOp.AddSegment 1 0 "CODE" 0x1000 None)
    (segmentation_exec (SegmentationOp.CreateProcess 1) SegmentationEngine.init).

Definition auto_code_data_engine : SegmentationEngine.t :=
  segmentation_exec (SegmentationOp.AddSegment 1 1 "DATA" 0x1000 None)
    auto_code_engine.

(** An Optimal engine with pages 1 and 2 resident in its two slots. *)
Definition two_slots (faults hits : Z) : OptimalReplacement.t :=
  OptimalReplacement.mk (PageReplacementAlgorithm.mk 2 [Some 1; Some 2] faults hits).

(** The calls that change a replacement engine used on its own. *)
Inductive engine_op : Type :=
| EngineAccess (page_id : Z) (future_references : option (list Z))
| EngineReset.

Definition engine_exec (op : engine_op) (r : Replacement.t) : Replacement.t :=
  match op with
  | EngineAccess page_id future_references =>
      state_after (Replacement.access_page page_id future_references r)
  | EngineReset => Replacement.reset r
  end.

Inductive engine_reachable : Replacement.t → Prop :=
| engine_fresh num_frames algorithm :
    engine_reachable
      (VirtualMemoryManager._create_replacement_algorithm num_frames algorithm)
| engine_after op r : engine_reachable r → engine_reachable (engine_exec op r).

(** No page occupies two slots. *)
Definition slots_injective (frames : list (option Z)) : Prop :=
  ∀ (i j : nat) p,
    frames !! i = Some (Some p) → frames !! j = Some (Some p) → i = j.

(** The invariant of an engine used on its own: the slot array has
    [num_frames] slots, no page occupies two slots, and the order structure
    lists exactly the resident pages, each once. *)
Definition engine_inv (r : Replacement.t) : Prop :=
  length (Replacement.frames r)
  = Z.to_nat (PageReplacementAlgorithm.num_frames (Replacement.base r)) ∧
  slots_injective (Replacement.frames r) ∧
  match order_structure r with
  | Some order => NoDup order ∧ ∀ p, p ∈ order ↔ Some p ∈ Replacement.frames r
  | None => True
  end.

(** How one access moves the counters: a hit counts one hit, a miss one
    fault; [num_frames] stays. *)
Definition counted (hit : bool) (r r' : Replacement.t) : Prop :=
  let b := Replacement.base r in
  let b' := Replacement.base r' in
  PageReplacementAlgorithm.num_frames b' = PageReplacementAlgorithm.num_frames b ∧
  PageReplacementAlgorithm.page_hits b'
  = PageReplacementAlgorithm.page_hits b + (if hit then 1 else 0) ∧
  PageReplacementAlgorithm.page_faults b'
  = PageReplacementAlgorithm.page_faults b + (if hit then 0 else 1).

(** What a hit does to the order structure: LRU moves the page to the
    most-recent end, FIFO leaves the queue alone. *)
Definition order_after_hit (r : Replacement.t) (page_id : Z) (order : list Z)
    : list Z :=
  match r with
  | Replacement.Lru _ => remove_first page_id order ++ [page_id]
  | _ => order
  end.

(** The invariant of the virtual memory manager: the swap-out count never
    exceeds the swap-in count, the engine is of the configured kind and has
    [num_frames] slots, and every resident page has a blob in the backing
    store. *)
Definition vm_inv (m : VirtualMemoryManager.t) : Prop :=
  let r := VirtualMemoryManager.replacement m in
  0 ≤ VirtualMemoryManager.swap_outs m ≤ VirtualMemoryManager.swap_ins m ∧
  algorithm_name r
  = algorithm_name
      (VirtualMemoryManager._create_replacement_algorithm 0
         (VirtualMemoryManager.algorithm m)) ∧
  PageReplacementAlgorithm.num_frames (Replacement.base r)
  = VirtualMemoryManager.num_frames m ∧
  length (Replacement.frames r) = Z.to_nat (VirtualMemoryManager.num_frames m) ∧
  ∀ p, Some p ∈ Replacement.frames r →
       BackingStore.has_page p (VirtualMemoryManager.backing_store m) = true.

(** The entry that [allocate_page] works on, and the page table holding it:
    the existing entry, or a new one made by [create_page]. *)
Definition touched_entry (page_id : Z) (pt : PageTable.t)
    : PageTableEntry.t * PageTable.t :=
  match PageTable.get_entry page_id pt with
  | Some e => (e, pt)
  | None => PageTable.create_page page_id pt
  end.

(** The parts of the simulator that only the constructor sets. *)
Definition same_configuration (s s' : PagingSimulator.t) : Prop :=
  let pm := PagingSimulator.physical_memory s in
  let pm' := PagingSimulator.physical_memory s' in
  PhysicalMemory.num_frames pm' = PhysicalMemory.num_frames pm ∧
  PhysicalMemory.frame_size pm' = PhysicalMemory.frame_size pm ∧
  PhysicalMemory._next_frame_id pm' = PhysicalMemory._next_frame_id pm ∧
  MemoryAllocator.strategy (PagingSimulator.allocator s')
  = MemoryAllocator.strategy (PagingSimulator.allocator s).

(** The shape of the frame pool: it has [num_frames] frames of size
    [frame_size]; a free frame records no owner and no allocated size; an
    allocated frame records the process and page of a present page-table
    entry that points back to it. *)
Definition frames_owned (s : PagingSimulator.t) : Prop :=
  let pm := PagingSimulator.physical_memory s in
  length (sim_frames s) = Z.to_nat (PhysicalMemory.num_frames pm) ∧
  PhysicalMemory._next_frame_id pm = PhysicalMemory.num_frames pm ∧
  ∀ (i : nat) f,
    sim_frames s !! i = Some f →
    Frame.size f = PhysicalMemory.frame_size pm ∧
    match Frame.status f with
    | FREE =>
        Frame.process_id f = None ∧ Frame.page_id f = None ∧
        Frame.allocated_size f = 0
    | ALLOCATED =>
        ∃ pid page e,
          Frame.process_id f = Some pid ∧ Frame.page_id f = Some page ∧
          present_entry s pid page e ∧
          PageTableEntry.frame_id e = Some (Z.of_nat i)
    end.

(** The bookkeeping of [processes]: it lists exactly the processes that
    have a page table, and [allocated_pages] is the number of mapped pages
    of that table. *)
Definition processes_inv (s : PagingSimulator.t) : Prop :=
  (∀ pid, is_Some (PagingSimulator.processes s !! pid)
          ↔ is_Some (PagingSimulator.page_tables s !! pid)) ∧
  ∀ pid info pt,
    PagingSimulator.processes s !! pid = Some info →
    PagingSimulator.page_tables s !! pid = Some pt →
    allocated_pages info = Z.of_nat (length (PageTable.get_mapped_pages pt)).

(** The frames that record [process_id] as their owner. *)
Definition frames_of (process_id : Z) (frames : list Frame.t) : list Frame.t :=
  filter (λ f, Frame.process_id f = Some process_id) frames.

(** The number of mapped pages of a process; 0 without page table. *)
Definition mapped_of (s : PagingSimulator.t) (process_id : Z) : nat :=
  match PagingSimulator.page_tables s !! process_id with
  | Some pt => length (PageTable.get_mapped_pages pt)
  | None => 0
  end.

Definition frame_count_inv (s : PagingSimulator.t) : Prop :=
  ∀ pid, length (frames_of pid (sim_frames s)) = mapped_of s pid.

(** An entry holds a frame id exactly when its present bit is set. *)
Definition frame_iff_present (e : PageTableEntry.t) : Prop :=
  is_Some (PageTableEntry.frame_id e) ↔ PageTableEntry.present_bit e = true.

Definition entries_inv (s : PagingSimulator.t) : Prop :=
  ∀ pid pt page e,
    PagingSimulator.page_tables s !! pid = Some pt →
    PageTable.entries pt !! page = Some e →
    frame_iff_present e.

(** The dictionary [page_id -> frame_id] that [logical_to_physical_paging]
    takes, read off a page table. *)
Definition frame_ids (pt : PageTable.t) : gmap Z (option Z) :=
  PageTableEntry.frame_id <$> PageTable.entries pt.

(** The frame lists the simulator hands to the allocator: frame ids are
    list positions, and a free frame is blank. *)
Definition blank_free_frames (frames : list Frame.t) : Prop :=
  ∀ (i : nat) f,
    frames !! i = Some f →
    Frame.frame_id f = Z.of_nat i ∧
    (Frame.status f = FREE →
     Frame.process_id f = None ∧ Frame.page_id f = None ∧
     Frame.allocated_size f = 0).

(** The positions that next-fit visits before position [i] when its scan
    starts at [start]: from [start] up to [i], or, when [i] lies before
    [start], from [start] to the end and then from 0 up to [i]. *)
Definition visited_before (start i j : nat) : Prop :=
  (start ≤ j < i)%nat ∨ (i < start ∧ (start ≤ j ∨ j < i))%nat.

(** The calls that leave placement to the engine: [add_segment] without
    base and with a size that is not negative; every other call. *)
Definition auto_placing (op : SegmentationOp.t) : Prop :=
  match op with
  | SegmentationOp.AddSegment _ _ _ size base => base = None ∧ 0 ≤ size
  | _ => True
  end.

Inductive auto_placed_reachable : SegmentationEngine.t → Prop :=
| auto_placed_fresh : auto_placed_reachable SegmentationEngine.init
| auto_placed_after op s :
    auto_placed_reachable s → auto_placing op →
    auto_placed_reachable (segmentation_exec op s).

(** Every segment lies between 0x1000 and the cursor, 0x100 below it at
    least, and two different segments are 0x100 apart at least. *)
Definition placement_inv (s : SegmentationEngine.t) : Prop :=
  0x1000 ≤ SegmentationEngine.next_base_address s ∧
  (∀ pid seg sg,
     segment_of pid seg s = Some sg →
     0 ≤ Segment.limit sg ∧ 0x1000 ≤ Segment.base sg ∧
     Segment.base sg + Segment.limit sg + 0x100
     ≤ SegmentationEngine.next_base_address s) ∧
  (∀ pid1 seg1 sg1 pid2 seg2 sg2,
     (pid1, seg1) ≠ (pid2, seg2) →
     segment_of pid1 seg1 s = Some sg1 →
     segment_of pid2 seg2 s = Some sg2 →
     Segment.base sg1 + Segment.limit sg1 + 0x100 ≤ Segment.base sg2 ∨
     Segment.base sg2 + Segment.limit sg2 + 0x100 ≤ Segment.base sg1).

(** The dictionary [segment_id -> (base, limit)] that
    [logical_to_physical_segmentation] takes, read off a segment table. *)
Definition describes (segment_table : gmap Z (Z * Z)) (st : SegmentTable.t)
    : Prop :=
  ∀ segment_id,
    segment_table !! segment_id
    = (λ sg, (Segment.base sg, Segment.limit sg))
        <$> SegmentTable.get_segment segment_id st.

(** * Properties of the replacement engines *)

Section ReplacementFacts.

Implicit Types (fr : list (option Z)) (p q : Z) (i j : nat).

Lemma index_nonneg x l d : index x l = Some d → 0 ≤ d.
Proof.
  revert d. induction l as [|y l IH]; intros d; simpl; [done|].
  case_decide; [intros [= <-]; lia|].
  destruct (index x l) as [d'|]; simpl; [|done].
  intros [= <-]. specialize (IH d' eq_refl). lia.
Qed.

Lemma slot_of_Some p fr i :
  slot_of p fr = Some i ↔
  fr !! i = Some (Some p) ∧ ∀ j, (j < i)%nat → fr !! j ≠ Some (Some p).
Proof.
  revert i. induction fr as [|x fr IH]; intros i; simpl.
  { split; [done|]. intros [? _]. done. }
  case_decide as Hx.
  - subst x. split.
    + intros [= <-]. split; [done|]. intros j ?. lia.
    + intros [_ Hmin]. destruct i as [|i]; [done|].
      exfalso. apply (Hmin 0%nat); [lia|done].
  - destruct (slot_of p fr) as [k|]; simpl.
    + split.
      * intros [= <-]. destruct (proj1 (IH k) eq_refl) as [? Hmin]. split; [done|].
        intros [|j] ?; simpl; [congruence|]. apply Hmin. lia.
      * intros [Hi Hmin]. destruct i as [|i]; simpl in Hi; [congruence|].
        assert (Some k = Some i) as [= ->]; [|done].
        apply IH. split; [done|].
        intros j ?. apply (Hmin (S j)). lia.
    + split; [done|]. intros [Hi Hmin].
      destruct i as [|i]; simpl in Hi; [congruence|].
      assert (None = Some i) as Habs; [|done].
      apply IH. split; [done|]. intros j ?. apply (Hmin (S j)). lia.
Qed.

Lemma first_free_None fr :
  PageReplacementAlgorithm.first_free fr = None ↔ ∀ i, fr !! i ≠ Some None.
Proof.
  induction fr as [|[x|] fr IH]; simpl.
  - split; [|done]. intros _ i. done.
  - destruct (PageReplacementAlgorithm.first_free fr) as [k|]; simpl.
    + split; [done|]. intros H. assert (Some k = None) as Habs; [|done].
      apply IH. intros i. apply (H (S i)).
    + split; [|done]. intros _ [|i]; simpl; [done|]. by apply IH.
  - split; [done|]. intros H. by specialize (H 0%nat).
Qed.

(** A page that never recurs ends the scan, whatever the loop holds. *)
Lemma scan_never_again future fr k p acc m :
  fr !! k = Some (Some p) →
  index p future = None →
  (∀ j q, (j < k)%nat → fr !! j = Some (Some q) → index q future ≠ None) →
  OptimalReplacement.scan future fr acc m = Some p.
Proof.
  revert k acc m. induction fr as [|x fr IH]; intros k acc m Hk Hp Hbefore.
  { done. }
  destruct k as [|k]; simpl in Hk.
  { injection Hk as ->. simpl. by rewrite Hp. }
  assert (∀ acc' m', OptimalReplacement.scan future fr acc' m' = Some p) as Hrest.
  { intros acc' m'. apply (IH k); [done..|].
    intros j q ? Hj. apply (Hbefore (S j) q); [lia|done]. }
  destruct x as [q|]; simpl; [|apply Hrest].
  destruct (index q future) as [d|] eqn:Hq.
  - case_decide; apply Hrest.
  - exfalso. by apply (Hbefore 0%nat q); [lia| |].
Qed.

(** When every resident page recurs, the scan either keeps what it held
    or returns the first page at the largest distance. *)
Lemma scan_farthest future fr acc m :
  (∀ i q, fr !! i = Some (Some q) → is_Some (index q future)) →
  (OptimalReplacement.scan future fr acc m = acc ∧
   ∀ i q d, fr !! i = Some (Some q) → index q future = Some d → d ≤ m)
  ∨ (∃ v d i,
       OptimalReplacement.scan future fr acc m = Some v ∧
       fr !! i = Some (Some v) ∧ index v future = Some d ∧ m < d ∧
       (∀ j q dq, fr !! j = Some (Some q) → index q future = Some dq → dq ≤ d) ∧
       (∀ j q dq, (j < i)%nat → fr !! j = Some (Some q) →
                  index q future = Some dq → dq < d)).
Proof.
  revert acc m. induction fr as [|x fr IH]; intros acc m Hall.
  { left. split; [done|]. intros i q d Hi. done. }
  assert (∀ i q, fr !! i = Some (Some q) → is_Some (index q future)) as Hall'.
  { intros i q Hi. apply (Hall (S i)). done. }
  destruct x as [p|]; simpl.
  - destruct (Hall 0%nat p eq_refl) as [d0 Hd0]. rewrite Hd0.
    case_decide as Hcmp.
    + destruct (IH (Some p) d0 Hall') as [[-> Hle]|(v & d & i & -> & Hi & Hv & Hlt & Hmax & Hpre)].
      * right. exists p, d0, 0%nat. split_and!; [done..|lia| |].
        -- intros [|j] q dq Hj Hq; simpl in Hj.
           ++ injection Hj as <-. rewrite Hd0 in Hq. injection Hq as <-. lia.
           ++ by apply (Hle j q).
        -- intros j q dq ?. lia.
      * right. exists v, d, (S i). split_and!; [done..|lia| |].
        -- intros [|j] q dq Hj Hq; simpl in Hj.
           ++ injection Hj as <-. rewrite Hd0 in Hq. injection Hq as <-. lia.
           ++ by apply (Hmax j q).
        -- intros [|j] q dq ? Hj Hq; simpl in Hj.
           ++ injection Hj as <-. rewrite Hd0 in Hq. injection Hq as <-. lia.
           ++ apply (Hpre j q); [lia|done..].
    + destruct (IH acc m Hall') as [[-> Hle]|(v & d & i & -> & Hi & Hv & Hlt & Hmax & Hpre)].
      * left. split; [done|].
        intros [|j] q dq Hj Hq; simpl in Hj.
        -- injection Hj as <-. rewrite Hd0 in Hq. injection Hq as <-. lia.
        -- by apply (Hle j q).
      * right. exists v, d, (S i). split_and!; [done..| |].
        -- intros [|j] q dq Hj Hq; simpl in Hj.
           ++ injection Hj as <-. rewrite Hd0 in Hq. injection Hq as <-. lia.
           ++ by apply (Hmax j q).
        -- intros [|j] q dq ? Hj Hq; simpl in Hj.
           ++ injection Hj as <-. rewrite Hd0 in Hq. injection Hq as <-. lia.
           ++ apply (Hpre j q); [lia|done..].
  - destruct (IH acc m Hall') as [[-> Hle]|(v & d & i & -> & Hi & Hv & Hlt & Hmax & Hpre)].
    + left. split; [done|]. intros [|j] q dq Hj Hq; simpl in Hj; [done|].
      by apply (Hle j q).
    + right. exists v, d, (S i). split_and!; [done..| |].
      * intros [|j] q dq Hj Hq; simpl in Hj; [done|]. by apply (Hmax j q).
      * intros [|j] q dq ? Hj Hq; simpl in Hj; [done|].
        apply (Hpre j q); [lia|done..].
Qed.

End ReplacementFacts.

Section OptimalEviction.
Import PageReplacementAlgorithm OptimalReplacement.

(** C1.  Optimal replacement, on a fault with no free slot.
    (a) The first resident page, in slot order, that does not occur in
    [future_references] is evicted, whatever pages follow it in the slots.
    (b) If every resident page occurs in [future_references], the evicted
    page is one whose next occurrence is farthest, and every page scanned
    before it has a strictly nearer next occurrence.
    (c) If [future_references] is empty (or omitted), the page of slot 0
    is evicted.
    (d) With pages 1 and 2 resident in two slots and
    [future_references = [1, 2, 3]], a fault for page 3 evicts page 2. *)
Theorem optimal_eviction_rule (s : OptimalReplacement.t) (page_id : Z)
    (future_references : option (list Z)) :
  let fr := frames (base s) in
  let future := default [] future_references in
  is_page_loaded page_id (base s) = false →
  get_free_frame_index (base s) = None →
  (∀ k p,
     fr !! k = Some (Some p) → index p future = None →
     (∀ j q, (j < k)%nat → fr !! j = Some (Some q) → index q future ≠ None) →
     access_page page_id future_references s = optimal_evicts page_id p k s)
  ∧ (fr ≠ [] →
     (∀ i q, fr !! i = Some (Some q) → is_Some (index q future)) →
     ∃ v d i,
       access_page page_id future_references s = optimal_evicts page_id v i s ∧
       fr !! i = Some (Some v) ∧ index v future = Some d ∧
       (∀ j q dq, fr !! j = Some (Some q) → index q future = Some dq → dq ≤ d) ∧
       (∀ j q dq, (j < i)%nat → fr !! j = Some (Some q) →
                  index q future = Some dq → dq < d))
  ∧ (∀ p, future = [] → fr !! 0%nat = Some (Some p) →
          access_page page_id future_references s = optimal_evicts page_id p 0 s)
  ∧ (∀ faults hits,
       access_page 3 (Some [1; 2; 3]) (two_slots faults hits)
       = optimal_evicts 3 2 1 (two_slots faults hits)).
Proof.
  intros fr future Hload Hfree.
  assert (∀ k p,
     fr !! k = Some (Some p) → index p future = None →
     (∀ j q, (j < k)%nat → fr !! j = Some (Some q) → index q future ≠ None) →
     access_page page_id future_references s = optimal_evicts page_id p k s) as Ha.
  { intros k p Hk Hp Hbefore.
    unfold access_page, optimal_evicts. rewrite Hload.
    unfold get_free_frame_index in *. simpl. rewrite Hfree.
    fold future. fold fr.
    rewrite (scan_never_again future fr k p None (-1) Hk Hp Hbefore).
    assert (slot_of p fr = Some k) as ->; [|done].
    apply slot_of_Some. split; [done|].
    intros j Hj Hq. by apply (Hbefore j p). }
  split_and!.
  - exact Ha.
  - intros Hne Hall.
    unfold access_page, optimal_evicts. rewrite Hload.
    unfold get_free_frame_index in *. simpl. rewrite Hfree.
    fold future. fold fr.
    destruct (scan_farthest future fr None (-1) Hall)
      as [[_ Hle]|(v & d & i & -> & Hi & Hv & _ & Hmax & Hpre)].
    + exfalso. destruct fr as [|[q|] fr'] eqn:Hfr; [done| |].
      * destruct (Hall 0%nat q eq_refl) as [d Hd].
        pose proof (index_nonneg _ _ _ Hd).
        specialize (Hle 0%nat q d eq_refl Hd). lia.
      * apply (proj1 (first_free_None _) Hfree 0%nat).
        fold fr. by rewrite Hfr.
    + exists v, d, i.
      assert (slot_of v fr = Some i) as ->.
      { apply slot_of_Some. split; [done|]. intros j Hj Hq.
        specialize (Hpre j v d Hj Hq Hv). lia. }
      done.
  - intros p Hfut Hp. apply Ha; [done| |intros j q ?; lia].
    rewrite Hfut. done.
  - intros faults hits. reflexivity.
Qed.

Lemma optimal_eviction_rule_witness :
  let s := OptimalReplacement.mk (PageReplacementAlgorithm.mk 3 [Some 7; Some 8; Some 9] 3 0) in
  is_page_loaded 5 (base s) = false ∧
  get_free_frame_index (base s) = None ∧
  access_page 5 (Some [8; 7; 8]) s = optimal_evicts 5 9 2 s.
Proof.
  intros s. split; [reflexivity|]. split; [reflexivity|].
  apply (optimal_eviction_rule s 5 (Some [8; 7; 8]) eq_refl eq_refl);
    [reflexivity|reflexivity|].
  intros [|[|j]] q Hj Hq; simpl in Hq; [by injection Hq as <-..|lia].
Defined.

End OptimalEviction.

(** C2.  Three frames, accesses 1,2,3,1,2,4,5,1: FIFO and LRU both count 6
    faults and 2 hits; the fault for page 4 (the sixth access) replaces page
    1 under FIFO and page 3 under LRU; the slots end as [4,5,1] under FIFO
    and as [5,1,4] under LRU. *)
Theorem fifo_lru_divergence :
  let accesses := [1; 2; 3; 1; 2; 4; 5; 1] in
  let fifo := fifo_run accesses (FIFOReplacement.init 3) in
  let lru := lru_run accesses (LRUReplacement.init 3) in
  PageReplacementAlgorithm.page_faults (FIFOReplacement.base fifo.2) = 6 ∧
  PageReplacementAlgorithm.page_hits (FIFOReplacement.base fifo.2) = 2 ∧
  PageReplacementAlgorithm.page_faults (LRUReplacement.base lru.2) = 6 ∧
  PageReplacementAlgorithm.page_hits (LRUReplacement.base lru.2) = 2 ∧
  fifo.1 !! 5%nat = Some (mkAccessResult 4 true (Some 1) (Some 0%nat) "FIFO") ∧
  lru.1 !! 5%nat = Some (mkAccessResult 4 true (Some 3) (Some 2%nat) "LRU") ∧
  PageReplacementAlgorithm.frames (FIFOReplacement.base fifo.2)
    = [Some 4; Some 5; Some 1] ∧
  PageReplacementAlgorithm.frames (LRUReplacement.base lru.2)
    = [Some 5; Some 1; Some 4].
Proof. vm_compute. done. Qed.

(** * Properties of the virtual memory manager *)

Section VirtualMemoryFacts.
Import VirtualMemoryManager.

Lemma replacement_frames_set_frames fr r :
  Replacement.frames (Replacement.set_frames fr r) = fr.
Proof. by destruct r. Qed.

Lemma order_structure_set_frames fr r :
  order_structure (Replacement.set_frames fr r) = order_structure r.
Proof. by destruct r. Qed.

Lemma clear_page_not_loaded p (fr : list (option Z)) :
  Some p ∉ fr → clear_page p fr = fr.
Proof.
  intros Hp. unfold clear_page. induction fr as [|x fr IH]; [done|].
  rewrite not_elem_of_cons in Hp. destruct Hp as [Hx Hfr].
  rewrite fmap_cons, (IH Hfr). case_decide; [congruence|done].
Qed.

Lemma free_page_frames m p :
  Replacement.frames (replacement (free_page m p))
  = clear_page p (Replacement.frames (replacement m)).
Proof.
  unfold free_page. simpl.
  destruct (Replacement.is_page_loaded p (replacement m)) eqn:Hl; simpl.
  - apply replacement_frames_set_frames.
  - symmetry. apply clear_page_not_loaded.
    unfold Replacement.is_page_loaded, PageReplacementAlgorithm.is_page_loaded in Hl.
    by apply bool_decide_eq_false in Hl.
Qed.

Lemma free_page_store m p :
  BackingStore.pages (backing_store (free_page m p))
  = delete p (BackingStore.pages (backing_store m)).
Proof.
  unfold free_page, BackingStore.remove_page.
  case_bool_decide as Hin.
  - simpl. by destruct (Replacement.is_page_loaded _ _).
  - assert (BackingStore.pages (backing_store m) !! p = None) as Hnone.
    { by apply eq_None_not_Some. }
    rewrite (delete_id _ _ Hnone). simpl.
    by destruct (Replacement.is_page_loaded _ _).
Qed.

Lemma free_page_rest m p :
  process_pages (free_page m p) = process_pages m ∧
  swap_ins (free_page m p) = swap_ins m ∧
  swap_outs (free_page m p) = swap_outs m ∧
  order_structure (replacement (free_page m p)) = order_structure (replacement m).
Proof.
  unfold free_page. simpl.
  destruct (Replacement.is_page_loaded _ _); simpl; [|done].
  by rewrite order_structure_set_frames.
Qed.

Lemma free_pages_store l m p :
  BackingStore.pages (backing_store (foldl free_page m l)) !! p
  = if bool_decide (p ∈ l) then None
    else BackingStore.pages (backing_store m) !! p.
Proof.
  revert m. induction l as [|a l IH]; intros m.
  { case_bool_decide as H; [by apply elem_of_nil in H|done]. }
  cbn [foldl]. rewrite IH, free_page_store.
  case_bool_decide as Hl; case_bool_decide as Hal; try done.
  - exfalso. apply Hal. by apply list_elem_of_further.
  - apply elem_of_cons in Hal as [->|?]; [|done]. apply lookup_delete_eq.
  - apply lookup_delete_ne. intros ->. apply Hal, list_elem_of_here.
Qed.

Lemma free_pages_frames l m i :
  Replacement.frames (replacement (foldl free_page m l)) !! i
  = (λ x, match x with
          | Some p => if bool_decide (p ∈ l) then None else Some p
          | None => None
          end) <$> Replacement.frames (replacement m) !! i.
Proof.
  revert m. induction l as [|a l IH]; intros m.
  { cbn [foldl].
    by destruct (Replacement.frames (replacement m) !! i) as [[q|]|]. }
  cbn [foldl]. rewrite IH, free_page_frames. unfold clear_page.
  rewrite list_lookup_fmap.
  destruct (Replacement.frames (replacement m) !! i) as [[q|]|]; cbn; try done.
  case_decide as Hq.
  - injection Hq as ->. case_bool_decide as Hal; [done|].
    exfalso. apply Hal, list_elem_of_here.
  - case_bool_decide as Hl; case_bool_decide as Hal; try done; exfalso.
    + apply Hal. by apply list_elem_of_further.
    + apply elem_of_cons in Hal as [->|?]; congruence.
Qed.

Lemma free_pages_length l m :
  length (Replacement.frames (replacement (foldl free_page m l)))
  = length (Replacement.frames (replacement m)).
Proof.
  revert m. induction l as [|a l IH]; intros m; [done|].
  cbn [foldl]. rewrite IH, free_page_frames. unfold clear_page.
  apply length_fmap.
Qed.

Lemma free_pages_rest l m :
  process_pages (foldl free_page m l) = process_pages m ∧
  swap_ins (foldl free_page m l) = swap_ins m ∧
  swap_outs (foldl free_page m l) = swap_outs m ∧
  order_structure (replacement (foldl free_page m l))
  = order_structure (replacement m).
Proof.
  revert m. induction l as [|a l IH]; intros m; simpl; [done|].
  destruct (IH (free_page m a)) as (-> & -> & -> & ->). apply free_page_rest.
Qed.

End VirtualMemoryFacts.

Section RemoveProcess.
Import VirtualMemoryManager.

Lemma shared_page_manager_reachable : vm_reachable shared_page_manager.
Proof. unfold shared_page_manager. do 2 apply vm_after. apply vm_fresh. Qed.

(** C3, as stated, fails: page ids are one namespace for the whole
    manager.  With process 1 loaded with pages [0,1] and process 2 with
    pages [1,2], removing process 1 deletes the blob of page 1, which is
    registered to process 2 as well. *)
Lemma remove_process_drops_shared_pages :
  ¬ remove_process_spares_other_processes.
Proof.
  intros Hclaim.
  destruct (Hclaim shared_page_manager 1 2 [0; 1] [1; 2]
              shared_page_manager_reachable ltac:(done) eq_refl eq_refl 1)
    as [Hblob _].
  { apply list_elem_of_here. }
  specialize (Hblob eq_refl). vm_compute in Hblob. discriminate.
Qed.

(** C3, amended.  [remove_process(A)] releases exactly the page ids listed
    for [A]: each of them loses its blob and leaves every slot; every
    other page id keeps its blob and its slot, free slots stay free, and
    the registrations of the other processes stay.  So a page registered
    to another process [B] keeps its blob and its slot provided [A] does
    not list it too. *)
Theorem remove_process_releases_listed_pages
    (m : VirtualMemoryManager.t) (A : Z) (pagesA : list Z) :
  process_pages m !! A = Some pagesA →
  let m' := (remove_process A m).2 in
  (remove_process A m).1 = true ∧
  process_pages m' = delete A (process_pages m) ∧
  (∀ p, p ∈ pagesA →
        BackingStore.pages (backing_store m') !! p = None ∧
        Some p ∉ Replacement.frames (replacement m')) ∧
  (∀ p, p ∉ pagesA →
        BackingStore.pages (backing_store m') !! p
        = BackingStore.pages (backing_store m) !! p ∧
        ∀ i : nat,
          Replacement.frames (replacement m) !! i = Some (Some p) →
          Replacement.frames (replacement m') !! i = Some (Some p)) ∧
  (∀ i : nat,
     Replacement.frames (replacement m) !! i = Some None →
     Replacement.frames (replacement m') !! i = Some None) ∧
  length (Replacement.frames (replacement m'))
  = length (Replacement.frames (replacement m)) ∧
  (∀ B pagesB,
     A ≠ B → process_pages m !! B = Some pagesB →
     process_pages m' !! B = Some pagesB ∧
     ∀ p, p ∈ pagesB → p ∉ pagesA →
       BackingStore.pages (backing_store m') !! p
       = BackingStore.pages (backing_store m) !! p ∧
       ∀ i : nat,
         Replacement.frames (replacement m) !! i = Some (Some p) →
         Replacement.frames (replacement m') !! i = Some (Some p)).
Proof.
  intros HA. cbv zeta. unfold remove_process. rewrite HA. cbn [fst snd].
  assert (∀ p, p ∉ pagesA →
        BackingStore.pages (backing_store (foldl free_page m pagesA)) !! p
        = BackingStore.pages (backing_store m) !! p ∧
        ∀ i : nat,
          Replacement.frames (replacement m) !! i = Some (Some p) →
          Replacement.frames (replacement (foldl free_page m pagesA)) !! i
          = Some (Some p)) as Hkeep.
  { intros p Hp. split.
    - rewrite free_pages_store. by rewrite bool_decide_eq_false_2.
    - intros i Hi. rewrite free_pages_frames, Hi. simpl.
      by rewrite bool_decide_eq_false_2. }
  destruct (free_pages_rest pagesA m) as (Hpp & _).
  simpl. split_and!.
  - done.
  - by rewrite Hpp.
  - intros p Hp. split.
    + rewrite free_pages_store. by rewrite bool_decide_eq_true_2.
    + intros [i Hi]%list_elem_of_lookup_1.
      rewrite free_pages_frames in Hi.
      destruct (Replacement.frames (replacement m) !! i) as [[q|]|];
        simpl in Hi; [|done..].
      case_bool_decide; [done|]. congruence.
  - exact Hkeep.
  - intros i Hi. by rewrite free_pages_frames, Hi.
  - apply free_pages_length.
  - intros B pagesB HAB HB. split.
    + rewrite Hpp. by rewrite lookup_delete_ne.
    + intros p _ Hp. by apply Hkeep.
Qed.

Lemma remove_process_releases_listed_pages_witness :
  process_pages shared_page_manager !! 1 = Some [0; 1] ∧
  BackingStore.pages
    (backing_store (remove_process 1 shared_page_manager).2) !! 2
  = BackingStore.pages (backing_store shared_page_manager) !! 2.
Proof.
  split; [reflexivity|].
  apply (remove_process_releases_listed_pages shared_page_manager 1 [0; 1] eq_refl).
  rewrite !elem_of_cons, elem_of_nil. lia.
Defined.

End RemoveProcess.

Section AccessPage.
Import VirtualMemoryManager.

(** C8.  [access_page] for a process id that is not registered, or for a
    page id that is not in the list registered for the process, returns
    the error dictionary with [success = False] and [page_fault = False],
    and the manager (engine, backing store, swap counters and all) is as
    it was. *)
Theorem access_page_rejects_unknown
    (m : VirtualMemoryManager.t) (process_id page_id : Z) (write : bool)
    (future_references : option (list Z)) :
  (process_pages m !! process_id = None ∨
   ∃ pages, process_pages m !! process_id = Some pages ∧ page_id ∉ pages) →
  ∃ r,
    access_page process_id page_id write future_references m = Ret r m ∧
    success r = false ∧ vm_page_fault r = false ∧
    r = VMError
          (match process_pages m !! process_id with
           | None => "Process " +:+ pretty process_id +:+ " not found"
           | Some _ => "Page " +:+ pretty page_id +:+ " not in process "
                         +:+ pretty process_id
           end) false.
Proof.
  intros [Hnone|(pages & Hsome & Hnotin)]; unfold access_page.
  - rewrite Hnone. eexists. split_and!; done.
  - rewrite Hsome. rewrite bool_decide_eq_false_2 by done. simpl.
    eexists. split_and!; done.
Qed.

Lemma access_page_rejects_unknown_witness :
  ∃ r,
    access_page 2 7 false None shared_page_manager = Ret r shared_page_manager ∧
    success r = false ∧ vm_page_fault r = false ∧
    r = VMError "Page 7 not in process 2" false.
Proof.
  apply (access_page_rejects_unknown shared_page_manager 2 7 false None).
  right. exists [1; 2]. split; [reflexivity|].
  rewrite !elem_of_cons, elem_of_nil. lia.
Defined.

(** C9.  Under FIFO and LRU, [access_page] always returns a result
    dictionary.  In particular, when the slots are full and the page at
    the head of the order structure occupies no slot (its process was
    removed), the eviction scan finds no slot for it: the call returns a
    result with [page_fault = True], no [replaced_page] and no
    [frame_index], the stale entry is dropped from the order structure,
    and the slots and the backing store are as they were. *)
Theorem stale_order_entry_not_found
    (m : VirtualMemoryManager.t) (process_id page_id : Z) (write : bool)
    (future_references : option (list Z)) :
  is_Some (order_structure (replacement m)) →
  (∃ r m', access_page process_id page_id write future_references m = Ret r m')
  ∧ ∀ pages stale rest,
      process_pages m !! process_id = Some pages → page_id ∈ pages →
      Replacement.is_page_loaded page_id (replacement m) = false →
      BackingStore.has_page page_id (backing_store m) = true →
      (∀ i : nat, Replacement.frames (replacement m) !! i ≠ Some None) →
      order_structure (replacement m) = Some (stale :: rest) →
      Some stale ∉ Replacement.frames (replacement m) →
      ∃ m',
        access_page process_id page_id write future_references m
        = Ret (VMAccess
                 (mkAccessResult page_id true None None
                    (algorithm_name (replacement m))) true false) m' ∧
        Replacement.frames (replacement m') = Replacement.frames (replacement m) ∧
        order_structure (replacement m') = Some rest ∧
        backing_store m' = backing_store m ∧
        swap_ins m' = swap_ins m + 1 ∧ swap_outs m' = swap_outs m.
Proof.
  intros Horder. split.
  - unfold access_page.
    destruct (process_pages m !! process_id) as [pages|]; [|by eauto].
    destruct (negb _); [by eauto|].
    assert (∃ res r,
              Replacement.access_page page_id future_references (replacement m)
              = Ret res r) as (res & r & Hacc).
    { destruct (replacement m) as [s|s|s]; simpl in *.
      - destruct (FIFOReplacement.access_page _ _ _). eauto.
      - destruct (LRUReplacement.access_page _ _ _). eauto.
      - by destruct Horder. }
    rewrite Hacc.
    destruct (Replacement.is_page_loaded _ _); [by eauto|].
    destruct (negb _); [by eauto|].
    destruct (replaced_page res); eauto.
  - intros pages stale rest Hpid Hpage Hload Hblob Hfull Hhead Hstale.
    unfold access_page. rewrite Hpid.
    rewrite bool_decide_eq_true_2 by done. simpl.
    rewrite Hload, Hblob. simpl.
    assert (slot_of stale (Replacement.frames (replacement m)) = None) as Hslot.
    { destruct (slot_of _ _) as [i|] eqn:Hi; [|done].
      apply slot_of_Some in Hi as [Hi _].
      exfalso. apply Hstale. by eapply list_elem_of_lookup_2. }
    apply first_free_None in Hfull.
    unfold Replacement.is_page_loaded in Hload.
    destruct (replacement m) as [s|s|s] eqn:Hr; simpl in *.
    + injection Hhead as Hq. unfold Replacement.frames in *. simpl in *.
      unfold FIFOReplacement.access_page.
      rewrite Hload. unfold PageReplacementAlgorithm.get_free_frame_index.
      simpl. rewrite Hfull, Hq, Hslot. simpl.
      eexists. split; [done|]. done.
    + injection Hhead as Hq. unfold Replacement.frames in *. simpl in *.
      unfold LRUReplacement.access_page.
      rewrite Hload. unfold PageReplacementAlgorithm.get_free_frame_index.
      simpl. rewrite Hfull, Hq, Hslot. simpl.
      eexists. split; [done|]. done.
    + done.
Qed.

Lemma stale_order_manager_reachable algorithm :
  vm_reachable (stale_order_manager algorithm).
Proof.
  unfold stale_order_manager. cbn [foldl].
  repeat apply vm_after. apply vm_fresh.
Qed.

Lemma stale_order_entry_not_found_witness :
  let m := stale_order_manager LRU in
  order_structure (replacement m) = Some [1; 2; 3; 4] ∧
  Replacement.frames (replacement m) = [Some 3; Some 4] ∧
  ∃ m',
    access_page 2 5 false None m
    = Ret (VMAccess (mkAccessResult 5 true None None "LRU") true false) m' ∧
    Replacement.frames (replacement m') = [Some 3; Some 4] ∧
    order_structure (replacement m') = Some [2; 3; 4] ∧
    backing_store m' = backing_store m ∧
    swap_ins m' = swap_ins m + 1 ∧ swap_outs m' = swap_outs m.
Proof.
  intros m. split; [reflexivity|]. split; [reflexivity|].
  assert (is_Some (order_structure (replacement m))) as Hsome.
  { exists [1; 2; 3; 4]. reflexivity. }
  destruct (stale_order_entry_not_found m 2 5 false None Hsome) as [_ Hstale].
  apply (Hstale [3; 4; 5] 1 [2; 3; 4]).
  - reflexivity.
  - rewrite !elem_of_cons. lia.
  - reflexivity.
  - reflexivity.
  - intros [|[|i]]; vm_compute; discriminate.
  - reflexivity.
  - change (Replacement.frames (replacement m)) with [Some 3; Some 4].
    rewrite !elem_of_cons, elem_of_nil. intros [H|[H|[]]]; discriminate.
Defined.

End AccessPage.

(** * Properties of the frame allocator *)

Section BestFit.
Import MemoryAllocator.

Lemma best_fit_scan_spec (fr : list Frame.t) size i0 bf bw :
  (best_fit_scan fr size i0 bf bw = bf ∧
   ∀ j g, fr !! j = Some g → Frame.fits size g = true →
          ¬ improves bw (waste size g))
  ∨ (∃ k f,
       best_fit_scan fr size i0 bf bw = Some (i0 + k)%nat ∧
       fr !! k = Some f ∧ Frame.fits size f = true ∧
       improves bw (waste size f) ∧
       (∀ j g, fr !! j = Some g → Frame.fits size g = true →
               waste size f ≤ waste size g) ∧
       (∀ j g, (j < k)%nat → fr !! j = Some g → Frame.fits size g = true →
               waste size f < waste size g)).
Proof.
  revert i0 bf bw. induction fr as [|x fr IH]; intros i0 bf bw.
  { left. split; [done|]. intros j g Hj. done. }
  cbn [best_fit_scan]. destruct (Frame.fits size x) eqn:Hx.
  - fold (waste size x).
    destruct (match bw with
              | Some w => bool_decide (waste size x < w)
              | None => true
              end) eqn:Hcmp.
    + assert (improves bw (waste size x)) as Himp.
      { destruct bw as [w|]; simpl; [|done]. by apply bool_decide_eq_true in Hcmp. }
      destruct (IH (S i0) (Some i0) (Some (waste size x)))
        as [[-> Hno]|(k & f & -> & Hk & Hf & Hbetter & Hmin & Hpre)].
      * right. exists 0%nat, x. split_and!; [f_equal; lia|done..| |].
        -- intros [|j] g Hj Hg; simpl in Hj.
           ++ injection Hj as <-. lia.
           ++ specialize (Hno j g Hj Hg). simpl in Hno. lia.
        -- intros j g ?. lia.
      * simpl in Hbetter. right. exists (S k), f.
        split_and!; [f_equal; lia|done..| | |].
        -- destruct bw as [w|]; simpl in *; [lia|done].
        -- intros [|j] g Hj Hg; simpl in Hj.
           ++ injection Hj as <-. lia.
           ++ by apply (Hmin j g).
        -- intros [|j] g ? Hj Hg; simpl in Hj.
           ++ injection Hj as <-. lia.
           ++ apply (Hpre j g); [lia|done..].
    + assert (¬ improves bw (waste size x)) as Himp.
      { destruct bw as [w|]; simpl; [|done]. by apply bool_decide_eq_false in Hcmp. }
      destruct (IH (S i0) bf bw)
        as [[-> Hno]|(k & f & -> & Hk & Hf & Hbetter & Hmin & Hpre)].
      * left. split; [done|]. intros [|j] g Hj Hg; simpl in Hj.
        -- by injection Hj as <-.
        -- by apply (Hno j g).
      * right. exists (S k), f.
        assert (waste size f < waste size x) as Hlt.
        { destruct bw as [w|]; simpl in *; [lia|done]. }
        split_and!; [f_equal; lia|done..| |].
        -- intros [|j] g Hj Hg; simpl in Hj.
           ++ injection Hj as <-. lia.
           ++ by apply (Hmin j g).
        -- intros [|j] g ? Hj Hg; simpl in Hj.
           ++ injection Hj as <-. lia.
           ++ apply (Hpre j g); [lia|done..].
  - destruct (IH (S i0) bf bw)
      as [[-> Hno]|(k & f & -> & Hk & Hf & Hbetter & Hmin & Hpre)].
    + left. split; [done|]. intros [|j] g Hj Hg; simpl in Hj.
      * injection Hj as <-. congruence.
      * by apply (Hno j g).
    + right. exists (S k), f. split_and!; [f_equal; lia|done..| |].
      * intros [|j] g Hj Hg; simpl in Hj.
        -- injection Hj as <-. congruence.
        -- by apply (Hmin j g).
      * intros [|j] g ? Hj Hg; simpl in Hj.
        -- injection Hj as <-. congruence.
        -- apply (Hpre j g); [lia|done..].
Qed.

Lemma best_fit_spec
    (frames : list Frame.t) (process_id page_id size : Z) :
  ((∀ (j : nat) g, frames !! j = Some g → Frame.fits size g = false) ∧
   _best_fit frames process_id page_id size = (None, frames))
  ∨ (∃ (i : nat) f,
       frames !! i = Some f ∧ Frame.fits size f = true ∧
       _best_fit frames process_id page_id size
       = (Some (Frame.frame_id f),
          <[i := (Frame.allocate process_id page_id size f).2]> frames)).
Proof.
  unfold _best_fit.
  destruct (best_fit_scan_spec frames size 0 None None)
    as [[-> Hno]|(k & f & -> & Hk & Hf & _ & Hmin & Hpre)].
  - left. split; [|done]. intros j g Hj.
    destruct (Frame.fits size g) eqn:Hg; [|done].
    exfalso. by apply (Hno j g).
  - right. exists k, f. simpl. rewrite Hk.
    unfold Frame.allocate. rewrite Hf. simpl. done.
Qed.

(** C4.  [_best_fit] returns no frame exactly when no frame is free and
    large enough; otherwise it allocates a free, large enough frame whose
    waste [frame.size - size] is minimal among all such frames and
    strictly smaller than the waste of every such frame scanned before it
    (the earliest frame wins ties).  With three free frames of sizes
    [4, 2, 2] and a request of size 2, the frame at position 1 is
    allocated. *)
Theorem best_fit_selects_earliest_minimal_waste
    (frames : list Frame.t) (process_id page_id size : Z) :
  (((∀ j g, frames !! j = Some g → Frame.fits size g = false) ∧
    _best_fit frames process_id page_id size = (None, frames))
   ∨ (∃ i f,
        frames !! i = Some f ∧ Frame.fits size f = true ∧
        (∀ j g, frames !! j = Some g → Frame.fits size g = true →
                waste size f ≤ waste size g) ∧
        (∀ j g, (j < i)%nat → frames !! j = Some g →
                Frame.fits size g = true → waste size f < waste size g) ∧
        _best_fit frames process_id page_id size
        = (Some (Frame.frame_id f),
           <[i := (Frame.allocate process_id page_id size f).2]> frames)))
  ∧ _best_fit frames_4_2_2 process_id page_id 2
    = (Some 1,
       [Frame.init 0 4;
        Frame.mk 1 2 ALLOCATED (Some process_id) (Some page_id) 2;
        Frame.init 2 2]).
Proof.
  split; [|reflexivity].
  unfold _best_fit.
  destruct (best_fit_scan_spec frames size 0 None None)
    as [[-> Hno]|(k & f & -> & Hk & Hf & _ & Hmin & Hpre)].
  - left. split; [|done]. intros j g Hj.
    destruct (Frame.fits size g) eqn:Hg; [|done].
    exfalso. by apply (Hno j g).
  - right. exists k, f. simpl. rewrite Hk.
    unfold Frame.allocate. rewrite Hf. simpl. done.
Qed.

End BestFit.

Section Allocate.
Import MemoryAllocator.

Implicit Types (frames : list Frame.t) (f g : Frame.t).

Lemma frame_allocate_fits pid page size f :
  Frame.fits size f = true →
  Frame.allocate pid page size f
  = (true, Frame.mk (Frame.frame_id f) (Frame.size f) ALLOCATED (Some pid)
                    (Some page) (Z.min size (Frame.size f))).
Proof. intros Hf. unfold Frame.allocate. by rewrite Hf. Qed.

Lemma frame_allocate_no_fit pid page size f :
  Frame.fits size f = false → Frame.allocate pid page size f = (false, f).
Proof. intros Hf. unfold Frame.allocate. by rewrite Hf. Qed.

Lemma frame_fits_free size f : Frame.fits size f = true → Frame.status f = FREE.
Proof.
  unfold Frame.fits. intros [H _]%andb_prop. by apply bool_decide_eq_true in H.
Qed.

Lemma first_fit_spec frames pid page size :
  ((∀ (j : nat) g, frames !! j = Some g → Frame.fits size g = false) ∧
   _first_fit frames pid page size = (None, frames))
  ∨ (∃ (i : nat) f,
       frames !! i = Some f ∧ Frame.fits size f = true ∧
       (∀ (j : nat) g, (j < i)%nat → frames !! j = Some g →
                       Frame.fits size g = false) ∧
       _first_fit frames pid page size
       = (Some (Frame.frame_id f),
          <[i := (Frame.allocate pid page size f).2]> frames)).
Proof.
  induction frames as [|x frames IH].
  { left. split; [|done]. intros j g Hj. done. }
  cbn [_first_fit]. destruct (Frame.fits size x) eqn:Hx.
  - right. exists 0%nat, x. rewrite (frame_allocate_fits _ _ _ _ Hx).
    split_and!; [done..| |done]. intros j g ?. lia.
  - destruct IH as [[Hno ->]|(i & f & Hi & Hf & Hpre & ->)].
    + left. split; [|done]. intros [|j] g Hj; simpl in Hj.
      * by injection Hj as <-.
      * by apply (Hno j).
    + right. exists (S i), f. split_and!; [done..| |done].
      intros [|j] g ? Hj; simpl in Hj.
      * by injection Hj as <-.
      * apply (Hpre j); [lia|done].
Qed.

Lemma next_fit_loop_spec (idxs : list nat) pid page size a frames :
  (∀ i, i ∈ idxs → (i < length frames)%nat) →
  ((∀ (i : nat) g, i ∈ idxs → frames !! i = Some g → Frame.fits size g = false) ∧
   next_fit_loop idxs pid page size a frames = Ret None (a, frames))
  ∨ (∃ (i : nat) f,
       i ∈ idxs ∧ frames !! i = Some f ∧ Frame.fits size f = true ∧
       next_fit_loop idxs pid page size a frames
       = Ret (Some (Frame.frame_id f))
             (mk (strategy a) ((i + 1) `mod` length frames)%nat,
              <[i := (Frame.allocate pid page size f).2]> frames)).
Proof.
  induction idxs as [|i idxs IH]; intros Hin.
  { left. split; [|done]. intros i g Hi. by apply elem_of_nil in Hi. }
  cbn [next_fit_loop].
  destruct (lookup_lt_is_Some_2 frames i) as [f Hf].
  { apply Hin, list_elem_of_here. }
  rewrite Hf. destruct (Frame.fits size f) eqn:Hfit.
  - right. exists i, f. rewrite (frame_allocate_fits _ _ _ _ Hfit).
    split_and!; [apply list_elem_of_here|done..].
  - destruct IH as [[Hno ->]|(k & g & Hk & Hg & Hgfit & ->)].
    { intros k Hk. by apply Hin, list_elem_of_further. }
    + left. split; [|done]. intros k g [->|Hk]%elem_of_cons Hg.
      * congruence.
      * by apply (Hno k).
    + right. exists k, g. split_and!; [by apply list_elem_of_further|done..].
Qed.

(** What [allocate] does to a frame list in which the next-fit cursor is
    in range: nothing when no frame fits, and otherwise it allocates one
    free frame that fits and returns its id. *)
Lemma allocate_spec pid page size a frames :
  (_next_fit_start a ≤ length frames)%nat →
  ((∀ (j : nat) g, frames !! j = Some g → Frame.fits size g = false) ∧
   allocate pid page size a frames = Ret None (a, frames))
  ∨ (∃ (i : nat) f a',
       frames !! i = Some f ∧ Frame.fits size f = true ∧
       (_next_fit_start a' ≤ length frames)%nat ∧
       allocate pid page size a frames
       = Ret (Some (Frame.frame_id f))
             (a', <[i := (Frame.allocate pid page size f).2]> frames)).
Proof.
  intros Hcur. unfold allocate. destruct (strategy a) eqn:Hs.
  - destruct (first_fit_spec frames pid page size)
      as [[Hno ->]|(i & f & Hi & Hf & _ & ->)].
    + by left.
    + right. by exists i, f, a.
  - destruct (best_fit_spec frames pid page size)
      as [[Hno ->]|(i & f & Hi & Hf & ->)].
    + by left.
    + right. by exists i, f, a.
  - unfold _next_fit.
    destruct (next_fit_loop_spec
                (seq (_next_fit_start a) (length frames - _next_fit_start a))
                pid page size a frames)
      as [[Hno1 ->]|(i & f & Hin & Hi & Hf & ->)].
    { intros i [_ ?]%elem_of_seq. lia. }
    + destruct (next_fit_loop_spec (seq 0 (_next_fit_start a))
                  pid page size a frames)
        as [[Hno2 ->]|(i & f & Hin & Hi & Hf & ->)].
      { intros i [_ ?]%elem_of_seq. lia. }
      * left. split; [|done]. intros j g Hj.
        pose proof (lookup_lt_Some _ _ _ Hj).
        destruct (decide (j < _next_fit_start a)%nat).
        -- apply (Hno2 j); [|done]. apply elem_of_seq. lia.
        -- apply (Hno1 j); [|done]. apply elem_of_seq. lia.
      * right. eexists i, f, _. split_and!; [done..| |done].
        simpl. pose proof (lookup_lt_Some _ _ _ Hi).
        apply Nat.lt_le_incl, Nat.mod_upper_bound. lia.
    + right. eexists i, f, _. split_and!; [done..| |done].
      simpl. pose proof (lookup_lt_Some _ _ _ Hi).
      apply Nat.lt_le_incl, Nat.mod_upper_bound. lia.
Qed.

End Allocate.

(** * Properties of the paging simulator *)

Section PagingInvariant.
Import PagingSimulator.

Implicit Types (s : PagingSimulator.t) (pt : PageTable.t)
  (e : PageTableEntry.t) (f g : Frame.t).

Lemma get_frame_of_nat (i : nat) f pm :
  PhysicalMemory.frames pm !! i = Some f →
  PhysicalMemory.get_frame (Z.of_nat i) pm = Some f.
Proof.
  intros Hi. unfold PhysicalMemory.get_frame.
  pose proof (lookup_lt_Some _ _ _ Hi).
  rewrite bool_decide_eq_true_2 by lia. by rewrite Nat2Z.id.
Qed.

Lemma paging_inv_init num_frames frame_size strategy :
  paging_inv (PagingSimulator.init num_frames frame_size strategy).
Proof.
  unfold paging_inv, sim_frames, present_entry. simpl. split_and!.
  - intros i f Hi. rewrite list_lookup_fmap in Hi.
    destruct (seq 0 (Z.to_nat num_frames) !! i) as [k|] eqn:Hk; [|done].
    apply lookup_seq in Hk as [-> _]. simpl in Hi. by injection Hi as <-.
  - intros pid pt Hpt. by rewrite lookup_empty in Hpt.
  - lia.
  - intros pid page e (pt & Hpt & _). by rewrite lookup_empty in Hpt.
Qed.

(** Entries that only differ in their status bits. *)
Lemma paging_inv_tables s s' :
  sim_frames s' = sim_frames s →
  PhysicalMemory.frame_size (physical_memory s')
  = PhysicalMemory.frame_size (physical_memory s) →
  MemoryAllocator._next_fit_start (allocator s')
  = MemoryAllocator._next_fit_start (allocator s) →
  (∀ pid pt', page_tables s' !! pid = Some pt' →
     PageTable.page_size pt'
     = PhysicalMemory.frame_size (physical_memory s)) →
  (∀ pid page e', present_entry s' pid page e' →
     ∃ e, present_entry s pid page e ∧
          PageTableEntry.frame_id e = PageTableEntry.frame_id e') →
  paging_inv s → paging_inv s'.
Proof.
  intros Hfr Hfs Hcur Hps Hent (I1 & I2 & I3 & I4).
  unfold paging_inv. rewrite Hfr, Hfs, Hcur. split_and!; [done..|].
  intros pid page e' He'.
  destruct (Hent pid page e' He') as (e & He & Heq).
  destruct (I4 pid page e He) as (i & f & ? & ?).
  exists i, f. by rewrite <- Heq.
Qed.

Lemma present_entry_update_entry s pid page e0 e1 pid' page' e' pt :
  page_tables s !! pid = Some pt →
  PageTable.entries pt !! page = Some e0 →
  present_entry (update_entry pid page e1 s) pid' page' e' →
  (pid' = pid ∧ page' = page ∧ e' = e1) ∨
  ((pid', page') ≠ (pid, page) ∧ present_entry s pid' page' e').
Proof.
  intros Hpt He0 (pt' & Hpt' & He' & Hp).
  unfold update_entry in Hpt'. rewrite Hpt in Hpt'. simpl in Hpt'.
  destruct (decide (pid' = pid)) as [->|Hpid].
  - rewrite lookup_insert_eq in Hpt'. injection Hpt' as <-.
    simpl in He'. destruct (decide (page' = page)) as [->|Hpage].
    + rewrite lookup_insert_eq in He'. injection He' as <-. by left.
    + rewrite lookup_insert_ne in He' by done.
      right. split; [congruence|]. by exists pt.
  - rewrite lookup_insert_ne in Hpt' by done.
    right. split; [congruence|]. by exists pt'.
Qed.

Lemma paging_inv_update_entry s pid page e0 e1 pt :
  page_tables s !! pid = Some pt →
  PageTable.entries pt !! page = Some e0 →
  (PageTableEntry.present_bit e1 = true →
   PageTableEntry.present_bit e0 = true ∧
   PageTableEntry.frame_id e1 = PageTableEntry.frame_id e0) →
  paging_inv s → paging_inv (update_entry pid page e1 s).
Proof.
  intros Hpt He0 Hsame Hinv.
  apply (paging_inv_tables s); try done.
  - unfold update_entry. by rewrite Hpt.
  - unfold update_entry. by rewrite Hpt.
  - unfold update_entry. by rewrite Hpt.
  - intros pid' pt'. unfold update_entry. rewrite Hpt. simpl.
    destruct Hinv as (_ & I2 & _).
    destruct (decide (pid' = pid)) as [->|Hpid].
    + rewrite lookup_insert_eq. intros [= <-]. simpl. by apply (I2 pid).
    + rewrite lookup_insert_ne by done. apply I2.
  - intros pid' page' e' He'.
    destruct (present_entry_update_entry _ _ _ _ _ _ _ _ _ Hpt He0 He')
      as [(-> & -> & ->)|[_ Hold]].
    + destruct He' as (_ & _ & _ & Hp). destruct (Hsame Hp) as [Hp0 Hf].
      exists e0. split; [|done]. by exists pt.
    + by exists e'.
Qed.

Lemma paging_inv_translate_address pid addr s :
  paging_inv s → paging_inv (state_after (translate_address pid addr s)).
Proof.
  intros Hinv. unfold translate_address.
  destruct (page_tables s !! pid) as [pt|] eqn:Hpt; [|done].
  destruct (PageTable.translate_address addr pt) as [[page offset]|]; [|done].
  unfold PageTable.get_entry.
  destruct (PageTable.entries pt !! page) as [e|] eqn:He; [|done].
  destruct (PageTableEntry.present_bit e) eqn:Hp;
    [destruct (PageTableEntry.frame_id e) eqn:Hf;
     [destruct (PhysicalMemory.get_frame _ _); [|done]|]|]; simpl.
  - apply (paging_inv_update_entry s pid page e _ pt Hpt He); [|done].
    simpl. done.
  - apply (paging_inv_update_entry (count_fault s) pid page e _ pt Hpt He); [|done].
    simpl. done.
  - apply (paging_inv_update_entry (count_fault s) pid page e _ pt Hpt He); [|done].
    simpl. intros ?. congruence.
Qed.

Lemma paging_inv_access_page pid page write s :
  paging_inv s → paging_inv (access_page pid page write s).2.
Proof.
  intros Hinv. unfold access_page.
  destruct (page_tables s !! pid) as [pt|] eqn:Hpt; [|done].
  unfold PageTable.get_entry.
  destruct (PageTable.entries pt !! page) as [e|] eqn:He; [|done].
  destruct (PageTableEntry.present_bit e) eqn:Hp; simpl; [|done].
  apply (paging_inv_update_entry s pid page e _ pt Hpt He); [|done].
  by destruct write.
Qed.

Lemma paging_inv_set_allocation_strategy strategy s :
  paging_inv s → paging_inv (set_allocation_strategy strategy s).
Proof.
  intros (I1 & I2 & I3 & I4). unfold paging_inv. split_and!; [done..| |done].
  unfold set_allocation_strategy, MemoryAllocator.set_strategy.
  destruct strategy; simpl; [done..|lia].
Qed.

Lemma paging_inv_reset s : paging_inv s → paging_inv (reset s).
Proof.
  intros (I1 & _). unfold paging_inv, sim_frames, present_entry, reset. simpl.
  split_and!.
  - intros i f Hi. rewrite list_lookup_fmap in Hi.
    destruct (PhysicalMemory.frames (physical_memory s) !! i) as [g|] eqn:Hg;
      [|done].
    simpl in Hi. injection Hi as <-. specialize (I1 i g Hg).
    unfold Frame.deallocate. by case_bool_decide.
  - intros pid pt Hpt. by rewrite lookup_empty in Hpt.
  - lia.
  - intros pid page e (pt & Hpt & _). by rewrite lookup_empty in Hpt.
Qed.

Lemma create_pages_not_present (l : list nat) pt :
  (∀ page e, PageTable.entries pt !! page = Some e →
             PageTableEntry.present_bit e = false) →
  let pt' := foldl (λ pt (i : nat), (PageTable.create_page (Z.of_nat i) pt).2) pt l in
  PageTable.page_size pt' = PageTable.page_size pt ∧
  ∀ page e, PageTable.entries pt' !! page = Some e →
            PageTableEntry.present_bit e = false.
Proof.
  revert pt. induction l as [|i l IH]; intros pt Hpt; [done|].
  cbn [foldl]. cbv zeta.
  destruct (IH (PageTable.create_page (Z.of_nat i) pt).2) as [Hsize Hnp].
  { unfold PageTable.create_page.
    destruct (PageTable.entries pt !! Z.of_nat i) eqn:Hi; [done|]. simpl.
    intros page e. destruct (decide (page = Z.of_nat i)) as [->|Hne].
    - rewrite lookup_insert_eq. by intros [= <-].
    - rewrite lookup_insert_ne by done. apply Hpt. }
  split; [|done]. rewrite Hsize. unfold PageTable.create_page.
  by destruct (PageTable.entries pt !! Z.of_nat i).
Qed.

Lemma paging_inv_create_process pid num_pages s :
  paging_inv s → paging_inv (create_process pid num_pages s).2.
Proof.
  intros Hinv. unfold create_process.
  destruct (page_tables s !! pid) as [pt|] eqn:Hpt; [done|]. simpl.
  destruct (create_pages_not_present (seq 0 (Z.to_nat num_pages))
              (PageTable.init pid (PhysicalMemory.frame_size (physical_memory s))))
    as [Hsize Hnp].
  { intros page e. simpl. by rewrite lookup_empty. }
  apply (paging_inv_tables s); try done.
  - intros pid' pt'. simpl. destruct (decide (pid' = pid)) as [->|Hne].
    + rewrite lookup_insert_eq. intros [= <-]. by rewrite Hsize.
    + rewrite lookup_insert_ne by done. destruct Hinv as (_ & I2 & _). apply I2.
  - intros pid' page e' (pt' & Hpt' & He' & Hp). simpl in Hpt'.
    destruct (decide (pid' = pid)) as [->|Hne].
    + rewrite lookup_insert_eq in Hpt'. injection Hpt' as <-.
      rewrite (Hnp page e' He') in Hp. done.
    + rewrite lookup_insert_ne in Hpt' by done.
      exists e'. split; [|done]. by exists pt'.
Qed.

Lemma frame_deallocate_id f : Frame.frame_id (Frame.deallocate f).2 = Frame.frame_id f.
Proof. unfold Frame.deallocate. by case_bool_decide. Qed.

Lemma frame_deallocate_twice f :
  (Frame.deallocate (Frame.deallocate f).2).2 = (Frame.deallocate f).2.
Proof. unfold Frame.deallocate. by repeat (case_bool_decide; simpl). Qed.

Lemma paging_inv_deallocate_page pid page s :
  paging_inv s → paging_inv (deallocate_page pid page s).2.
Proof.
  intros Hinv. unfold deallocate_page.
  destruct (page_tables s !! pid) as [pt|] eqn:Hpt; [|done].
  unfold PageTable.get_entry.
  destruct (PageTable.entries pt !! page) as [e|] eqn:He; [|done].
  destruct (PageTableEntry.present_bit e) eqn:Hp; [|done].
  destruct (PageTableEntry.frame_id e) as [fid|] eqn:Hf; [|done].
  destruct Hinv as (I1 & I2 & I3 & I4).
  destruct (I4 pid page e) as (i & f & Hfid & Hi & Hst & Hfp & Hfpage).
  { by exists pt. }
  rewrite Hf in Hfid. injection Hfid as ->.
  rewrite (get_frame_of_nat _ _ _ Hi).
  set (s1 := set_physical_memory _ s).
  set (s2 := update_entry pid page (PageTableEntry.unmap_frame e) s1).
  assert (paging_inv s2) as Hinv2.
  { assert (sim_frames s2 = <[i := (Frame.deallocate f).2]> (sim_frames s)) as Hfr.
    { unfold s2, update_entry, s1. simpl. rewrite Hpt.
      unfold sim_frames. simpl. by rewrite Nat2Z.id. }
    unfold paging_inv. rewrite Hfr. split_and!.
    - intros j g. destruct (decide (j = i)) as [->|Hne].
      + rewrite list_lookup_insert_eq by (by eapply lookup_lt_Some).
        intros [= <-]. rewrite frame_deallocate_id. by apply I1.
      + rewrite list_lookup_insert_ne by done. apply I1.
    - intros pid' pt'. unfold s2, update_entry, s1. simpl. rewrite Hpt. simpl.
      destruct (decide (pid' = pid)) as [->|Hne].
      + rewrite lookup_insert_eq. intros [= <-]. simpl. by apply (I2 pid).
      + rewrite lookup_insert_ne by done. apply I2.
    - rewrite length_insert. unfold s2, update_entry, s1. simpl.
      by rewrite Hpt.
    - intros pid' page' e' He'.
      destruct (present_entry_update_entry s1 pid page e _ pid' page' e' pt Hpt He He')
        as [(-> & -> & ->)|[Hne Hold]].
      + by destruct He' as (_ & _ & _ & ?).
      + destruct (I4 pid' page' e' Hold) as (j & g & ? & Hj & ? & ? & ?).
        exists j, g. split_and!; try done.
        rewrite list_lookup_insert_ne; [done|].
        intros ->. rewrite Hi in Hj. injection Hj as <-. congruence. }
  simpl. destruct (processes s2 !! pid); exact Hinv2.
Qed.

Lemma get_mapped_pages_present pt page :
  page ∈ PageTable.get_mapped_pages pt →
  ∃ e, PageTable.entries pt !! page = Some e ∧ PageTableEntry.present_bit e = true.
Proof.
  unfold PageTable.get_mapped_pages.
  intros [[page' e] [-> Hin]]%list_elem_of_fmap.
  apply elem_of_map_to_list in Hin. apply map_lookup_filter_Some in Hin as [? ?].
  by exists e.
Qed.

Lemma release_pages_spec pid pt pm0 (l : list Z) :
  (∀ page e, page ∈ l → PageTable.entries pt !! page = Some e →
     ∃ (i : nat) f, PageTableEntry.frame_id e = Some (Z.of_nat i) ∧
                    PhysicalMemory.frames pm0 !! i = Some f ∧
                    Frame.process_id f = Some pid) →
  ∀ pm,
    (∀ j : nat,
       PhysicalMemory.frames pm !! j = PhysicalMemory.frames pm0 !! j ∨
       ∃ g, PhysicalMemory.frames pm0 !! j = Some g ∧
            Frame.process_id g = Some pid ∧
            PhysicalMemory.frames pm !! j = Some (Frame.deallocate g).2) →
    let pm' := foldl (release_page pt) pm l in
    PhysicalMemory.frame_size pm' = PhysicalMemory.frame_size pm ∧
    ∀ j : nat,
      PhysicalMemory.frames pm' !! j = PhysicalMemory.frames pm0 !! j ∨
      ∃ g, PhysicalMemory.frames pm0 !! j = Some g ∧
           Frame.process_id g = Some pid ∧
           PhysicalMemory.frames pm' !! j = Some (Frame.deallocate g).2.
Proof.
  induction l as [|page l IH]; intros Hl pm Hpm; [done|].
  cbn [foldl]. cbv zeta.
  destruct (IH (λ page e Hin, Hl page e (list_elem_of_further _ _ _ Hin))
              (release_page pt pm page)) as [Hsize Hfr].
  - unfold release_page, PageTable.get_entry.
    destruct (PageTable.entries pt !! page) as [e|] eqn:He; [|done].
    destruct (Hl page e (list_elem_of_here _ _) He) as (i & f & -> & Hi & Hfp).
    destruct (PhysicalMemory.get_frame (Z.of_nat i) pm) as [frame|] eqn:Hframe;
      [|done].
    unfold PhysicalMemory.get_frame in Hframe.
    case_bool_decide; [|done]. rewrite Nat2Z.id in Hframe.
    unfold PhysicalMemory.update_frame. simpl. rewrite Nat2Z.id.
    intros j. destruct (decide (j = i)) as [->|Hne].
    + right. exists f. split_and!; [done..|].
      rewrite list_lookup_insert_eq by (by eapply lookup_lt_Some).
      destruct (Hpm i) as [Heq|(g & Hg & _ & Hd)].
      * rewrite Hframe, Hi in Heq. by injection Heq as ->.
      * rewrite Hi in Hg. injection Hg as <-. rewrite Hframe in Hd.
        injection Hd as ->. by rewrite frame_deallocate_twice.
    + rewrite list_lookup_insert_ne by done. apply Hpm.
  - split; [|done]. rewrite Hsize. unfold release_page.
    destruct (PageTable.get_entry page pt) as [e|]; [|done].
    destruct (PageTableEntry.frame_id e); [|done].
    by destruct (PhysicalMemory.get_frame _ _).
Qed.

Lemma paging_inv_remove_process pid s :
  paging_inv s → paging_inv (remove_process pid s).2.
Proof.
  intros (I1 & I2 & I3 & I4). unfold remove_process.
  destruct (page_tables s !! pid) as [pt|] eqn:Hpt; [|done].
  destruct (release_pages_spec pid pt (physical_memory s)
              (PageTable.get_mapped_pages pt)) with (pm := physical_memory s)
    as [Hsize Hfr].
  { intros page e Hin He.
    destruct (get_mapped_pages_present _ _ Hin) as (e' & He' & Hp).
    rewrite He in He'. injection He' as <-.
    destruct (I4 pid page e) as (i & f & ? & ? & ? & ? & ?); [by exists pt|].
    by exists i, f. }
  { intros j. by left. }
  cbv zeta in Hsize, Hfr. simpl.
  set (pm' := foldl _ _ _) in *.
  assert (length (PhysicalMemory.frames pm') = length (sim_frames s)) as Hlen.
  { unfold sim_frames. apply Nat.le_antisymm; apply Nat.nlt_ge; intros Hlt.
    - destruct (lookup_lt_is_Some_2 _ _ Hlt) as [g Hg].
      destruct (Hfr (length (PhysicalMemory.frames (physical_memory s))))
        as [Heq|(? & Hd & _)].
      + rewrite Hg in Heq. by rewrite lookup_ge_None_2 in Heq.
      + by rewrite lookup_ge_None_2 in Hd.
    - destruct (lookup_lt_is_Some_2 _ _ Hlt) as [g Hg].
      destruct (Hfr (length (PhysicalMemory.frames pm'))) as [Heq|(? & _ & _ & Hd)].
      + rewrite Hg in Heq. by rewrite lookup_ge_None_2 in Heq.
      + by rewrite lookup_ge_None_2 in Hd. }
  unfold paging_inv, sim_frames, present_entry. simpl. split_and!.
  - intros j g' Hg'. destruct (Hfr j) as [Heq|(g & Hg & _ & Hd)].
    + rewrite Hg' in Heq. by apply I1.
    + rewrite Hg' in Hd. injection Hd as ->. rewrite frame_deallocate_id.
      by apply I1.
  - intros pid' pt' [_ Hpt']%lookup_delete_Some. rewrite Hsize. by apply (I2 pid').
  - by rewrite Hlen.
  - intros pid' page e' (pt' & [Hne Hpt']%lookup_delete_Some & He' & Hp).
    destruct (I4 pid' page e') as (j & g & ? & Hj & ? & Hgp & ?); [by exists pt'|].
    exists j, g. split_and!; try done.
    destruct (Hfr j) as [Heq|(g0 & Hg0 & Hown & _)].
    + by rewrite Heq.
    + unfold sim_frames in Hj. rewrite Hj in Hg0. injection Hg0 as <-. congruence.
Qed.

Lemma paging_inv_touch_page pid page pt s :
  page_tables s !! pid = Some pt →
  paging_inv s →
  let ept := match PageTable.get_entry page pt with
             | Some e => (e, pt)
             | None => PageTable.create_page page pt
             end in
  paging_inv (set_page_tables (<[pid := ept.2]> (page_tables s)) s) ∧
  PageTable.entries ept.2 !! page = Some ept.1 ∧
  (PageTableEntry.present_bit ept.1 = true → present_entry s pid page ept.1).
Proof.
  intros Hpt Hinv. unfold PageTable.get_entry, PageTable.create_page.
  destruct (PageTable.entries pt !! page) as [e|] eqn:He; simpl.
  - rewrite insert_id by done. split_and!; [by destruct s|done|].
    intros Hp. by exists pt.
  - rewrite lookup_insert_eq. split_and!; [|done..].
    apply (paging_inv_tables s); try done.
    + intros pid' pt'. simpl. destruct Hinv as (_ & I2 & _).
      destruct (decide (pid' = pid)) as [->|Hne].
      * rewrite lookup_insert_eq. intros [= <-]. simpl. by apply (I2 pid).
      * rewrite lookup_insert_ne by done. apply I2.
    + intros pid' page' e' (pt' & Hpt' & He' & Hp). simpl in Hpt'.
      exists e'. split; [|done].
      destruct (decide (pid' = pid)) as [->|Hne].
      * rewrite lookup_insert_eq in Hpt'. injection Hpt' as <-. simpl in He'.
        destruct (decide (page' = page)) as [->|Hnp].
        -- rewrite lookup_insert_eq in He'. by injection He' as <-.
        -- rewrite lookup_insert_ne in He' by done. by exists pt.
      * rewrite lookup_insert_ne in Hpt' by done. by exists pt'.
Qed.

Lemma paging_inv_map_frame s s' pid page pt entry (i : nat) f af :
  paging_inv s →
  page_tables s !! pid = Some pt →
  PageTable.entries pt !! page = Some entry →
  ¬ present_entry s pid page entry →
  sim_frames s !! i = Some f → Frame.status f = FREE →
  Frame.frame_id af = Frame.frame_id f → Frame.status af = ALLOCATED →
  Frame.process_id af = Some pid → Frame.page_id af = Some page →
  sim_frames s' = <[i := af]> (sim_frames s) →
  PhysicalMemory.frame_size (physical_memory s')
  = PhysicalMemory.frame_size (physical_memory s) →
  (MemoryAllocator._next_fit_start (allocator s') ≤ length (sim_frames s))%nat →
  page_tables s'
  = <[pid := PageTable.update_entry page
               (PageTableEntry.map_to_frame (Z.of_nat i) entry) pt]>
      (page_tables s) →
  paging_inv s'.
Proof.
  intros (I1 & I2 & I3 & I4) Hpt He Hnp Hi Hfree Hid Hst Hpid Hpage Hfr Hfs Hcur Htb.
  unfold paging_inv. rewrite Hfr, Hfs. split_and!.
  - intros j g. destruct (decide (j = i)) as [->|Hne].
    + rewrite list_lookup_insert_eq by (by eapply lookup_lt_Some).
      intros [= <-]. rewrite Hid. by apply I1.
    + rewrite list_lookup_insert_ne by done. apply I1.
  - intros pid' pt'. rewrite Htb. destruct (decide (pid' = pid)) as [->|Hne].
    + rewrite lookup_insert_eq. intros [= <-]. simpl. by apply (I2 pid).
    + rewrite lookup_insert_ne by done. apply I2.
  - by rewrite length_insert.
  - intros pid' page' e' (pt' & Hpt' & He' & Hp). rewrite Htb in Hpt'.
    assert (∀ e0, present_entry s pid' page' e0 →
              ∃ (j : nat) g,
                PageTableEntry.frame_id e0 = Some (Z.of_nat j) ∧
                <[i:=af]> (sim_frames s) !! j = Some g ∧
                Frame.status g = ALLOCATED ∧
                Frame.process_id g = Some pid' ∧ Frame.page_id g = Some page')
      as Hold.
    { intros e0 He0.
      destruct (I4 pid' page' e0 He0) as (j & g & ? & Hj & Hg & ? & ?).
      exists j, g. split_and!; try done.
      rewrite list_lookup_insert_ne; [done|].
      intros ->. rewrite Hi in Hj. injection Hj as <-. congruence. }
    destruct (decide (pid' = pid)) as [->|Hne].
    + rewrite lookup_insert_eq in Hpt'. injection Hpt' as <-. simpl in He'.
      destruct (decide (page' = page)) as [->|Hnpage].
      * rewrite lookup_insert_eq in He'. injection He' as <-.
        exists i, af. split_and!; try done.
        apply list_lookup_insert_eq. by eapply lookup_lt_Some.
      * rewrite lookup_insert_ne in He' by done. apply Hold. by exists pt.
    + rewrite lookup_insert_ne in Hpt' by done. apply Hold. by exists pt'.
Qed.

Lemma paging_inv_allocate_page pid page size s :
  paging_inv s → paging_inv (state_after (allocate_page pid page size s)).
Proof.
  intros Hinv. unfold allocate_page.
  destruct (page_tables s !! pid) as [pt|] eqn:Hpt; [|done].
  destruct (paging_inv_touch_page pid page pt s Hpt Hinv) as (Hinv1 & He1 & Hpres).
  cbv zeta in Hinv1, He1, Hpres.
  destruct (match PageTable.get_entry page pt with
            | Some e => (e, pt)
            | None => PageTable.create_page page pt
            end) as [entry pt1].
  simpl in Hinv1, He1, Hpres.
  set (s1 := set_page_tables (<[pid := pt1]> (page_tables s)) s) in *.
  assert (page_tables s1 !! pid = Some pt1) as Hpt1.
  { unfold s1. simpl. by rewrite lookup_insert_eq. }
  set (alloc_size := default _ size).
  assert (∀ s', s' = s1 → paging_inv s') as Hret by (by intros ? ->).
  destruct Hinv1 as (I1 & I2 & I3 & I4).
  assert (match PageTableEntry.present_bit entry, PageTableEntry.frame_id entry with
          | true, Some _ => True
          | _, _ => ¬ present_entry s1 pid page entry ∨
                    PageTableEntry.frame_id entry = None
          end) as Hnot.
  { destruct (PageTableEntry.present_bit entry) eqn:Hp;
      [destruct (PageTableEntry.frame_id entry) eqn:Hf; [done|by right]|].
    left. intros (pt' & _ & _ & Hp'). congruence. }
  assert (¬ present_entry s1 pid page entry ∨
          PageTableEntry.frame_id entry = None →
          ¬ present_entry s1 pid page entry) as Hnp.
  { intros [?|Hf]; [done|]. intros Hpe.
    destruct (I4 pid page entry Hpe) as (? & ? & ? & _). congruence. }
  destruct (PageTableEntry.present_bit entry);
    [destruct (PageTableEntry.frame_id entry); [by apply Hret|]|].
  all: apply Hnp in Hnot; clear Hnp.
  all: destruct (allocate_spec pid page alloc_size (allocator s1)
                (PhysicalMemory.frames (physical_memory s1)) I3)
      as [[_ ->]|(i & f & a' & Hi & Hf & Hcur & ->)].
  all: try (by apply (paging_inv_tables s1);
              [..|intros ? ? e' ?; by exists e'|]).
  all: rewrite (I1 i f Hi).
  all: rewrite (frame_allocate_fits _ _ _ _ Hf); cbn [snd].
  all: set (af := Frame.mk _ _ ALLOCATED _ _ _).
  all: set (s2 := set_allocator a' _).
  all: assert (update_entry pid page
                 (PageTableEntry.map_to_frame (Z.of_nat i) entry) s2
               = set_page_tables
                   (<[pid := PageTable.update_entry page
                               (PageTableEntry.map_to_frame (Z.of_nat i) entry) pt1]>
                      (page_tables s2)) s2) as ->
         by (unfold update_entry; simpl; by rewrite lookup_insert_eq).
  all: set (s3 := set_page_tables _ s2).
  all: assert (PhysicalMemory.get_frame (Z.of_nat i) (physical_memory s3) = Some af)
         as -> by (apply get_frame_of_nat; simpl;
                   apply list_lookup_insert_eq; by eapply lookup_lt_Some).
  all: rewrite (frame_allocate_no_fit _ _ _ af) by done; cbn [snd].
  all: set (s4 := set_physical_memory _ s3).
  all: assert (Frame.status f = FREE) as Hfree by (by apply frame_fits_free in Hf).
  all: assert (sim_frames s4 = <[i:=af]> (sim_frames s1)) as Hfr4
         by (unfold sim_frames; simpl; rewrite Nat2Z.id;
             apply list_insert_insert_eq).
  all: assert (paging_inv s4) as Hinv4
         by (by apply (paging_inv_map_frame s1 s4 pid page pt1 entry i f af)).
  all: destruct (processes s4 !! pid); exact Hinv4.
Qed.








Lemma paging_reachable_inv s : paging_reachable s → paging_inv s.
Proof.
  induction 1 as [num_frames frame_size strategy|op s _ IH].
  - apply paging_inv_init.
  - destruct op; simpl.
    + by apply paging_inv_create_process.
    + by apply paging_inv_allocate_page.
    + by apply paging_inv_deallocate_page.
    + by apply paging_inv_remove_process.
    + by apply paging_inv_translate_address.
    + by apply paging_inv_access_page.
    + by apply paging_inv_reset.
    + by apply paging_inv_set_allocation_strategy.
Qed.

End PagingInvariant.

Section PagingTheorems.
Import PagingSimulator.

(** C5.  In every state reachable from a fresh simulator, two different
    present page-table entries (of the same or of different processes)
    never hold the same frame id. *)
Theorem exclusive_frame_ownership (s : PagingSimulator.t)
    (pid1 page1 pid2 page2 : Z) (e1 e2 : PageTableEntry.t) (f1 f2 : Z) :
  paging_reachable s →
  present_entry s pid1 page1 e1 → present_entry s pid2 page2 e2 →
  (pid1, page1) ≠ (pid2, page2) →
  PageTableEntry.frame_id e1 = Some f1 →
  PageTableEntry.frame_id e2 = Some f2 →
  f1 ≠ f2.
Proof.
  intros Hreach H1 H2 Hne Hf1 Hf2 ->.
  destruct (paging_reachable_inv s Hreach) as (_ & _ & _ & I4).
  destruct (I4 pid1 page1 e1 H1) as (i & f & Hi & Hfi & _ & Hp1 & Hg1).
  destruct (I4 pid2 page2 e2 H2) as (j & g & Hj & Hgj & _ & Hp2 & Hg2).
  rewrite Hf1 in Hi. rewrite Hf2 in Hj.
  assert (i = j) as -> by (apply Nat2Z.inj; congruence).
  rewrite Hfi in Hgj. injection Hgj as <-. congruence.
Qed.

Lemma two_process_simulator_reachable : paging_reachable two_process_simulator.
Proof.
  unfold two_process_simulator. cbn [foldl].
  repeat apply paging_after. apply paging_fresh.
Qed.

Lemma exclusive_frame_ownership_witness :
  ∃ e1 e2,
    present_entry two_process_simulator 1 0 e1 ∧
    present_entry two_process_simulator 2 0 e2 ∧
    PageTableEntry.frame_id e1 = Some 0 ∧
    PageTableEntry.frame_id e2 = Some 1 ∧ 0 ≠ 1.
Proof.
  set (e1 := PageTableEntry.map_to_frame 0 (PageTableEntry.init 0)).
  set (e2 := PageTableEntry.map_to_frame 1 (PageTableEntry.init 0)).
  assert (present_entry two_process_simulator 1 0 e1) as H1.
  { eexists. split; [reflexivity|]. split; reflexivity. }
  assert (present_entry two_process_simulator 2 0 e2) as H2.
  { eexists. split; [reflexivity|]. split; reflexivity. }
  exists e1, e2. split_and!; [done..|].
  apply (exclusive_frame_ownership two_process_simulator 1 0 2 0 e1 e2 0 1
           two_process_simulator_reachable H1 H2); [|reflexivity..].
  intros [=].
Defined.

(** C6.  In every reachable state, if page [page_id] of a process is
    present and mapped to frame [f], then translating the logical address
    [page_id * page_size + k], for [0 <= k < page_size], returns the
    physical address [f * frame_size + k], the offset [k] and no fault. *)
Theorem translate_address_round_trip (s : PagingSimulator.t)
    (process_id page_id f k : Z) (pt : PageTable.t) (e : PageTableEntry.t) :
  paging_reachable s →
  page_tables s !! process_id = Some pt →
  PageTable.entries pt !! page_id = Some e →
  PageTableEntry.present_bit e = true →
  PageTableEntry.frame_id e = Some f →
  0 ≤ k < PageTable.page_size pt →
  translate_address process_id (page_id * PageTable.page_size pt + k) s
  = Ret (Some (Some (f * PhysicalMemory.frame_size (physical_memory s) + k),
               k, false))
        (count_success
           (update_entry process_id page_id (PageTableEntry.mark_referenced e) s)).
Proof.
  intros Hreach Hpt He Hp Hf Hk.
  destruct (paging_reachable_inv s Hreach) as (_ & I2 & _ & I4).
  destruct (I4 process_id page_id e) as (i & g & Hi & Hg & _); [by exists pt|].
  rewrite Hf in Hi. injection Hi as ->.
  unfold translate_address, PageTable.translate_address, PageTable.get_entry.
  rewrite Hpt. rewrite decide_False by lia.
  rewrite Z.div_add_l by lia. rewrite Z.div_small by lia.
  rewrite Z.add_0_r.
  rewrite Z.add_comm, Z.mod_add by lia. rewrite Z.mod_small by lia.
  rewrite He, Hp, Hf. rewrite (get_frame_of_nat _ _ _ Hg).
  by rewrite Z.add_comm.
Qed.

Lemma translate_address_round_trip_witness :
  ∃ s',
    translate_address 2 5 two_process_simulator
    = Ret (Some (Some 21, 5, false)) s'.
Proof.
  eexists.
  apply (translate_address_round_trip two_process_simulator 2 0 1 5
           (PageTable.mk 2 16
              {[ 0 := PageTableEntry.map_to_frame 1 (PageTableEntry.init 0) ]})
           (PageTableEntry.map_to_frame 1 (PageTableEntry.init 0))
           two_process_simulator_reachable);
    [reflexivity..|simpl; lia].
Defined.

(** C10.  In every reachable state, for an existing process and a page id
    without page-table entry, when no free frame is large enough for the
    request, [allocate_page] returns [None] and leaves the simulator as it
    was except for one new entry for that page, which is not present:
    the frames are unchanged and the [total_pages] statistic of the
    process grows by one. *)
Theorem allocate_page_failure_keeps_new_entry (s : PagingSimulator.t)
    (process_id page_id : Z) (size : option Z) (pt : PageTable.t) :
  paging_reachable s →
  page_tables s !! process_id = Some pt →
  PageTable.entries pt !! page_id = None →
  (∀ (j : nat) g,
     sim_frames s !! j = Some g →
     Frame.fits (default (PhysicalMemory.frame_size (physical_memory s)) size) g
     = false) →
  let pt' := PageTable.set_entries
               (<[page_id := PageTableEntry.init page_id]> (PageTable.entries pt))
               pt in
  let s' := set_page_tables (<[process_id := pt']> (page_tables s)) s in
  allocate_page process_id page_id size s = Ret None s' ∧
  physical_memory s' = physical_memory s ∧
  PageTableEntry.status (PageTableEntry.init page_id) = NOT_PRESENT ∧
  PageTableEntry.present_bit (PageTableEntry.init page_id) = false ∧
  total_pages (PageTable.get_stats pt') = S (total_pages (PageTable.get_stats pt)) ∧
  mapped_pages (PageTable.get_stats pt') = mapped_pages (PageTable.get_stats pt).
Proof.
  intros Hreach Hpt He Hno pt' s'.
  destruct (paging_reachable_inv s Hreach) as (_ & _ & I3 & _).
  split_and!; [|done..| |].
  - unfold allocate_page, PageTable.get_entry, PageTable.create_page.
    rewrite Hpt, He. cbn [PageTableEntry.present_bit PageTableEntry.init].
    fold pt'. fold s'.
    destruct (allocate_spec process_id page_id
                (default (PhysicalMemory.frame_size (physical_memory s')) size)
                (allocator s') (PhysicalMemory.frames (physical_memory s')) I3)
      as [[_ ->]|(i & f & a' & Hi & Hf & _)].
    + f_equal. unfold s'. destruct s as [[] ? [] ? ? ?]. reflexivity.
    + specialize (Hno i f Hi). simpl in Hf. congruence.
  - simpl. by apply map_size_insert_None.
  - simpl. f_equal. unfold PageTable.get_mapped_pages. simpl.
    rewrite map_filter_insert_False by done.
    by rewrite delete_id.
Qed.

Lemma allocate_page_failure_keeps_new_entry_witness :
  ∃ s',
    allocate_page 1 1 None full_simulator = Ret None s' ∧
    physical_memory s' = physical_memory full_simulator.
Proof.
  destruct (page_tables full_simulator !! 1) as [pt|] eqn:Hpt;
    [|vm_compute in Hpt; discriminate].
  eexists.
  refine (let H := allocate_page_failure_keeps_new_entry full_simulator 1 1 None pt
                     _ Hpt _ _ in conj (proj1 H) (proj1 (proj2 H))).
  - unfold full_simulator. repeat apply paging_after. apply paging_fresh.
  - vm_compute in Hpt. injection Hpt as <-. reflexivity.
  - intros [|j] g; vm_compute; [intros [= <-]; reflexivity|discriminate].
Defined.

End PagingTheorems.

(** * Properties of the segmentation engine *)

Section Segmentation.
Import SegmentationEngine.

Lemma dict_get_set k v d :
  SegmentTable.dict_get k (SegmentTable.dict_set k v d) = Some v.
Proof.
  induction d as [|[k' v'] d IH]; simpl.
  - by rewrite decide_True.
  - case_decide as Hk; simpl.
    + by rewrite decide_True.
    + by rewrite decide_False.
Qed.

(** C7, as stated for any process that holds CODE at base 0x1000, fails:
    a base given by the caller does not move the cursor.  After CODE is
    added with [base=0x1000] on a fresh engine the cursor still stands at
    0x1000, and the auto-placed DATA lands at 0x1000, on top of CODE. *)
Lemma explicit_code_base_keeps_cursor : ¬ data_lands_after_code.
Proof.
  intros Hclaim.
  destruct (Hclaim explicit_code_engine 1 0 1
              (SegmentTable.mk 1 [(0, Segment.init 0 "CODE" 0x1000 0x1000)]))
    as (data & Hdata & Hbase).
  - unfold explicit_code_engine. do 2 apply segmentation_after.
    apply segmentation_fresh.
  - reflexivity.
  - reflexivity.
  - done.
  - vm_compute in Hdata. injection Hdata as <-. vm_compute in Hbase.
    discriminate.
Qed.

(** C7, amended.  The cursor of a fresh engine is 0x1000.  A segment of
    size [size] added without base is placed at the cursor, which then
    advances by [size + 0x100]; a segment added with a base leaves the
    cursor where it was.  So when CODE (size 0x1000) is the first segment
    auto-placed on a fresh engine and DATA (size 0x1000) is auto-placed
    next, CODE has base 0x1000 and limit 0x1000, DATA has base 0x2100,
    the external fragmentation is 0x100 bytes and its percentage is
    3.125. *)
Theorem auto_placement_cursor :
  next_base_address init = 0x1000
  ∧ (∀ s process_id segment_id name size st,
       segment_tables s !! process_id = Some st →
       let s' := (add_segment process_id segment_id name size None s).2 in
       next_base_address s' = next_base_address s + size + 0x100 ∧
       segment_of process_id segment_id s'
       = Some (Segment.init segment_id name (next_base_address s) size))
  ∧ (∀ s process_id segment_id name size base,
       next_base_address
         (add_segment process_id segment_id name size (Some base) s).2
       = next_base_address s)
  ∧ segment_of 1 0 auto_code_data_engine
    = Some (Segment.init 0 "CODE" 0x1000 0x1000)
  ∧ segment_of 1 1 auto_code_data_engine
    = Some (Segment.init 1 "DATA" 0x2100 0x1000)
  ∧ (∃ eb ep,
       external_bytes (calculate_fragmentation 1 auto_code_data_engine) = Some eb ∧
       external_percent (calculate_fragmentation 1 auto_code_data_engine) = Some ep ∧
       (eb == inject_Z 0x100)%Q ∧ (ep == 3125 # 1000)%Q).
Proof.
  split_and!.
  - reflexivity.
  - intros s process_id segment_id name size st Hst. cbv zeta.
    unfold add_segment, segment_of. rewrite Hst. simpl. split; [lia|].
    rewrite lookup_insert_eq. simpl. apply dict_get_set.
  - intros s process_id segment_id name size base. unfold add_segment.
    by destruct (segment_tables s !! process_id).
  - reflexivity.
  - reflexivity.
  - eexists _, _. split; [reflexivity|]. split; [reflexivity|].
    split; reflexivity.
Qed.

Lemma auto_placement_cursor_witness :
  segment_of 1 1 auto_code_data_engine
  = Some (Segment.init 1 "DATA" (next_base_address auto_code_engine) 0x1000)
  ∧ next_base_address auto_code_engine = 0x2100.
Proof.
  split; [|reflexivity].
  apply (proj1 (proj2 auto_placement_cursor) auto_code_engine 1 1 "DATA" 0x1000
           (SegmentTable.mk 1 [(0, Segment.init 0 "CODE" 0x1000 0x1000)])).
  reflexivity.
Defined.

End Segmentation.

(** * Replacement engines used on their own *)

Section EngineFacts.

Implicit Types (fr : list (option Z)) (p q : Z) (i j : nat).

Lemma slot_of_None p fr : slot_of p fr = None ↔ Some p ∉ fr.
Proof.
  split.
  - intros Hnone [i Hi]%list_elem_of_lookup_1.
    assert (∃ k, slot_of p fr = Some k) as [k Hk]; [|congruence].
    clear Hnone. revert i Hi. induction fr as [|x fr IH]; intros i Hi; [done|].
    simpl. case_decide; [by eauto|].
    destruct i as [|i]; simpl in Hi; [congruence|].
    destruct (IH i Hi) as [k ->]. by eauto.
  - intros Hnot. destruct (slot_of p fr) as [i|] eqn:Hi; [|done].
    apply slot_of_Some in Hi as [Hi _].
    exfalso. apply Hnot. by eapply list_elem_of_lookup_2.
Qed.

Lemma slot_of_loaded p fr :
  Some p ∈ fr → ∃ i, slot_of p fr = Some i ∧ fr !! i = Some (Some p).
Proof.
  intros Hin. destruct (slot_of p fr) as [i|] eqn:Hi.
  - exists i. split; [done|]. by apply slot_of_Some in Hi as [? _].
  - by apply slot_of_None in Hi.
Qed.

Lemma first_free_Some fr i :
  PageReplacementAlgorithm.first_free fr = Some i ↔
  fr !! i = Some None ∧ ∀ j, (j < i)%nat → fr !! j ≠ Some None.
Proof.
  revert i. induction fr as [|[x|] fr IH]; intros i; simpl.
  - split; [done|]. by intros [? _].
  - destruct (PageReplacementAlgorithm.first_free fr) as [k|]; simpl.
    + split.
      * intros [= <-]. destruct (proj1 (IH k) eq_refl) as [? Hmin].
        split; [done|]. intros [|j] ?; simpl; [done|]. apply Hmin. lia.
      * intros [Hi Hmin]. destruct i as [|i]; simpl in Hi; [done|].
        assert (Some k = Some i) as [= ->]; [|done].
        apply IH. split; [done|]. intros j ?. apply (Hmin (S j)). lia.
    + split; [done|]. intros [Hi Hmin].
      destruct i as [|i]; simpl in Hi; [done|].
      assert (None = Some i) as Habs; [|done].
      apply IH. split; [done|]. intros j ?. apply (Hmin (S j)). lia.
  - split.
    + intros [= <-]. split; [done|]. intros j ?. lia.
    + intros [_ Hmin]. destruct i as [|i]; [done|].
      exfalso. by apply (Hmin 0%nat); [lia|].
Qed.

(** Writing a page that is not resident into a slot. *)
Lemma elem_of_insert_slot fr i p x :
  (i < length fr)%nat →
  Some x ∈ <[i := Some p]> fr ↔
  x = p ∨ ∃ j, j ≠ i ∧ fr !! j = Some (Some x).
Proof.
  intros Hi. rewrite list_elem_of_lookup. split.
  - intros [j Hj]. destruct (decide (j = i)) as [->|Hne].
    + rewrite list_lookup_insert_eq in Hj by done. left. congruence.
    + rewrite list_lookup_insert_ne in Hj by done. right. by exists j.
  - intros [->|(j & Hne & Hj)].
    + exists i. by apply list_lookup_insert_eq.
    + exists j. by rewrite list_lookup_insert_ne.
Qed.

Lemma slots_injective_insert fr i p :
  slots_injective fr → Some p ∉ fr →
  slots_injective (<[i := Some p]> fr).
Proof.
  intros Hinj Hp a b x Ha Hb.
  destruct (decide (a = i)) as [->|Hai], (decide (b = i)) as [->|Hbi]; [done|..].
  - pose proof (lookup_lt_Some _ _ _ Ha) as Hlt. rewrite length_insert in Hlt.
    rewrite list_lookup_insert_eq in Ha by done. injection Ha as <-.
    rewrite list_lookup_insert_ne in Hb by done.
    exfalso. apply Hp. by eapply list_elem_of_lookup_2.
  - pose proof (lookup_lt_Some _ _ _ Hb) as Hlt. rewrite length_insert in Hlt.
    rewrite list_lookup_insert_eq in Hb by done. injection Hb as <-.
    rewrite list_lookup_insert_ne in Ha by done.
    exfalso. apply Hp. by eapply list_elem_of_lookup_2.
  - rewrite list_lookup_insert_ne in Ha by done.
    rewrite list_lookup_insert_ne in Hb by done. by eapply Hinj.
Qed.

Lemma elem_of_remove_first x p (l : list Z) :
  NoDup l → x ∈ remove_first p l ↔ x ∈ l ∧ x ≠ p.
Proof.
  induction l as [|y l IH]; intros Hnd; simpl.
  { split; [by intros ?%elem_of_nil|by intros [?%elem_of_nil _]]. }
  apply NoDup_cons in Hnd as [Hy Hnd]. case_decide as Hyp.
  - subst y. rewrite elem_of_cons. split.
    + intros Hx. split; [by right|]. by intros ->.
    + intros [[->|?] ?]; done.
  - rewrite !elem_of_cons, (IH Hnd). split.
    + intros [->|[? ?]]; [by split; [left|]|by split; [right|]].
    + intros [[->|?] ?]; [by left|by right].
Qed.

Lemma NoDup_remove_first p (l : list Z) : NoDup l → NoDup (remove_first p l).
Proof.
  induction l as [|y l IH]; intros Hnd; simpl; [done|].
  apply NoDup_cons in Hnd as [Hy Hnd]. case_decide; [done|].
  apply NoDup_cons. split; [|by apply IH].
  rewrite (elem_of_remove_first _ _ _ Hnd). by intros [? _].
Qed.

Lemma filter_all (P : Z → Prop) `{∀ x, Decision (P x)} (l : list Z) :
  (∀ x, x ∈ l → P x) → filter P l = l.
Proof.
  induction l as [|y l IH]; intros Hall; [done|].
  rewrite filter_cons_True by apply Hall, list_elem_of_here.
  f_equal. apply IH. intros x Hx. by apply Hall, list_elem_of_further.
Qed.

Lemma remove_first_filter p (l : list Z) :
  NoDup l → remove_first p l = filter (λ x, x ≠ p) l.
Proof.
  induction l as [|y l IH]; intros Hnd; simpl; [done|].
  apply NoDup_cons in Hnd as [Hy Hnd]. case_decide as Hyp.
  - subst y. rewrite filter_cons_False by naive_solver.
    symmetry. apply filter_all. intros x Hx ->. done.
  - rewrite filter_cons_True by done. f_equal. by apply IH.
Qed.

Lemma scan_resident future fr acc m v :
  OptimalReplacement.scan future fr acc m = Some v →
  acc = Some v ∨ Some v ∈ fr.
Proof.
  revert acc m. induction fr as [|[q|] fr IH]; intros acc m; simpl.
  - by left.
  - destruct (index q future) as [d|].
    + case_decide; intros [Hacc|Hin]%IH.
      * injection Hacc as ->. right. apply list_elem_of_here.
      * right. by apply list_elem_of_further.
      * by left.
      * right. by apply list_elem_of_further.
    + intros [= ->]. right. apply list_elem_of_here.
  - intros [?|?]%IH; [by left|right; by apply list_elem_of_further].
Qed.

Lemma first_loaded_resident fr v :
  OptimalReplacement.first_loaded fr = Some v → Some v ∈ fr.
Proof.
  induction fr as [|[q|] fr IH]; simpl; [done| |].
  - intros [= ->]. apply list_elem_of_here.
  - intros ?. by apply list_elem_of_further, IH.
Qed.

(** Slots that are all taken and hold no page: there is no slot. *)
Lemma full_without_pages fr :
  PageReplacementAlgorithm.first_free fr = None →
  (∀ p, Some p ∉ fr) → fr = [].
Proof.
  intros Hfull Hnone. destruct fr as [|[p|] fr]; [done| |].
  - exfalso. apply (Hnone p), list_elem_of_here.
  - done.
Qed.

Lemma engine_access_cases r p future_references :
  engine_inv r →
  let fr := Replacement.frames r in
  let out := Replacement.access_page p future_references r in
  (Some p ∈ fr ∧
   ∃ i r', slot_of p fr = Some i ∧
     out = Ret (mkAccessResult p false None (Some i) (algorithm_name r)) r' ∧
     Replacement.frames r' = fr ∧ counted true r r' ∧
     order_structure r' = order_after_hit r p <$> order_structure r)
  ∨ ((Some p ∉ fr) ∧
     ∃ i r', PageReplacementAlgorithm.first_free fr = Some i ∧
       out = Ret (mkAccessResult p true None (Some i) (algorithm_name r)) r' ∧
       Replacement.frames r' = <[i := Some p]> fr ∧ counted false r r' ∧
       order_structure r' = (λ o, o ++ [p]) <$> order_structure r)
  ∨ ((Some p ∉ fr) ∧ PageReplacementAlgorithm.first_free fr = None ∧
     ∃ v i r', slot_of v fr = Some i ∧
       out = Ret (mkAccessResult p true (Some v) (Some i) (algorithm_name r)) r' ∧
       Replacement.frames r' = <[i := Some p]> fr ∧ counted false r r' ∧
       (∀ o, order_structure r = Some o → head o = Some v) ∧
       order_structure r' = (λ o, tail o ++ [p]) <$> order_structure r)
  ∨ (fr = [] ∧
     Replacement.frames (state_after out) = [] ∧ counted false r (state_after out) ∧
     order_structure (state_after out) = order_structure r ∧
     (out = Raise StopIteration (state_after out) ∨
      out = Ret (mkAccessResult p true None None (algorithm_name r))
                (state_after out))).
Proof.
  intros (Hlen & Hinj & Hord) fr out.
  destruct (decide (Some p ∈ fr)) as [Hin|Hnin].
  { left. split; [done|].
    destruct (slot_of_loaded p fr Hin) as (i & Hi & _). exists i.
    unfold out, fr in *.
    destruct r as [s|s|s]; simpl in *; unfold Replacement.frames in *; simpl in *.
    - unfold FIFOReplacement.access_page, PageReplacementAlgorithm.is_page_loaded.
      rewrite bool_decide_eq_true_2 by done. rewrite Hi.
      eexists. split_and!; try done. unfold counted. simpl. lia.
    - unfold LRUReplacement.access_page, PageReplacementAlgorithm.is_page_loaded.
      rewrite bool_decide_eq_true_2 by done. rewrite Hi.
      eexists. split_and!; try done. unfold counted. simpl. lia.
    - unfold OptimalReplacement.access_page, PageReplacementAlgorithm.is_page_loaded.
      rewrite bool_decide_eq_true_2 by done. rewrite Hi.
      eexists. split_and!; try done. unfold counted. simpl. lia. }
  right.
  destruct (PageReplacementAlgorithm.first_free fr) as [i|] eqn:Hfree.
  { left. split; [done|]. exists i.
    unfold out, fr in *.
    destruct r as [s|s|s]; simpl in *; unfold Replacement.frames in *; simpl in *.
    - unfold FIFOReplacement.access_page, PageReplacementAlgorithm.is_page_loaded,
        PageReplacementAlgorithm.get_free_frame_index.
      rewrite bool_decide_eq_false_2 by done. simpl. rewrite Hfree.
      eexists. split_and!; try done. unfold counted. simpl. lia.
    - unfold LRUReplacement.access_page, PageReplacementAlgorithm.is_page_loaded,
        PageReplacementAlgorithm.get_free_frame_index.
      rewrite bool_decide_eq_false_2 by done. simpl. rewrite Hfree.
      eexists. split_and!; try done. unfold counted. simpl. lia.
    - unfold OptimalReplacement.access_page, PageReplacementAlgorithm.is_page_loaded,
        PageReplacementAlgorithm.get_free_frame_index.
      rewrite bool_decide_eq_false_2 by done. simpl. rewrite Hfree.
      eexists. split_and!; try done. unfold counted. simpl. lia. }
  right.
  unfold out, fr in *.
  destruct r as [s|s|s]; simpl in *; unfold Replacement.frames in *; simpl in *.
  - unfold FIFOReplacement.access_page, PageReplacementAlgorithm.is_page_loaded,
      PageReplacementAlgorithm.get_free_frame_index.
    rewrite bool_decide_eq_false_2 by done. simpl. rewrite Hfree.
    destruct Hord as [Hnd Hmem].
    destruct (FIFOReplacement.queue s) as [|v q] eqn:Hq.
    + right.
      assert (PageReplacementAlgorithm.frames (FIFOReplacement.base s) = []) as Hnil.
      { apply full_without_pages; [done|]. intros x Hx%Hmem.
        by apply elem_of_nil in Hx. }
      split_and!; try done; [unfold counted; simpl; lia|by right].
    + left. split_and!; [done..|].
      destruct (slot_of_loaded v (PageReplacementAlgorithm.frames (FIFOReplacement.base s)))
        as (i & Hi & _).
      { apply Hmem, list_elem_of_here. }
      rewrite Hi. eexists v, i, _. split_and!; try done.
      * unfold counted. simpl. lia.
      * by intros o [= <-].
  - unfold LRUReplacement.access_page, PageReplacementAlgorithm.is_page_loaded,
      PageReplacementAlgorithm.get_free_frame_index.
    rewrite bool_decide_eq_false_2 by done. simpl. rewrite Hfree.
    destruct Hord as [Hnd Hmem].
    destruct (LRUReplacement.access_order s) as [|v q] eqn:Hq.
    + right.
      assert (PageReplacementAlgorithm.frames (LRUReplacement.base s) = []) as Hnil.
      { apply full_without_pages; [done|]. intros x Hx%Hmem.
        by apply elem_of_nil in Hx. }
      split_and!; try done; [unfold counted; simpl; lia|by right].
    + left. split_and!; [done..|].
      destruct (slot_of_loaded v (PageReplacementAlgorithm.frames (LRUReplacement.base s)))
        as (i & Hi & _).
      { apply Hmem, list_elem_of_here. }
      rewrite Hi. eexists v, i, _. split_and!; try done.
      * unfold counted. simpl. lia.
      * by intros o [= <-].
  - unfold OptimalReplacement.access_page, PageReplacementAlgorithm.is_page_loaded,
      PageReplacementAlgorithm.get_free_frame_index.
    rewrite bool_decide_eq_false_2 by done. simpl. rewrite Hfree.
    set (frs := PageReplacementAlgorithm.frames (OptimalReplacement.base s)) in *.
    destruct (match OptimalReplacement.scan (default [] future_references) frs None (-1) with
              | Some p0 => Some p0
              | None => OptimalReplacement.first_loaded frs
              end) as [v|] eqn:Hchosen.
    + left. split_and!; [done..|].
      assert (Some v ∈ frs) as Hv.
      { destruct (OptimalReplacement.scan _ _ _ _) as [w|] eqn:Hscan.
        - injection Hchosen as ->.
          by apply scan_resident in Hscan as [?|?].
        - by apply first_loaded_resident. }
      destruct (slot_of_loaded v frs Hv) as (i & Hi & _).
      rewrite Hi. eexists v, i, _. split_and!; try done.
      unfold counted. simpl. lia.
    + right.
      assert (frs = []) as Hnil.
      { apply full_without_pages; [done|]. intros x Hx.
        destruct (OptimalReplacement.scan _ _ _ _); [done|].
        clear -Hchosen Hx. induction frs as [|[q|] frs IH]; simpl in *.
        - by apply elem_of_nil in Hx.
        - done.
        - apply elem_of_cons in Hx as [?|?]; [done|by apply IH]. }
      split_and!; try done.
      * unfold counted. simpl. lia.
      * by left.
Qed.

Lemma engine_inv_fresh num_frames algorithm :
  engine_inv (VirtualMemoryManager._create_replacement_algorithm num_frames algorithm).
Proof.
  assert (∀ p, Some p ∉ replicate (Z.to_nat num_frames) (None : option Z)) as Hnone.
  { intros p [? _]%elem_of_replicate. done. }
  assert (NoDup ([] : list Z) ∧
          ∀ p, p ∈ ([] : list Z) ↔
               Some p ∈ replicate (Z.to_nat num_frames) (None : option Z)) as Hord.
  { split; [constructor|]. intros p. split; [by intros ?%elem_of_nil|].
    by intros ?%Hnone. }
  unfold engine_inv. split_and!.
  - destruct algorithm; apply length_replicate.
  - intros i j p Hi. exfalso.
    destruct algorithm; by apply lookup_replicate in Hi as [? _].
  - by destruct algorithm.
Qed.

Lemma engine_inv_reset r : engine_inv r → engine_inv (Replacement.reset r).
Proof.
  intros _.
  assert (Replacement.reset r
          = VirtualMemoryManager._create_replacement_algorithm
              (PageReplacementAlgorithm.num_frames (Replacement.base r))
              (match r with
               | Replacement.Fifo _ => FIFO
               | Replacement.Lru _ => LRU
               | Replacement.Optimal _ => OPTIMAL
               end)) as ->; [by destruct r|].
  apply engine_inv_fresh.
Qed.

Lemma engine_inv_access r p future_references :
  engine_inv r →
  engine_inv (state_after (Replacement.access_page p future_references r)).
Proof.
  intros Hinv.
  destruct (engine_access_cases r p future_references Hinv)
    as [(Hin & i & r' & Hi & -> & Hfr & (Hnf & _) & Ho)
       |[(Hnin & i & r' & Hfree & -> & Hfr & (Hnf & _) & Ho)
        |[(Hnin & Hfull & v & i & r' & Hi & -> & Hfr & (Hnf & _) & Hhead & Ho)
         |(Hnil & Hfr & (Hnf & _) & Ho & _)]]];
    destruct Hinv as (Hlen & Hinj & Hord); simpl.
  - unfold engine_inv. rewrite Hfr, Hnf, Ho. split_and!; [done..|].
    destruct (order_structure r) as [o|]; simpl; [|done].
    destruct Hord as [Hnd Hmem].
    destruct r as [s|s|s]; simpl; [done| |done].
    split.
    + apply NoDup_app. split_and!.
      * by apply NoDup_remove_first.
      * intros x [_ Hx]%elem_of_remove_first; [|done].
        by intros ->%list_elem_of_singleton.
      * apply NoDup_singleton.
    + intros x. rewrite <- Hmem, elem_of_app, list_elem_of_singleton.
      rewrite elem_of_remove_first by done.
      destruct (decide (x = p)) as [->|];
        [|split; [by intros [[? _]|?]|by left]].
      split; [intros _; by apply Hmem|by right].
  - apply first_free_Some in Hfree as [Hfree _].
    pose proof (lookup_lt_Some _ _ _ Hfree) as Hlt.
    unfold engine_inv. rewrite Hfr, Hnf, Ho, length_insert. split_and!; [done| |].
    + by apply slots_injective_insert.
    + destruct (order_structure r) as [o|]; simpl; [|done].
      destruct Hord as [Hnd Hmem]. split.
      * apply NoDup_app. split_and!; [done| |apply NoDup_singleton].
        intros x Hx ->%list_elem_of_singleton. by apply Hnin, Hmem.
      * intros x. rewrite elem_of_app, list_elem_of_singleton, Hmem.
        rewrite elem_of_insert_slot by done. split.
        -- intros [[j Hj]%list_elem_of_lookup_1| ->]; [|by left].
           right. exists j. split; [|done]. intros ->. congruence.
        -- intros [->|(j & _ & Hj)]; [by right|].
           left. by eapply list_elem_of_lookup_2.
  - apply slot_of_Some in Hi as [Hi _].
    pose proof (lookup_lt_Some _ _ _ Hi) as Hlt.
    unfold engine_inv. rewrite Hfr, Hnf, Ho, length_insert. split_and!; [done| |].
    + by apply slots_injective_insert.
    + destruct (order_structure r) as [o|]; simpl; [|done].
      destruct Hord as [Hnd Hmem].
      specialize (Hhead o eq_refl). destruct o as [|v' rest]; [done|].
      injection Hhead as ->. simpl.
      apply NoDup_cons in Hnd as [Hv Hnd]. split.
      * apply NoDup_app. split_and!; [done| |apply NoDup_singleton].
        intros x Hx ->%list_elem_of_singleton.
        apply Hnin, Hmem. by apply list_elem_of_further.
      * intros x. rewrite elem_of_app, list_elem_of_singleton.
        rewrite elem_of_insert_slot by done. split.
        -- intros [Hx| ->]; [|by left]. right.
           assert (Some x ∈ Replacement.frames r) as [j Hj]%list_elem_of_lookup_1.
           { apply Hmem. by apply list_elem_of_further. }
           exists j. split; [|done]. intros ->.
           rewrite Hi in Hj. injection Hj as ->. done.
        -- intros [->|(j & Hne & Hj)]; [by right|]. left.
           assert (x ∈ v :: rest) as Hx.
           { apply Hmem. by eapply list_elem_of_lookup_2. }
           apply elem_of_cons in Hx as [->|?]; [|done].
           exfalso. apply Hne. by eapply Hinj.
  - unfold engine_inv. rewrite Hfr, Hnf, Ho.
    rewrite Hnil in Hlen, Hord. split_and!; [done| |done].
    intros a b x Ha. done.
Qed.

Lemma engine_reachable_inv r : engine_reachable r → engine_inv r.
Proof.
  induction 1 as [num_frames algorithm|[p fut|] r _ IH]; simpl.
  - apply engine_inv_fresh.
  - by apply engine_inv_access.
  - by apply engine_inv_reset.
Qed.

Lemma loaded_pages_NoDup fr :
  slots_injective fr → NoDup (PageReplacementAlgorithm.loaded_pages fr).
Proof.
  unfold PageReplacementAlgorithm.loaded_pages.
  induction fr as [|x fr IH]; intros Hinj; [constructor|].
  assert (slots_injective fr) as Hinj'.
  { intros i j p Hi Hj. pose proof (Hinj (S i) (S j) p) as Heq.
    simpl in Heq. specialize (Heq Hi Hj). by injection Heq. }
  destruct x as [p|]; simpl; [|by apply IH].
  apply NoDup_cons. split; [|by apply IH].
  intros (x & [i Hi]%list_elem_of_lookup_1 & Hx)%list_elem_of_omap.
  simpl in Hx. subst x. pose proof (Hinj 0%nat (S i) p) as Heq.
  simpl in Heq. by specialize (Heq eq_refl Hi).
Qed.

Lemma loaded_pages_length fr :
  (length (PageReplacementAlgorithm.loaded_pages fr) ≤ length fr)%nat.
Proof.
  unfold PageReplacementAlgorithm.loaded_pages.
  induction fr as [|[p|] fr IH]; [done| |].
  - change (omap id (Some p :: fr)) with (p :: omap id fr). simpl. lia.
  - change (omap id (None :: fr)) with (omap id fr : list Z). simpl. lia.
Qed.

End EngineFacts.

Section EngineTheorems.

(** X1.  An engine used on its own (constructed, then only [access_page]
    and [reset]) always has [num_frames] slots, never holds a page in two
    slots, and its FIFO queue or LRU list names exactly the resident
    pages, each once; so [get_statistics] lists every resident page once
    and at most [num_frames] pages. *)
Theorem engine_slots_and_order_agree (r : Replacement.t) :
  engine_reachable r →
  engine_inv r ∧
  let stats := PageReplacementAlgorithm.get_statistics (Replacement.base r) in
  NoDup (PageReplacementAlgorithm.stat_loaded_pages stats) ∧
  (∀ p, p ∈ PageReplacementAlgorithm.stat_loaded_pages stats
        ↔ Replacement.is_page_loaded p r = true) ∧
  (length (PageReplacementAlgorithm.stat_loaded_pages stats)
   ≤ Z.to_nat (PageReplacementAlgorithm.num_frames (Replacement.base r)))%nat.
Proof.
  intros Hreach. pose proof (engine_reachable_inv r Hreach) as Hinv.
  split; [done|]. destruct Hinv as (Hlen & Hinj & _). simpl. split_and!.
  - by apply loaded_pages_NoDup.
  - intros p. unfold PageReplacementAlgorithm.loaded_pages,
      Replacement.is_page_loaded, PageReplacementAlgorithm.is_page_loaded.
    rewrite list_elem_of_omap, bool_decide_eq_true. split.
    + intros (x & Hx & Hid). simpl in Hid. by subst x.
    + intros Hp. by exists (Some p).
  - rewrite <- Hlen. apply loaded_pages_length.
Qed.

Lemma engine_slots_and_order_agree_witness :
  engine_inv
    (engine_exec (EngineAccess 2 None)
       (engine_exec (EngineAccess 1 None)
          (VirtualMemoryManager._create_replacement_algorithm 1 LRU))).
Proof.
  apply engine_slots_and_order_agree.
  do 2 apply engine_after. apply engine_fresh.
Defined.

(** X2.  On an engine used on its own with at least one frame,
    [access_page] never raises and always leaves the page resident, in the
    slot it reports.  A resident page is a hit and the slots stay as they
    were; otherwise the page goes to the lowest free slot without
    eviction, or, when no slot is free, it takes the slot of the one
    evicted page.  Every call counts one hit or one fault. *)
Theorem engine_access_outcome (r : Replacement.t) (p : Z)
    (future_references : option (list Z)) :
  engine_reachable r →
  0 < PageReplacementAlgorithm.num_frames (Replacement.base r) →
  let fr := Replacement.frames r in
  ∃ res r' (i : nat),
    Replacement.access_page p future_references r = Ret res r' ∧
    page_id res = p ∧ frame_index res = Some i ∧
    Replacement.frames r' !! i = Some (Some p) ∧
    page_fault res = negb (Replacement.is_page_loaded p r) ∧
    counted (Replacement.is_page_loaded p r) r r' ∧
    ((Replacement.is_page_loaded p r = true ∧ replaced_page res = None ∧
      Replacement.frames r' = fr)
     ∨ (Replacement.is_page_loaded p r = false ∧
        PageReplacementAlgorithm.first_free fr = Some i ∧
        replaced_page res = None ∧
        Replacement.frames r' = <[i := Some p]> fr)
     ∨ (Replacement.is_page_loaded p r = false ∧
        PageReplacementAlgorithm.first_free fr = None ∧
        ∃ v, replaced_page res = Some v ∧ fr !! i = Some (Some v) ∧
             Replacement.frames r' = <[i := Some p]> fr)).
Proof.
  intros Hreach Hpos fr.
  pose proof (engine_reachable_inv r Hreach) as Hinv.
  assert (∀ b, Some p ∈ fr ↔ b = true →
               Replacement.is_page_loaded p r = b) as Hloaded.
  { intros b Hb. unfold Replacement.is_page_loaded,
      PageReplacementAlgorithm.is_page_loaded. fold (Replacement.frames r). fold fr.
    destruct b; [apply bool_decide_eq_true, Hb|apply bool_decide_eq_false]; [done|].
    intros ?%Hb. done. }
  destruct (engine_access_cases r p future_references Hinv)
    as [(Hin & i & r' & Hi & Hout & Hfr & Hcnt & _)
       |[(Hnin & i & r' & Hfree & Hout & Hfr & Hcnt & _)
        |[(Hnin & Hfull & v & i & r' & Hi & Hout & Hfr & Hcnt & _)
         |(Hnil & _)]]].
  - rewrite (Hloaded true) by done.
    apply slot_of_Some in Hi as [Hi _].
    rewrite Hout. eexists _, r', i. split_and!; try done.
    + by rewrite Hfr.
    + by left.
  - rewrite (Hloaded false) by (split; [done|discriminate]).
    pose proof Hfree as [Hi _]%first_free_Some.
    rewrite Hout. eexists _, r', i. split_and!; try done.
    + rewrite Hfr. apply list_lookup_insert_eq. by eapply lookup_lt_Some.
    + right. by left.
  - rewrite (Hloaded false) by (split; [done|discriminate]).
    apply slot_of_Some in Hi as [Hi _].
    rewrite Hout. eexists _, r', i. split_and!; try done.
    + rewrite Hfr. apply list_lookup_insert_eq. by eapply lookup_lt_Some.
    + right. right. split_and!; [done..|]. by exists v.
  - exfalso. destruct Hinv as (Hlen & _). unfold fr in Hnil.
    rewrite Hnil in Hlen. simpl in Hlen. lia.
Qed.

Lemma engine_access_outcome_witness :
  ∃ res r',
    Replacement.access_page 3 (Some [1; 2])
      (engine_exec (EngineAccess 2 None)
         (engine_exec (EngineAccess 1 None)
            (VirtualMemoryManager._create_replacement_algorithm 2 OPTIMAL)))
    = Ret res r'
    ∧ page_id res = 3.
Proof.
  destruct (engine_access_outcome
              (engine_exec (EngineAccess 2 None)
                 (engine_exec (EngineAccess 1 None)
                    (VirtualMemoryManager._create_replacement_algorithm 2 OPTIMAL)))
              3 (Some [1; 2]))
    as (res & r' & i & Hout & Hid & _).
  - do 2 apply engine_after. apply engine_fresh.
  - reflexivity.
  - by exists res, r'.
Defined.

(** X3.  On an engine used on its own with at least one frame, the order
    structure after an access is determined by the one before: the
    evicted page, if any, was its head (the page loaded earliest under
    FIFO, the page used least recently under LRU); a miss appends the new
    page; an LRU hit moves the page to the end and a FIFO hit changes
    nothing; all other pages keep their order. *)
Theorem engine_order_after_access (r : Replacement.t) (p : Z)
    (future_references : option (list Z)) (order : list Z) :
  engine_reachable r →
  0 < PageReplacementAlgorithm.num_frames (Replacement.base r) →
  order_structure r = Some order →
  ∃ res r',
    Replacement.access_page p future_references r = Ret res r' ∧
    (∀ v, replaced_page res = Some v → head order = Some v) ∧
    order_structure r'
    = Some (if Replacement.is_page_loaded p r
            then match r with
                 | Replacement.Lru _ => filter (λ x, x ≠ p) order ++ [p]
                 | _ => order
                 end
            else filter (λ x, Some x ≠ replaced_page res) order ++ [p]).
Proof.
  intros Hreach Hpos Horder.
  pose proof (engine_reachable_inv r Hreach) as Hinv.
  assert (∀ b, Some p ∈ Replacement.frames r ↔ b = true →
               Replacement.is_page_loaded p r = b) as Hloaded.
  { intros b Hb. unfold Replacement.is_page_loaded,
      PageReplacementAlgorithm.is_page_loaded. fold (Replacement.frames r).
    destruct b; [apply bool_decide_eq_true, Hb|apply bool_decide_eq_false]; [done|].
    intros ?%Hb. done. }
  destruct (engine_access_cases r p future_references Hinv)
    as [(Hin & i & r' & Hi & Hout & Hfr & Hcnt & Ho)
       |[(Hnin & i & r' & Hfree & Hout & Hfr & Hcnt & Ho)
        |[(Hnin & Hfull & v & i & r' & Hi & Hout & Hfr & Hcnt & Hhead & Ho)
         |(Hnil & _)]]].
  - rewrite (Hloaded true) in * by done.
    rewrite Hout. eexists _, r'. split_and!; [done|done|].
    rewrite Ho, Horder. simpl. f_equal.
    destruct Hinv as (_ & _ & Hord). rewrite Horder in Hord.
    destruct r; simpl; [done| |done].
    f_equal. apply remove_first_filter, Hord.
  - rewrite (Hloaded false) in * by (split; [done|discriminate]).
    rewrite Hout. eexists _, r'. split_and!; [done|done|].
    rewrite Ho, Horder. simpl. do 2 f_equal.
    symmetry. apply filter_all. done.
  - rewrite (Hloaded false) in * by (split; [done|discriminate]).
    rewrite Hout. eexists _, r'. split_and!; [done| |].
    + simpl. intros ? [= <-]. by apply Hhead.
    + rewrite Ho, Horder. simpl. do 2 f_equal.
      specialize (Hhead order Horder).
      destruct order as [|v' rest]; [done|]. injection Hhead as ->. simpl.
      destruct Hinv as (_ & _ & Hord). rewrite Horder in Hord.
      destruct Hord as [[Hv Hnd]%NoDup_cons _].
      rewrite filter_cons_False by (intros Hne; by apply Hne).
      symmetry. apply filter_all. intros x Hx [= ->]. done.
  - exfalso. destruct Hinv as (Hlen & _).
    rewrite Hnil in Hlen. simpl in Hlen. lia.
Qed.

Lemma engine_order_after_access_witness :
  ∃ res r',
    Replacement.access_page 1 None
      (engine_exec (EngineAccess 2 None)
         (engine_exec (EngineAccess 1 None)
            (VirtualMemoryManager._create_replacement_algorithm 2 LRU)))
    = Ret res r'
    ∧ order_structure r' = Some [2; 1].
Proof.
  destruct (engine_order_after_access
              (engine_exec (EngineAccess 2 None)
                 (engine_exec (EngineAccess 1 None)
                    (VirtualMemoryManager._create_replacement_algorithm 2 LRU)))
              1 None [1; 2])
    as (res & r' & Hout & _ & Horder).
  - do 2 apply engine_after. apply engine_fresh.
  - reflexivity.
  - reflexivity.
  - exists res, r'. split; [done|]. rewrite Horder. reflexivity.
Defined.

End EngineTheorems.

(** * More on the virtual memory manager *)

Section EngineAnyState.

Implicit Types (fr : list (option Z)) (p q : Z) (i j : nat).

Lemma elem_of_insert_inv fr i p x :
  x ∈ <[i := Some p]> fr → x = Some p ∨ x ∈ fr.
Proof.
  intros [j Hj]%list_elem_of_lookup_1.
  destruct (decide (j = i)) as [->|Hne].
  - destruct (decide (i < length fr)%nat).
    + rewrite list_lookup_insert_eq in Hj by done. left. congruence.
    + rewrite list_insert_ge in Hj by lia. right. by eapply list_elem_of_lookup_2.
  - rewrite list_lookup_insert_ne in Hj by done. right.
    by eapply list_elem_of_lookup_2.
Qed.

(** One access on an engine in any state, also one whose slots were
    cleared from outside. *)
Lemma engine_access_any r p future_references :
  let out := Replacement.access_page p future_references r in
  let r' := state_after out in
  counted (Replacement.is_page_loaded p r) r r' ∧
  algorithm_name r' = algorithm_name r ∧
  length (Replacement.frames r') = length (Replacement.frames r) ∧
  (∀ q, Some q ∈ Replacement.frames r' → q = p ∨ Some q ∈ Replacement.frames r) ∧
  (∀ res r1, out = Ret res r1 →
     page_id res = p ∧
     page_fault res = negb (Replacement.is_page_loaded p r) ∧
     algorithm res = algorithm_name r ∧
     (∀ v, replaced_page res = Some v →
           Replacement.is_page_loaded p r = false ∧
           Some v ∈ Replacement.frames r ∧
           PageReplacementAlgorithm.first_free (Replacement.frames r) = None ∧
           ∃ i, frame_index res = Some i ∧
                Replacement.frames r !! i = Some (Some v) ∧
                Replacement.frames r1 = <[i := Some p]> (Replacement.frames r))).
Proof.
  assert (∀ fr i q, Some q ∈ <[i := Some p]> fr → q = p ∨ Some q ∈ fr) as Hins.
  { intros fr i q [[= ->]|?]%elem_of_insert_inv; [by left|by right]. }
  assert (∀ v fr i, slot_of v fr = Some i →
            Some v ∈ fr ∧ fr !! i = Some (Some v)) as Hslot.
  { intros v fr i [Hi _]%slot_of_Some. split; [|done].
    by eapply list_elem_of_lookup_2. }
  cbv zeta. unfold Replacement.is_page_loaded, Replacement.frames.
  destruct r as [s|s|s]; simpl.
  - unfold FIFOReplacement.access_page,
      PageReplacementAlgorithm.get_free_frame_index.
    destruct (PageReplacementAlgorithm.is_page_loaded p (FIFOReplacement.base s));
      simpl; [split; [unfold counted; simpl; lia|]; split_and!; [done..|eauto|]; by intros ? ? [= <- <-]|].
    destruct (PageReplacementAlgorithm.first_free _) as [i|] eqn:Hfree; simpl.
    { rewrite length_insert.
      split; [unfold counted; simpl; lia|]. split_and!; [done..|eauto|].
      intros ? ? [= <- <-]. by split_and!. }
    destruct (FIFOReplacement.queue s) as [|v q]; simpl.
    { split; [unfold counted; simpl; lia|]. split_and!; [done..|eauto|].
      intros ? ? [= <- <-]. by split_and!. }
    destruct (slot_of v _) as [i|] eqn:Hi; simpl.
    + rewrite length_insert.
      split; [unfold counted; simpl; lia|]. split_and!; [done..|eauto|].
      intros ? ? [= <- <-]. split_and!; try done. simpl.
      intros ? [= <-]. destruct (Hslot _ _ _ Hi). split_and!; try done.
      by exists i.
    + split; [unfold counted; simpl; lia|]. split_and!; [done..|eauto|].
      intros ? ? [= <- <-]. by split_and!.
  - unfold LRUReplacement.access_page,
      PageReplacementAlgorithm.get_free_frame_index.
    destruct (PageReplacementAlgorithm.is_page_loaded p (LRUReplacement.base s));
      simpl; [split; [unfold counted; simpl; lia|]; split_and!; [done..|eauto|]; by intros ? ? [= <- <-]|].
    destruct (PageReplacementAlgorithm.first_free _) as [i|] eqn:Hfree; simpl.
    { rewrite length_insert.
      split; [unfold counted; simpl; lia|]. split_and!; [done..|eauto|].
      intros ? ? [= <- <-]. by split_and!. }
    destruct (LRUReplacement.access_order s) as [|v q]; simpl.
    { split; [unfold counted; simpl; lia|]. split_and!; [done..|eauto|].
      intros ? ? [= <- <-]. by split_and!. }
    destruct (slot_of v _) as [i|] eqn:Hi; simpl.
    + rewrite length_insert.
      split; [unfold counted; simpl; lia|]. split_and!; [done..|eauto|].
      intros ? ? [= <- <-]. split_and!; try done. simpl.
      intros ? [= <-]. destruct (Hslot _ _ _ Hi). split_and!; try done.
      by exists i.
    + split; [unfold counted; simpl; lia|]. split_and!; [done..|eauto|].
      intros ? ? [= <- <-]. by split_and!.
  - unfold OptimalReplacement.access_page,
      PageReplacementAlgorithm.get_free_frame_index.
    destruct (PageReplacementAlgorithm.is_page_loaded p (OptimalReplacement.base s));
      simpl; [split; [unfold counted; simpl; lia|]; split_and!; [done..|eauto|]; by intros ? ? [= <- <-]|].
    destruct (PageReplacementAlgorithm.first_free _) as [i|] eqn:Hfree; simpl.
    { rewrite length_insert.
      split; [unfold counted; simpl; lia|]. split_and!; [done..|eauto|].
      intros ? ? [= <- <-]. by split_and!. }
    destruct (match OptimalReplacement.scan _ _ _ _ with
              | Some p0 => Some p0
              | None => _
              end) as [v|]; simpl.
    2: { split; [unfold counted; simpl; lia|]. split_and!; [done..|eauto|]. by intros ? ? [=]. }
    destruct (slot_of v _) as [i|] eqn:Hi; simpl.
    + rewrite length_insert.
      split; [unfold counted; simpl; lia|]. split_and!; [done..|eauto|].
      intros ? ? [= <- <-]. split_and!; try done. simpl.
      intros ? [= <-]. destruct (Hslot _ _ _ Hi). split_and!; try done.
      by exists i.
    + split; [unfold counted; simpl; lia|]. split_and!; [done..|eauto|].
      intros ? ? [= <- <-]. by split_and!.
Qed.

End EngineAnyState.

Section VirtualMemoryMore.
Import VirtualMemoryManager.

Lemma seed_pages_lookup frame_size (l : list Z) b p :
  BackingStore.pages (foldl (seed_page frame_size) b l) !! p
  = match BackingStore.pages b !! p with
    | Some data => Some data
    | None => if bool_decide (p ∈ l) then Some (bytes frame_size) else None
    end.
Proof.
  revert b. induction l as [|a l IH]; intros b.
  { cbn [foldl]. destruct (BackingStore.pages b !! p); [done|].
    rewrite bool_decide_eq_false_2; [done|apply not_elem_of_nil]. }
  cbn [foldl]. rewrite IH. unfold seed_page, BackingStore.has_page.
  assert (∀ o : option (list Byte.byte), a ≠ p →
            match o with
            | Some data => Some data
            | None => if bool_decide (p ∈ l) then Some (bytes frame_size) else None
            end
            = match o with
              | Some data => Some data
              | None => if bool_decide (p ∈ a :: l)
                        then Some (bytes frame_size) else None
              end) as Hother.
  { intros [d|] Hne; [done|].
    case_bool_decide as Hl; case_bool_decide as Hal; try done.
    - exfalso. apply Hal. by apply list_elem_of_further.
    - apply elem_of_cons in Hal as [->|?]; done. }
  destruct (decide (is_Some (BackingStore.pages b !! a))) as [Ha|Ha].
  - rewrite bool_decide_eq_true_2 by done.
    destruct (decide (a = p)) as [->|Hne]; [|by apply Hother].
    by destruct Ha as [d ->].
  - rewrite bool_decide_eq_false_2 by done. simpl.
    destruct (decide (a = p)) as [->|Hne].
    + rewrite lookup_insert_eq.
      assert (BackingStore.pages b !! p = None) as ->.
      { by apply eq_None_not_Some. }
      rewrite bool_decide_eq_true_2; [done|apply list_elem_of_here].
    + rewrite lookup_insert_ne by done. by apply Hother.
Qed.


Lemma vm_inv_init num_frames frame_size algorithm :
  vm_inv (init num_frames frame_size algorithm).
Proof.
  unfold vm_inv. simpl. split_and!; [lia|lia|by destruct algorithm|by destruct algorithm| |].
  - destruct algorithm; apply length_replicate.
  - intros p Hp. exfalso.
    destruct algorithm; by apply elem_of_replicate in Hp as [? _].
Qed.

Lemma vm_inv_access process_id page_id write future_references m :
  vm_inv m →
  vm_inv (state_after (access_page process_id page_id write future_references m)).
Proof.
  intros Hm. pose proof Hm as (Hswap & Hname & Hnf & Hlen & Hblob).
  unfold access_page.
  destruct (process_pages m !! process_id) as [pages|]; [|exact Hm].
  destruct (negb _); [exact Hm|].
  pose proof (engine_access_any (replacement m) page_id future_references)
    as ((Hnf' & _) & Hname' & Hlen' & Hres & Hrep).
  cbv zeta in *.
  destruct (Replacement.is_page_loaded page_id (replacement m)) eqn:Hloaded.
  { destruct (Replacement.access_page _ _ _) as [res r|e r];
      simpl in *; unfold vm_inv; simpl;
      (split_and!; [lia|lia|congruence..|]);
      intros p [->|?]%Hres; [|by apply Hblob| |by apply Hblob];
      apply Hblob; unfold Replacement.is_page_loaded,
        PageReplacementAlgorithm.is_page_loaded in Hloaded;
      by apply bool_decide_eq_true in Hloaded. }
  destruct (BackingStore.has_page page_id (backing_store m)) eqn:Hhas;
    simpl; [|exact Hm].
  destruct (Replacement.access_page _ _ _) as [res r|e r]; simpl in *.
  - destruct (replaced_page res) as [v|]; unfold vm_inv; simpl;
      (split_and!; [lia|lia|congruence..|]).
    + intros p Hp. unfold BackingStore.has_page, BackingStore.store_page.
      simpl. apply bool_decide_eq_true.
      destruct (decide (v = p)) as [->|Hne].
      * rewrite lookup_insert_eq. by eexists.
      * rewrite lookup_insert_ne by done.
        assert (BackingStore.has_page p (backing_store m) = true) as Hb.
        { destruct (Hres p Hp) as [->|?]; [done|by apply Hblob]. }
        by apply bool_decide_eq_true in Hb.
    + intros p [->|?]%Hres; [done|by apply Hblob].
  - unfold vm_inv. simpl. split_and!; [lia|lia|congruence..|].
    intros p [->|?]%Hres; [done|by apply Hblob].
Qed.

Lemma vm_inv_remove_process process_id m :
  vm_inv m → vm_inv (remove_process process_id m).2.
Proof.
  intros Hm. pose proof Hm as (Hswap & Hname & Hnf & Hlen & Hblob).
  unfold remove_process.
  destruct (process_pages m !! process_id) as [pages|]; [|exact Hm].
  simpl.
  assert (∀ l m0,
            algorithm_name (replacement (foldl free_page m0 l))
            = algorithm_name (replacement m0) ∧
            PageReplacementAlgorithm.num_frames
              (Replacement.base (replacement (foldl free_page m0 l)))
            = PageReplacementAlgorithm.num_frames (Replacement.base (replacement m0)) ∧
            algorithm (foldl free_page m0 l) = algorithm m0 ∧
            num_frames (foldl free_page m0 l) = num_frames m0) as Hkeep.
  { induction l as [|a l IH]; intros m0; [done|]. cbn [foldl].
    destruct (IH (free_page m0 a)) as (-> & -> & -> & ->).
    unfold free_page. simpl.
    destruct (Replacement.is_page_loaded _ _); [|done]. simpl.
    by destruct (replacement m0). }
  destruct (Hkeep pages m) as (Hn & Hf & Ha & Hnum).
  destruct (free_pages_rest pages m) as (_ & Hin & Hout & _).
  unfold vm_inv. simpl. rewrite Hn, Hf, Ha, Hnum, Hin, Hout, free_pages_length.
  split_and!; try done; try lia.
  intros p [i Hi]%list_elem_of_lookup_1. rewrite free_pages_frames in Hi.
  destruct (Replacement.frames (replacement m) !! i) as [[q|]|] eqn:Hq;
    simpl in Hi; [|done..].
  case_bool_decide as Hmem; [done|]. injection Hi as ->.
  unfold BackingStore.has_page. apply bool_decide_eq_true.
  rewrite free_pages_store, bool_decide_eq_false_2 by done.
  assert (BackingStore.has_page p (backing_store m) = true) as Hb.
  { apply Hblob. by eapply list_elem_of_lookup_2. }
  by apply bool_decide_eq_true in Hb.
Qed.

Lemma vm_inv_load_process process_id pages m :
  vm_inv m → vm_inv (load_process process_id pages m).2.
Proof.
  intros (Hswap & Hname & Hnf & Hlen & Hblob).
  unfold vm_inv, load_process. simpl. split_and!; try done; try lia.
  intros p Hp%Hblob. unfold BackingStore.has_page in *.
  apply bool_decide_eq_true. apply bool_decide_eq_true in Hp as [d Hd].
  rewrite seed_pages_lookup, Hd. by eexists.
Qed.

Lemma vm_reachable_inv m : vm_reachable m → vm_inv m.
Proof.
  induction 1 as [num_frames frame_size algorithm|op m _ IH].
  - apply vm_inv_init.
  - destruct op as [pid pages|pid|pid page w fut|alg|]; simpl.
    + by apply vm_inv_load_process.
    + by apply vm_inv_remove_process.
    + by apply vm_inv_access.
    + destruct IH as (Hswap & _). unfold vm_inv. simpl.
      split_and!; [lia|lia|by destruct alg|by destruct alg| |].
      * destruct alg; apply length_replicate.
      * intros p Hp. exfalso.
        destruct alg; by apply elem_of_replicate in Hp as [? _].
    + apply (vm_inv_init (num_frames m) (frame_size m) (algorithm m)).
Qed.

(** X5.  In every state the manager can reach, the swap-out count is
    between 0 and the swap-in count, the engine is of the configured kind
    with [num_frames] slots, and every resident page has a blob in the
    backing store. *)
Theorem vm_resident_pages_have_blobs (m : VirtualMemoryManager.t) :
  vm_reachable m → vm_inv m.
Proof. apply vm_reachable_inv. Qed.

Lemma vm_resident_pages_have_blobs_witness :
  vm_inv (stale_order_manager FIFO).
Proof.
  apply vm_resident_pages_have_blobs. unfold stale_order_manager.
  cbn [foldl]. repeat apply vm_after. apply vm_fresh.
Defined.

(** X6.  Whenever [access_page] returns a success dictionary, the page is
    registered to the process, [swap_in] equals the engine's [page_fault]
    flag (set exactly when the page was not resident), [swap_out] is set
    exactly when the engine reports a replaced page, each counter grows by
    one exactly when its flag is set, the registrations are unchanged,
    and the backing store changes only by a fresh zero blob for the
    replaced page. *)
Theorem access_page_swap_bookkeeping (m m' : VirtualMemoryManager.t)
    (process_id page : Z) (write : bool)
    (future_references : option (list Z))
    (res : AccessResult) (si so : bool) :
  access_page process_id page write future_references m
  = Ret (VMAccess res si so) m' →
  (∃ pages, process_pages m !! process_id = Some pages ∧ page ∈ pages) ∧
  page_id res = page ∧
  si = page_fault res ∧
  page_fault res = negb (Replacement.is_page_loaded page (replacement m)) ∧
  (si = true → BackingStore.has_page page (backing_store m) = true) ∧
  so = bool_decide (is_Some (replaced_page res)) ∧
  swap_ins m' = swap_ins m + (if si then 1 else 0) ∧
  swap_outs m' = swap_outs m + (if so then 1 else 0) ∧
  process_pages m' = process_pages m ∧
  BackingStore.pages (backing_store m')
  = match replaced_page res with
    | Some v => <[v := bytes (frame_size m)]> (BackingStore.pages (backing_store m))
    | None => BackingStore.pages (backing_store m)
    end.
Proof.
  unfold access_page.
  destruct (process_pages m !! process_id) as [pages|] eqn:Hpid; [|done].
  case_bool_decide as Hpage; simpl; [|done].
  pose proof (engine_access_any (replacement m) page future_references)
    as (_ & _ & _ & _ & Hres). cbv zeta in Hres.
  destruct (Replacement.is_page_loaded page (replacement m)) eqn:Hloaded.
  - destruct (Replacement.access_page _ _ _) as [res0 r|e r]; [|done].
    intros [= <- <- <- <-].
    destruct (Hres res0 r eq_refl) as (Hid & Hpf & _ & Hrep).
    assert (replaced_page res0 = None) as Hnone.
    { destruct (replaced_page res0) as [v|]; [|done].
      by destruct (Hrep v eq_refl) as [? _]. }
    rewrite Hnone. simpl. split_and!; try done; try lia. by exists pages.
  - destruct (BackingStore.has_page page (backing_store m)) eqn:Hhas;
      simpl; [|done].
    destruct (Replacement.access_page _ _ _) as [res0 r|e r]; [|done].
    destruct (Hres res0 r eq_refl) as (Hid & Hpf & _ & _).
    destruct (replaced_page res0) as [v|] eqn:Hv; intros [= <- <- <- <-];
      rewrite Hv; simpl; split_and!; try done; try (by exists pages); try lia.
Qed.

Lemma access_page_swap_bookkeeping_witness :
  ∃ res si so m',
    access_page 2 5 false None (stale_order_manager FIFO)
    = Ret (VMAccess res si so) m' ∧
    swap_ins m' = swap_ins (stale_order_manager FIFO) + (if si then 1 else 0).
Proof.
  eexists _, _, _, _. split; [vm_compute; reflexivity|].
  eapply (access_page_swap_bookkeeping (stale_order_manager FIFO) _ 2 5 false None).
  vm_compute. reflexivity.
Defined.

(** X7.  [translate_address] of the manager splits the address by
    [frame_size] and never changes the manager.  For a page registered to
    the process and an offset [k] below [frame_size]: if the page is
    resident, with [i] the first slot holding it, the result is
    [(i * frame_size + k, k, False)]; if it is not resident the result is
    the fault [(None, k, True)]. *)
Theorem vm_translate_address_round_trip (m : VirtualMemoryManager.t)
    (process_id page_id k : Z) (pages : list Z) :
  process_pages m !! process_id = Some pages →
  page_id ∈ pages →
  0 ≤ k < Z.of_N (frame_size m) →
  translate_address process_id (page_id * Z.of_N (frame_size m) + k) m
  = Ret (Some
           match slot_of page_id (Replacement.frames (replacement m)) with
           | Some i => (Some (Z.of_nat i * Z.of_N (frame_size m) + k), k, false)
           | None => (None, k, true)
           end) m.
Proof.
  intros Hpid Hpage Hk. unfold translate_address. rewrite Hpid.
  rewrite decide_False by lia.
  rewrite Z.div_add_l, Z.div_small, Z.add_0_r by lia.
  rewrite Z.add_comm, Z.mod_add, Z.mod_small by lia.
  rewrite bool_decide_eq_true_2 by done. simpl.
  destruct (slot_of page_id _) as [i|] eqn:Hslot.
  - assert (Replacement.is_page_loaded page_id (replacement m) = true) as ->.
    { apply bool_decide_eq_true. apply slot_of_Some in Hslot as [Hi _].
      by eapply list_elem_of_lookup_2. }
    done.
  - assert (Replacement.is_page_loaded page_id (replacement m) = false) as ->.
    { apply bool_decide_eq_false. by apply slot_of_None. }
    done.
Qed.

Lemma vm_translate_address_round_trip_witness :
  translate_address 2 (4 * 16 + 7) (stale_order_manager LRU)
  = Ret (Some (Some (1 * 16 + 7), 7, false)) (stale_order_manager LRU).
Proof.
  apply (vm_translate_address_round_trip (stale_order_manager LRU) 2 4 7 [3; 4; 5]).
  - reflexivity.
  - rewrite !elem_of_cons. lia.
  - split; [lia|reflexivity].
Defined.

(** X8.  Changing the replacement algorithm discards every resident page
    and the engine's counters, while the backing store, the registrations
    and the swap counters stay; with at least one frame, the next access
    to a registered page that has a blob is therefore a page fault that
    swaps the page into slot 0 without eviction. *)
Theorem set_replacement_algorithm_discards_residents
    (m : VirtualMemoryManager.t) (new_algorithm : ReplacementAlgorithm) :
  let m' := set_replacement_algorithm new_algorithm m in
  (∀ p, Replacement.is_page_loaded p (replacement m') = false) ∧
  PageReplacementAlgorithm.page_faults (Replacement.base (replacement m')) = 0 ∧
  PageReplacementAlgorithm.page_hits (Replacement.base (replacement m')) = 0 ∧
  backing_store m' = backing_store m ∧
  process_pages m' = process_pages m ∧
  swap_ins m' = swap_ins m ∧ swap_outs m' = swap_outs m ∧
  ∀ process_id page_id write future_references pages,
    0 < num_frames m →
    process_pages m !! process_id = Some pages → page_id ∈ pages →
    BackingStore.has_page page_id (backing_store m) = true →
    ∃ m'',
      access_page process_id page_id write future_references m'
      = Ret (VMAccess
               (mkAccessResult page_id true None (Some 0%nat)
                  (algorithm_name (replacement m'))) true false) m'' ∧
      Replacement.is_page_loaded page_id (replacement m'') = true.
Proof.
  cbv zeta.
  assert (∀ p, Replacement.is_page_loaded p
                 (replacement (set_replacement_algorithm new_algorithm m)) = false)
    as Hempty.
  { intros p. apply bool_decide_eq_false. intros Hp.
    destruct new_algorithm; by apply elem_of_replicate in Hp as [? _]. }
  split_and!; [done|by destruct new_algorithm..|done|done|done|done|].
  intros process_id page_id write future_references pages Hpos Hpid Hpage Hhas.
  unfold access_page. simpl. rewrite Hpid.
  rewrite bool_decide_eq_true_2 by done. simpl.
  specialize (Hempty page_id). simpl in Hempty. rewrite Hempty, Hhas. simpl.
  assert (PageReplacementAlgorithm.first_free
            (replicate (Z.to_nat (num_frames m)) None) = Some 0%nat) as Hfirst.
  { destruct (Z.to_nat (num_frames m)) eqn:Hn; [lia|done]. }
  assert (Some page_id
          ∈ <[0%nat := Some page_id]> (replicate (Z.to_nat (num_frames m)) None))
    as Hthere.
  { apply list_elem_of_lookup_2 with 0%nat. apply list_lookup_insert_eq.
    rewrite length_replicate. lia. }
  unfold Replacement.is_page_loaded,
    PageReplacementAlgorithm.is_page_loaded in Hempty.
  destruct new_algorithm; simpl in *;
    unfold FIFOReplacement.access_page, LRUReplacement.access_page,
      OptimalReplacement.access_page,
      PageReplacementAlgorithm.get_free_frame_index,
      PageReplacementAlgorithm.is_page_loaded; simpl;
    rewrite Hempty; simpl; rewrite Hfirst; simpl;
    (eexists; split; [reflexivity|]);
    by apply bool_decide_eq_true.
Qed.

Lemma set_replacement_algorithm_discards_residents_witness :
  ∃ m'',
    access_page 2 3 false None
      (set_replacement_algorithm OPTIMAL (stale_order_manager FIFO))
    = Ret (VMAccess (mkAccessResult 3 true None (Some 0%nat) "OPTIMAL") true false)
          m''.
Proof.
  destruct (set_replacement_algorithm_discards_residents
              (stale_order_manager FIFO) OPTIMAL)
    as (_ & _ & _ & _ & _ & _ & _ & Hnext).
  destruct (Hnext 2 3 false None [3; 4; 5]) as (m'' & Hacc & _).
  - reflexivity.
  - reflexivity.
  - rewrite !elem_of_cons. lia.
  - reflexivity.
  - by exists m''.
Defined.

(** X9.  The backing store is a map from page ids to blobs: a stored
    blob is loaded back, storing or removing one page leaves every other
    page as it was, [remove_page] reports whether the page was there and
    the page is gone afterwards, and removing an unknown page changes
    nothing. *)
Theorem backing_store_round_trip (b : BackingStore.t) (page_id : Z)
    (data : list Byte.byte) :
  BackingStore.load_page page_id (BackingStore.store_page page_id data b)
  = Some data ∧
  BackingStore.has_page page_id (BackingStore.store_page page_id data b) = true ∧
  (∀ q, q ≠ page_id →
        BackingStore.load_page q (BackingStore.store_page page_id data b)
        = BackingStore.load_page q b ∧
        BackingStore.load_page q (BackingStore.remove_page page_id b).2
        = BackingStore.load_page q b) ∧
  (BackingStore.remove_page page_id b).1 = BackingStore.has_page page_id b ∧
  BackingStore.has_page page_id (BackingStore.remove_page page_id b).2 = false ∧
  (BackingStore.has_page page_id b = false →
   (BackingStore.remove_page page_id b).2 = b) ∧
  (BackingStore.remove_page page_id
     (BackingStore.store_page page_id data b)).1 = true.
Proof.
  unfold BackingStore.load_page, BackingStore.store_page,
    BackingStore.has_page, BackingStore.remove_page. simpl.
  split_and!.
  - apply lookup_insert_eq.
  - apply bool_decide_eq_true. rewrite lookup_insert_eq. by eexists.
  - intros q Hq. split.
    + by apply lookup_insert_ne.
    + case_bool_decide; simpl; [|done]. by apply lookup_delete_ne.
  - by case_bool_decide.
  - destruct (decide (is_Some (BackingStore.pages b !! page_id))) as [Hin|Hin].
    + rewrite (bool_decide_eq_true_2 _ Hin). simpl.
      apply bool_decide_eq_false. rewrite lookup_delete_eq. by intros [? ?].
    + rewrite (bool_decide_eq_false_2 _ Hin). simpl.
      by apply bool_decide_eq_false.
  - intros Hno. by rewrite Hno.
  - rewrite bool_decide_eq_true_2; [done|]. rewrite lookup_insert_eq. by eexists.
Qed.

End VirtualMemoryMore.

Section EngineStatistics.

Lemma engine_reachable_counters r :
  engine_reachable r →
  0 ≤ PageReplacementAlgorithm.page_faults (Replacement.base r) ∧
  0 ≤ PageReplacementAlgorithm.page_hits (Replacement.base r).
Proof.
  induction 1 as [num_frames algorithm|op r _ [IHf IHh]].
  - by destruct algorithm.
  - destruct op as [p future_references|]; simpl.
    + destruct (engine_access_any r p future_references) as ((_ & Hh & Hf) & _).
      cbv zeta in Hh, Hf.
      destruct (Replacement.is_page_loaded p r); lia.
    + by destruct r.
Qed.

(** X10.  Every [access_page] call on an engine used on its own is
    counted once, as a hit or as a fault, also when the call raises; the
    counters are never negative, so after any access the fault rate and
    the hit rate reported by [get_statistics], taken as exact rationals,
    add up to one. *)
Theorem statistics_count_every_access (r : Replacement.t) (p : Z)
    (future_references : option (list Z)) :
  engine_reachable r →
  let stats := PageReplacementAlgorithm.get_statistics (Replacement.base r) in
  let r' := state_after (Replacement.access_page p future_references r) in
  let stats' := PageReplacementAlgorithm.get_statistics (Replacement.base r') in
  0 ≤ PageReplacementAlgorithm.stat_page_faults stats ∧
  0 ≤ PageReplacementAlgorithm.stat_page_hits stats ∧
  PageReplacementAlgorithm.stat_total_accesses stats'
  = PageReplacementAlgorithm.stat_total_accesses stats + 1 ∧
  PageReplacementAlgorithm.stat_page_hits stats'
  = PageReplacementAlgorithm.stat_page_hits stats
    + (if Replacement.is_page_loaded p r then 1 else 0) ∧
  (PageReplacementAlgorithm.stat_fault_rate stats'
   + PageReplacementAlgorithm.stat_hit_rate stats' == 1)%Q.
Proof.
  intros Hreach. cbv zeta.
  destruct (engine_reachable_counters r Hreach) as [Hf Hh].
  destruct (engine_access_any r p future_references) as ((_ & Hh' & Hf') & _).
  cbv zeta in Hh', Hf'.
  set (r' := state_after (Replacement.access_page p future_references r)) in *.
  unfold PageReplacementAlgorithm.get_statistics. simpl.
  split_and!; [done|done| |done|].
  - destruct (Replacement.is_page_loaded p r); lia.
  - rewrite bool_decide_eq_true_2
      by (destruct (Replacement.is_page_loaded p r); lia).
    set (f := PageReplacementAlgorithm.page_faults (Replacement.base r')) in *.
    set (h := PageReplacementAlgorithm.page_hits (Replacement.base r')) in *.
    assert (0 < f + h) as Hpos
      by (destruct (Replacement.is_page_loaded p r); lia).
    rewrite inject_Z_plus. field.
    rewrite <- inject_Z_plus. change 0%Q with (inject_Z 0).
    rewrite inject_Z_injective. lia.
Qed.

Lemma statistics_count_every_access_witness :
  PageReplacementAlgorithm.stat_total_accesses
    (PageReplacementAlgorithm.get_statistics
       (Replacement.base
          (state_after
             (Replacement.access_page 7 None
                (VirtualMemoryManager._create_replacement_algorithm 0 OPTIMAL)))))
  = 0 + 1.
Proof.
  apply (proj1 (proj2 (proj2
           (statistics_count_every_access
              (VirtualMemoryManager._create_replacement_algorithm 0 OPTIMAL)
              7 None (engine_fresh 0 OPTIMAL))))).
Defined.

End EngineStatistics.

(** * The frame pool of the paging simulator *)

Section PagingCases.
Import PagingSimulator.

Implicit Types (s : PagingSimulator.t) (pt : PageTable.t)
  (e : PageTableEntry.t) (f g : Frame.t).

Lemma touched_entry_spec page pt :
  let entry := (touched_entry page pt).1 in
  let pt1 := (touched_entry page pt).2 in
  PageTable.entries pt1 !! page = Some entry ∧
  PageTable.page_size pt1 = PageTable.page_size pt ∧
  PageTable.process_id pt1 = PageTable.process_id pt ∧
  (∀ page' , page' ≠ page →
     PageTable.entries pt1 !! page' = PageTable.entries pt !! page') ∧
  match PageTable.entries pt !! page with
  | Some e => entry = e ∧ pt1 = pt
  | None => entry = PageTableEntry.init page ∧
            PageTable.entries pt1
            = <[page := PageTableEntry.init page]> (PageTable.entries pt)
  end.
Proof.
  unfold touched_entry, PageTable.get_entry, PageTable.create_page.
  destruct (PageTable.entries pt !! page) as [e|] eqn:He; simpl.
  - by split_and!.
  - rewrite lookup_insert_eq. split_and!; try done.
    intros page' Hne. by rewrite lookup_insert_ne.
Qed.

Lemma next_fit_loop_keeps_strategy idxs pid page size a (frames : list Frame.t) :
  MemoryAllocator.strategy
    (state_after (MemoryAllocator.next_fit_loop idxs pid page size a frames)).1
  = MemoryAllocator.strategy a.
Proof.
  induction idxs as [|i idxs IH]; [done|]. cbn [MemoryAllocator.next_fit_loop].
  destruct (frames !! i) as [f|]; [|done].
  destruct (Frame.fits size f) eqn:Hf; [|done].
  by rewrite (frame_allocate_fits _ _ _ _ Hf).
Qed.

Lemma allocate_keeps_strategy pid page size a (frames : list Frame.t) :
  MemoryAllocator.strategy
    (state_after (MemoryAllocator.allocate pid page size a frames)).1
  = MemoryAllocator.strategy a.
Proof.
  unfold MemoryAllocator.allocate. destruct (MemoryAllocator.strategy a) eqn:Hs.
  - by destruct (MemoryAllocator._first_fit _ _ _ _).
  - by destruct (MemoryAllocator._best_fit _ _ _ _).
  - unfold MemoryAllocator._next_fit.
    pose proof (next_fit_loop_keeps_strategy
                  (seq (MemoryAllocator._next_fit_start a)
                     (length frames - MemoryAllocator._next_fit_start a))
                  pid page size a frames) as H1.
    destruct (MemoryAllocator.next_fit_loop _ _ _ _ a frames) as [[v|] st|e st];
      simpl in *; [congruence| |congruence].
    rewrite next_fit_loop_keeps_strategy. congruence.
Qed.

(** The two ways [allocate_page] ends for an existing process in a state
    that satisfies the invariant: without touching the frames (the page
    was mapped already, or no frame fits), or with one free frame
    allocated and the entry mapped to it. *)
Lemma allocate_page_cases pid page size s pt :
  paging_inv s →
  page_tables s !! pid = Some pt →
  let entry := (touched_entry page pt).1 in
  let pt1 := (touched_entry page pt).2 in
  let alloc_size := default (PhysicalMemory.frame_size (physical_memory s)) size in
  let out := allocate_page pid page size s in
  let s' := state_after out in
  same_configuration s s' ∧
  page_faults s' = page_faults s ∧
  successful_translations s' = successful_translations s ∧
  ((∃ r, out = Ret r s' ∧
         sim_frames s' = sim_frames s ∧
         page_tables s' = <[pid := pt1]> (page_tables s) ∧
         processes s' = processes s ∧
         ((r = None ∧
           ¬ (PageTableEntry.present_bit entry = true ∧
              is_Some (PageTableEntry.frame_id entry)) ∧
           ∀ (j : nat) g, sim_frames s !! j = Some g →
                          Frame.fits alloc_size g = false)
          ∨ (PageTableEntry.present_bit entry = true ∧
             is_Some r ∧ PageTableEntry.frame_id entry = r ∧
             PageTable.entries pt !! page = Some entry)))
   ∨ (∃ (i : nat) f,
        out = Ret (Some (Z.of_nat i)) s' ∧
        ¬ present_entry s pid page entry ∧
        sim_frames s !! i = Some f ∧ Frame.fits alloc_size f = true ∧
        sim_frames s'
        = <[i := Frame.mk (Z.of_nat i) (Frame.size f) ALLOCATED (Some pid)
                  (Some page) (Z.min alloc_size (Frame.size f))]> (sim_frames s) ∧
        page_tables s'
        = <[pid := PageTable.update_entry page
                     (PageTableEntry.map_to_frame (Z.of_nat i) entry) pt1]>
            (page_tables s) ∧
        processes s'
        = match processes s !! pid with
          | Some info =>
              <[pid := mkProcessInfo (num_pages info) (allocated_pages info + 1)]>
                (processes s)
          | None => processes s
          end)).
Proof.
  intros Hinv Hpt. cbv zeta. unfold allocate_page. rewrite Hpt.
  destruct (touched_entry_spec page pt) as (He1 & _ & _ & _ & Hcase).
  cbv zeta in He1, Hcase. fold (touched_entry page pt).
  destruct (touched_entry page pt) as [entry pt1]. simpl in He1, Hcase.
  cbn [fst snd].
  set (s1 := set_page_tables (<[pid := pt1]> (page_tables s)) s).
  pose proof Hinv as (I1 & _ & I3 & I4).
  destruct (PageTableEntry.present_bit entry) eqn:Hp;
    [destruct (PageTableEntry.frame_id entry) as [fid|] eqn:Hfid|].
  { simpl. split_and!; [unfold same_configuration; simpl; by split_and!|done..|].
    left. exists (Some fid). split_and!; try done. right.
    split_and!; try done.
    destruct (PageTable.entries pt !! page) as [e|]; destruct Hcase as [-> ?];
      [done|discriminate]. }
  all: assert (¬ (PageTableEntry.present_bit entry = true ∧
                  is_Some (PageTableEntry.frame_id entry))) as Hn
         by (intros [? [? ?]]; congruence).
  all: assert (¬ present_entry s pid page entry) as Hnot
         by (intros Hpe; apply Hn; pose proof Hpe as (pt' & _ & _ & Hp');
             split; [done|];
             destruct (I4 pid page entry Hpe) as (? & ? & -> & _); by eexists).
  all: pose proof (allocate_keeps_strategy pid page
                     (default (PhysicalMemory.frame_size (physical_memory s1)) size)
                     (allocator s1) (PhysicalMemory.frames (physical_memory s1)))
         as Hstrat.
  all: destruct (allocate_spec pid page
                   (default (PhysicalMemory.frame_size (physical_memory s1)) size)
                   (allocator s1) (PhysicalMemory.frames (physical_memory s1)) I3)
         as [[Hno Hout]|(i & f & a' & Hi & Hf & Hcur & Hout)];
         rewrite Hout in Hstrat |- *; simpl in Hstrat.
  all: try (simpl; split_and!; [unfold same_configuration; simpl; by split_and!|done..|];
            left; exists None; split_and!; try done;
            left; (split; [done|]); split;
            [intros [? [? ?]]; congruence|exact Hno]).
  all: rewrite (I1 i f Hi).
  all: rewrite (frame_allocate_fits _ _ _ _ Hf); cbn [snd].
  all: rewrite (I1 i f Hi).
  all: set (af := Frame.mk _ _ ALLOCATED _ _ _).
  all: set (s2 := set_allocator a' _).
  all: assert (update_entry pid page
                 (PageTableEntry.map_to_frame (Z.of_nat i) entry) s2
               = set_page_tables
                   (<[pid := PageTable.update_entry page
                               (PageTableEntry.map_to_frame (Z.of_nat i) entry) pt1]>
                      (page_tables s2)) s2) as ->
         by (unfold update_entry; simpl; by rewrite lookup_insert_eq).
  all: set (s3 := set_page_tables _ s2).
  all: assert (PhysicalMemory.get_frame (Z.of_nat i) (physical_memory s3) = Some af)
         as -> by (apply get_frame_of_nat; simpl;
                   apply list_lookup_insert_eq; by eapply lookup_lt_Some).
  all: rewrite (frame_allocate_no_fit _ _ _ af) by done; cbn [snd].
  all: set (s4 := set_physical_memory _ s3).
  all: assert (sim_frames s4 = <[i:=af]> (sim_frames s)) as Hfr4
         by (unfold sim_frames; simpl; rewrite Nat2Z.id;
             apply list_insert_insert_eq).
  all: assert (page_tables s4
               = <[pid := PageTable.update_entry page
                            (PageTableEntry.map_to_frame (Z.of_nat i) entry) pt1]>
                   (page_tables s)) as Htb4
         by (simpl; apply insert_insert_eq).
  all: assert (processes s4 = processes s) as Hps4 by done.
  all: rewrite <- Hps4.
  all: destruct (processes s4 !! pid) as [info|]; simpl.
  all: split_and!; [unfold same_configuration; simpl; by split_and!|done..|].
  all: right; exists i, f; by split_and!.
Qed.


(** Page tables that keep every present entry, over unchanged frames. *)
Lemma frames_owned_tables s s' :
  sim_frames s' = sim_frames s →
  PhysicalMemory.num_frames (physical_memory s')
  = PhysicalMemory.num_frames (physical_memory s) →
  PhysicalMemory.frame_size (physical_memory s')
  = PhysicalMemory.frame_size (physical_memory s) →
  PhysicalMemory._next_frame_id (physical_memory s')
  = PhysicalMemory._next_frame_id (physical_memory s) →
  (∀ pid page e, present_entry s pid page e →
     ∃ e', present_entry s' pid page e' ∧
           PageTableEntry.frame_id e' = PageTableEntry.frame_id e) →
  frames_owned s → frames_owned s'.
Proof.
  intros Hfr Hnf Hfs Hnext Hent (Hlen & Hid & Hown).
  unfold frames_owned. rewrite Hfr, Hnf, Hfs, Hnext. split_and!; [done..|].
  intros i f Hi. destruct (Hown i f Hi) as [Hsize Hst]. split; [done|].
  destruct (Frame.status f); [done|].
  destruct Hst as (pid & page & e & ? & ? & He & Hfid).
  destruct (Hent pid page e He) as (e' & He' & Heq).
  exists pid, page, e'. split_and!; try done. congruence.
Qed.

Lemma present_entry_update_entry_same s pid page e0 e1 pt pid' page' e' :
  page_tables s !! pid = Some pt →
  PageTable.entries pt !! page = Some e0 →
  PageTableEntry.present_bit e1 = PageTableEntry.present_bit e0 →
  PageTableEntry.frame_id e1 = PageTableEntry.frame_id e0 →
  present_entry s pid' page' e' →
  ∃ e'', present_entry (update_entry pid page e1 s) pid' page' e'' ∧
         PageTableEntry.frame_id e'' = PageTableEntry.frame_id e'.
Proof.
  intros Hpt He0 Hp Hf (pt' & Hpt' & He' & Hp').
  unfold present_entry, update_entry. rewrite Hpt. simpl.
  destruct (decide (pid' = pid)) as [->|Hne].
  - rewrite Hpt in Hpt'. injection Hpt' as <-.
    destruct (decide (page' = page)) as [->|Hnp].
    + rewrite He0 in He'. injection He' as <-.
      exists e1. split; [|done]. eexists. rewrite lookup_insert_eq.
      split; [done|]. simpl. rewrite lookup_insert_eq. split; [done|congruence].
    + exists e'. split; [|done]. eexists. rewrite lookup_insert_eq.
      split; [done|]. simpl. by rewrite lookup_insert_ne.
  - exists e'. split; [|done]. exists pt'. by rewrite lookup_insert_ne.
Qed.

Lemma frames_owned_init num_frames frame_size strategy :
  frames_owned (PagingSimulator.init num_frames frame_size strategy).
Proof.
  unfold frames_owned, sim_frames. simpl. split_and!; [|done|].
  - by rewrite length_fmap, length_seq.
  - intros i f Hi. rewrite list_lookup_fmap in Hi.
    destruct (seq 0 (Z.to_nat num_frames) !! i); [|done].
    simpl in Hi. by injection Hi as <-.
Qed.

Lemma frames_owned_translate_address pid addr s :
  frames_owned s → frames_owned (state_after (translate_address pid addr s)).
Proof.
  intros Hown. unfold translate_address.
  destruct (page_tables s !! pid) as [pt|] eqn:Hpt; [|done].
  destruct (PageTable.translate_address addr pt) as [[page offset]|]; [|done].
  unfold PageTable.get_entry.
  destruct (PageTable.entries pt !! page) as [e|] eqn:He; [|done].
  destruct (PageTableEntry.present_bit e) eqn:Hp;
    [destruct (PageTableEntry.frame_id e) eqn:Hf;
     [destruct (PhysicalMemory.get_frame _ _); [|done]|]|]; simpl.
  all: apply (frames_owned_tables s); try done;
    try (unfold update_entry; simpl; by rewrite Hpt).
  all: intros pid' page' e' He'.
  - by apply (present_entry_update_entry_same s pid page e _ pt).
  - by apply (present_entry_update_entry_same (count_fault s) pid page e _ pt).
  - by apply (present_entry_update_entry_same (count_fault s) pid page e _ pt).
Qed.

Lemma frames_owned_access_page pid page write s :
  frames_owned s → frames_owned (access_page pid page write s).2.
Proof.
  intros Hown. unfold access_page.
  destruct (page_tables s !! pid) as [pt|] eqn:Hpt; [|done].
  unfold PageTable.get_entry.
  destruct (PageTable.entries pt !! page) as [e|] eqn:He; [|done].
  destruct (PageTableEntry.present_bit e) eqn:Hp; simpl; [|done].
  apply (frames_owned_tables s); try done;
    try (unfold update_entry; simpl; by rewrite Hpt).
  intros pid' page' e' He'.
  apply (present_entry_update_entry_same s pid page e _ pt); try done;
    by destruct write.
Qed.

Lemma frames_owned_set_allocation_strategy strategy s :
  frames_owned s → frames_owned (set_allocation_strategy strategy s).
Proof. intros Hown. apply (frames_owned_tables s); try done. by eauto. Qed.

Lemma frames_owned_reset s : frames_owned s → frames_owned (reset s).
Proof.
  intros (Hlen & Hid & Hown). unfold frames_owned, sim_frames, reset. simpl.
  split_and!; [by rewrite length_fmap|done|].
  intros i f Hi. rewrite list_lookup_fmap in Hi.
  destruct (PhysicalMemory.frames (physical_memory s) !! i) as [g|] eqn:Hg; [|done].
  simpl in Hi. injection Hi as <-. destruct (Hown i g Hg) as [Hsize Hst].
  unfold Frame.deallocate. case_bool_decide as Halloc; simpl; [done|].
  split; [done|]. destruct (Frame.status g); done.
Qed.

Lemma frames_owned_create_process pid num_pages s :
  frames_owned s → frames_owned (create_process pid num_pages s).2.
Proof.
  intros Hown. unfold create_process.
  destruct (page_tables s !! pid) as [pt|] eqn:Hpt; [done|]. simpl.
  apply (frames_owned_tables s); try done.
  intros pid' page e (pt' & Hpt' & He).
  exists e. split; [|done]. exists pt'. split; [|done]. simpl.
  rewrite lookup_insert_ne; [done|]. intros ->. congruence.
Qed.

(** The two ways [deallocate_page] ends in a state that satisfies the
    invariant. *)
Lemma deallocate_page_cases pid page s :
  paging_inv s →
  let s' := (deallocate_page pid page s).2 in
  (deallocate_page pid page s = (false, s) ∧ ∀ e, ¬ present_entry s pid page e)
  ∨ (∃ pt e (i : nat) f,
       page_tables s !! pid = Some pt ∧
       PageTable.entries pt !! page = Some e ∧
       PageTableEntry.present_bit e = true ∧
       PageTableEntry.frame_id e = Some (Z.of_nat i) ∧
       sim_frames s !! i = Some f ∧ Frame.status f = ALLOCATED ∧
       (deallocate_page pid page s).1 = true ∧
       sim_frames s'
       = <[i := Frame.mk (Frame.frame_id f) (Frame.size f) FREE None None 0]>
           (sim_frames s) ∧
       page_tables s'
       = <[pid := PageTable.update_entry page (PageTableEntry.unmap_frame e) pt]>
           (page_tables s) ∧
       same_configuration s s' ∧
       MemoryAllocator._next_fit_start (allocator s')
       = MemoryAllocator._next_fit_start (allocator s) ∧
       page_faults s' = page_faults s ∧
       successful_translations s' = successful_translations s ∧
       processes s'
       = match processes s !! pid with
         | Some info =>
             <[pid := mkProcessInfo (num_pages info)
                        (Z.max 0 (allocated_pages info - 1))]> (processes s)
         | None => processes s
         end).
Proof.
  intros (I1 & I2 & I3 & I4). cbv zeta. unfold deallocate_page.
  destruct (page_tables s !! pid) as [pt|] eqn:Hpt.
  2: { left. split; [done|]. intros e (pt' & Hpt' & _). congruence. }
  unfold PageTable.get_entry.
  destruct (PageTable.entries pt !! page) as [e|] eqn:He.
  2: { left. split; [done|]. intros e (pt' & Hpt' & He' & _). congruence. }
  destruct (PageTableEntry.present_bit e) eqn:Hp.
  2: { left. split; [done|]. intros e' (pt' & Hpt' & He' & Hp'). congruence. }
  destruct (I4 pid page e) as (i & f & Hfid & Hi & Hst & _); [by exists pt|].
  rewrite Hfid. rewrite (get_frame_of_nat _ _ _ Hi).
  right. exists pt, e, i, f.
  assert ((Frame.deallocate f).2
          = Frame.mk (Frame.frame_id f) (Frame.size f) FREE None None 0) as Hd.
  { unfold Frame.deallocate. by rewrite bool_decide_eq_true_2. }
  rewrite Hd.
  set (s1 := set_physical_memory _ s).
  assert (update_entry pid page (PageTableEntry.unmap_frame e) s1
          = set_page_tables
              (<[pid := PageTable.update_entry page (PageTableEntry.unmap_frame e) pt]>
                 (page_tables s1)) s1) as ->.
  { unfold update_entry. unfold s1 at 1. simpl. by rewrite Hpt. }
  set (s2 := set_page_tables _ s1).
  assert (processes s2 = processes s) as Hps by done. rewrite <- Hps.
  assert (sim_frames s2
          = <[i := Frame.mk (Frame.frame_id f) (Frame.size f) FREE None None 0]>
              (sim_frames s)) as Hfr.
  { unfold sim_frames. simpl. by rewrite Nat2Z.id. }
  destruct (processes s2 !! pid); by split_and!.
Qed.

Lemma frames_owned_deallocate_page pid page s :
  paging_inv s → frames_owned s → frames_owned (deallocate_page pid page s).2.
Proof.
  intros Hinv Hown'. pose proof Hown' as (Hlen & Hid & Hown).
  destruct (deallocate_page_cases pid page s Hinv)
    as [[-> _]|(pt & e & i & f & Hpt & He & Hp & Hfid & Hi & Hst & _ & Hfr & Htb
                & (Hnf & Hfs & Hnext & _) & _)]; [done|].
  cbv zeta in *. unfold frames_owned. rewrite Hfr, Hnf, Hfs, Hnext, length_insert.
  split_and!; [done..|].
  intros j g. destruct (decide (j = i)) as [->|Hne].
  - rewrite list_lookup_insert_eq by (by eapply lookup_lt_Some).
    intros [= <-]. simpl. split; [|done]. by destruct (Hown i f Hi).
  - rewrite list_lookup_insert_ne by done. intros Hj.
    destruct (Hown j g Hj) as [Hsize Hg]. split; [done|].
    destruct (Frame.status g); [done|].
    destruct Hg as (pid' & page' & e' & ? & ? & (pt' & Hpt' & He' & Hp') & Hfid').
    exists pid', page', e'. split_and!; try done.
    unfold present_entry. rewrite Htb.
    destruct (decide (pid' = pid)) as [->|Hnpid].
    + rewrite Hpt in Hpt'. injection Hpt' as <-.
      eexists. rewrite lookup_insert_eq. split; [done|]. simpl.
      rewrite lookup_insert_ne; [done|]. intros ->.
      rewrite He in He'. injection He' as <-.
      rewrite Hfid in Hfid'. injection Hfid' as Heq%Nat2Z.inj. done.
    + exists pt'. by rewrite lookup_insert_ne.
Qed.

Lemma frames_owned_allocate_page pid page size s :
  paging_inv s → frames_owned s →
  frames_owned (state_after (allocate_page pid page size s)).
Proof.
  intros Hinv Hown'. pose proof Hown' as (Hlen & Hid & Hown).
  destruct (page_tables s !! pid) as [pt|] eqn:Hpt.
  2: { unfold allocate_page. by rewrite Hpt. }
  destruct (touched_entry_spec page pt) as (He1 & _ & _ & Hother & Hcase).
  destruct (allocate_page_cases pid page size s pt Hinv Hpt)
    as ((Hnf & Hfs & Hnext & _) & _ & _ &
        [(r & _ & Hfr & Htb & _)
        |(i & f & _ & Hnot & Hi & Hfit & Hfr & Htb & _)]).
  - cbv zeta in *. apply (frames_owned_tables s); try done.
    intros pid' page' e' (pt' & Hpt' & He' & Hp').
    exists e'. split; [|done]. unfold present_entry. rewrite Htb.
    destruct (decide (pid' = pid)) as [->|Hnpid].
    + rewrite Hpt in Hpt'. injection Hpt' as <-.
      eexists. rewrite lookup_insert_eq. split; [done|]. split; [|done].
      destruct (decide (page' = page)) as [->|Hnpage].
      * rewrite He' in Hcase. destruct Hcase as [Heq _].
        by rewrite He1, Heq.
      * by rewrite Hother.
    + exists pt'. by rewrite lookup_insert_ne.
  - cbv zeta in *. unfold frames_owned.
    rewrite Hfr, Hnf, Hfs, Hnext, length_insert. split_and!; [done..|].
    intros j g. destruct (decide (j = i)) as [->|Hne].
    + rewrite list_lookup_insert_eq by (by eapply lookup_lt_Some).
      intros [= <-]. simpl. split; [by destruct (Hown i f Hi)|].
      eexists pid, page, _. split_and!; [done..| |].
      * unfold present_entry. rewrite Htb. eexists.
        rewrite lookup_insert_eq. split; [done|]. simpl.
        rewrite lookup_insert_eq. split; [done|]. done.
      * done.
    + rewrite list_lookup_insert_ne by done. intros Hj.
      destruct (Hown j g Hj) as [Hsize Hg]. split; [done|].
      destruct (Frame.status g); [done|].
      destruct Hg as (pid' & page' & e' & ? & ? & Hpe & Hfid').
      exists pid', page', e'. split_and!; try done.
      pose proof Hpe as (pt' & Hpt' & He' & Hp').
      unfold present_entry. rewrite Htb.
      destruct (decide (pid' = pid)) as [->|Hnpid].
      * rewrite Hpt in Hpt'. injection Hpt' as <-.
        eexists. rewrite lookup_insert_eq. split; [done|]. simpl.
        destruct (decide (page' = page)) as [->|Hnpage].
        -- exfalso. apply Hnot.
           rewrite He' in Hcase. destruct Hcase as [-> _]. done.
        -- rewrite lookup_insert_ne by done. by rewrite Hother.
      * exists pt'. by rewrite lookup_insert_ne.
Qed.

Lemma get_mapped_pages_iff pt page :
  page ∈ PageTable.get_mapped_pages pt ↔
  ∃ e, PageTable.entries pt !! page = Some e ∧ PageTableEntry.present_bit e = true.
Proof.
  split; [apply get_mapped_pages_present|].
  intros (e & He & Hp). unfold PageTable.get_mapped_pages.
  apply list_elem_of_fmap. exists (page, e). split; [done|].
  apply elem_of_map_to_list. by apply map_lookup_filter_Some.
Qed.

Lemma release_page_keeps_free pt pm page (i : nat) g :
  PhysicalMemory.frames pm !! i = Some g → Frame.status g = FREE →
  ∃ g', PhysicalMemory.frames (release_page pt pm page) !! i = Some g' ∧
        Frame.status g' = FREE.
Proof.
  intros Hi Hfree. unfold release_page.
  destruct (PageTable.get_entry page pt) as [e|]; [|by eauto].
  destruct (PageTableEntry.frame_id e) as [fid|]; [|by eauto].
  destruct (PhysicalMemory.get_frame fid pm) as [frame|] eqn:Hframe; [|by eauto].
  unfold PhysicalMemory.get_frame in Hframe. case_bool_decide; [|done].
  unfold PhysicalMemory.update_frame. simpl.
  destruct (decide (Z.to_nat fid = i)) as [Heq|Hne].
  - rewrite Heq in *. rewrite Hi in Hframe. injection Hframe as <-.
    rewrite list_lookup_insert_eq by (by eapply lookup_lt_Some).
    eexists. split; [done|]. unfold Frame.deallocate.
    by rewrite bool_decide_eq_false_2 by congruence.
  - rewrite list_lookup_insert_ne by done. by eauto.
Qed.

Lemma release_pages_keep_free pt (l : list Z) pm (i : nat) g :
  PhysicalMemory.frames pm !! i = Some g → Frame.status g = FREE →
  ∃ g', PhysicalMemory.frames (foldl (release_page pt) pm l) !! i = Some g' ∧
        Frame.status g' = FREE.
Proof.
  revert pm g. induction l as [|page l IH]; intros pm g Hi Hfree; [by eauto|].
  cbn [foldl].
  destruct (release_page_keeps_free pt pm page i g Hi Hfree) as (g' & ? & ?).
  by eapply IH.
Qed.

Lemma release_pages_frees pt (l : list Z) pm page e (i : nat) :
  page ∈ l → PageTable.entries pt !! page = Some e →
  PageTableEntry.frame_id e = Some (Z.of_nat i) →
  (i < length (PhysicalMemory.frames pm))%nat →
  ∃ g, PhysicalMemory.frames (foldl (release_page pt) pm l) !! i = Some g ∧
       Frame.status g = FREE.
Proof.
  intros Hin He Hfid. revert pm. induction l as [|page' l IH]; intros pm Hlt.
  { by apply elem_of_nil in Hin. }
  cbn [foldl]. destruct (decide (page' = page)) as [->|Hne].
  - destruct (lookup_lt_is_Some_2 _ _ Hlt) as [g Hg].
    apply (release_pages_keep_free pt l _ i (Frame.deallocate g).2).
    + unfold release_page, PageTable.get_entry. rewrite He, Hfid.
      rewrite (get_frame_of_nat _ _ _ Hg).
      unfold PhysicalMemory.update_frame. simpl. rewrite Nat2Z.id.
      by apply list_lookup_insert_eq.
    + unfold Frame.deallocate. case_bool_decide as Hst; simpl; [done|].
      by destruct (Frame.status g).
  - apply elem_of_cons in Hin as [?|Hin]; [congruence|].
    apply IH; [done|].
    unfold release_page.
    destruct (PageTable.get_entry page' pt) as [e'|]; [|done].
    destruct (PageTableEntry.frame_id e'); [|done].
    destruct (PhysicalMemory.get_frame _ _); [|done].
    unfold PhysicalMemory.update_frame. simpl. by rewrite length_insert.
Qed.

(** What [remove_process] does to an existing process in a state that
    satisfies the invariants. *)
Lemma remove_process_cases pid s pt :
  paging_inv s → frames_owned s →
  page_tables s !! pid = Some pt →
  let s' := (remove_process pid s).2 in
  (remove_process pid s).1 = true ∧
  page_tables s' = delete pid (page_tables s) ∧
  processes s' = delete pid (processes s) ∧
  same_configuration s s' ∧
  allocator s' = allocator s ∧
  page_faults s' = page_faults s ∧
  successful_translations s' = successful_translations s ∧
  length (sim_frames s') = length (sim_frames s) ∧
  ∀ (j : nat) g,
    sim_frames s !! j = Some g →
    (Frame.process_id g = Some pid →
     sim_frames s' !! j
     = Some (Frame.mk (Frame.frame_id g) (Frame.size g) FREE None None 0)) ∧
    (Frame.process_id g ≠ Some pid → sim_frames s' !! j = Some g).
Proof.
  intros (I1 & I2 & I3 & I4) (Hlen & Hid & Hown) Hpt. cbv zeta.
  unfold remove_process. rewrite Hpt. cbn [fst snd].
  assert (∀ page e, page ∈ PageTable.get_mapped_pages pt →
            PageTable.entries pt !! page = Some e →
            ∃ (i : nat) f, PageTableEntry.frame_id e = Some (Z.of_nat i) ∧
              PhysicalMemory.frames (physical_memory s) !! i = Some f ∧
              Frame.process_id f = Some pid) as Hmapped.
  { intros page e Hin He.
    destruct (get_mapped_pages_present _ _ Hin) as (e' & He' & Hp).
    rewrite He in He'. injection He' as <-.
    destruct (I4 pid page e) as (i & f & ? & ? & ? & ? & ?); [by exists pt|].
    by exists i, f. }
  destruct (release_pages_spec pid pt (physical_memory s)
              (PageTable.get_mapped_pages pt) Hmapped (physical_memory s))
    as [Hsize Hfr]; [by left|].
  cbv zeta in Hsize, Hfr.
  set (pm' := foldl (release_page pt) (physical_memory s)
                (PageTable.get_mapped_pages pt)) in *.
  assert (PhysicalMemory.num_frames pm'
          = PhysicalMemory.num_frames (physical_memory s) ∧
          PhysicalMemory._next_frame_id pm'
          = PhysicalMemory._next_frame_id (physical_memory s)) as [Hnf Hnext].
  { unfold pm'. generalize (PageTable.get_mapped_pages pt) (physical_memory s).
    intros l. induction l as [|page l IH]; intros pm; [done|]. cbn [foldl].
    destruct (IH (release_page pt pm page)) as [-> ->].
    unfold release_page.
    destruct (PageTable.get_entry page pt) as [e|]; [|done].
    destruct (PageTableEntry.frame_id e); [|done].
    by destruct (PhysicalMemory.get_frame _ _). }
  assert (∀ (j : nat) g,
    sim_frames s !! j = Some g →
    (Frame.process_id g = Some pid →
     PhysicalMemory.frames pm' !! j
     = Some (Frame.mk (Frame.frame_id g) (Frame.size g) FREE None None 0)) ∧
    (Frame.process_id g ≠ Some pid → PhysicalMemory.frames pm' !! j = Some g))
    as Hframes.
  { intros j g Hj. split.
    - intros Hpid. destruct (Hown j g Hj) as [_ Hst].
      destruct (Frame.status g) eqn:Hstatus; [destruct Hst; congruence|].
      destruct Hst as (pid' & page & e & Hp' & _ & (pt' & Hpt' & He & Hp) & Hfid).
      assert (pid' = pid) as -> by congruence.
      rewrite Hpt in Hpt'. injection Hpt' as <-.
      destruct (release_pages_frees pt (PageTable.get_mapped_pages pt)
                  (physical_memory s) page e j) as (g' & Hg' & Hfree); try done.
      { apply get_mapped_pages_iff. by exists e. }
      { by eapply lookup_lt_Some. }
      fold pm' in Hg'.
      destruct (Hfr j) as [Heq|(g0 & Hg0 & _ & Hd)].
      + rewrite Hg' in Heq. unfold sim_frames in Hj. rewrite Hj in Heq.
        injection Heq as ->. congruence.
      + unfold sim_frames in Hj. rewrite Hj in Hg0. injection Hg0 as <-.
        rewrite Hd. unfold Frame.deallocate.
        by rewrite bool_decide_eq_true_2.
    - intros Hpid. destruct (Hfr j) as [Heq|(g0 & Hg0 & Hown0 & _)].
      + by rewrite Heq.
      + unfold sim_frames in Hj. rewrite Hj in Hg0. injection Hg0 as <-. done. }
  simpl. split_and!; try done.
  unfold sim_frames. simpl.
  apply Nat.le_antisymm; apply Nat.nlt_ge; intros Hlt.
  - destruct (lookup_lt_is_Some_2 _ _ Hlt) as [g Hg].
    destruct (Hfr (length (PhysicalMemory.frames (physical_memory s))))
      as [Heq|(? & Hd & _)].
    + rewrite Hg in Heq. by rewrite lookup_ge_None_2 in Heq.
    + by rewrite lookup_ge_None_2 in Hd.
  - destruct (lookup_lt_is_Some_2 _ _ Hlt) as [g Hg].
    destruct (Hfr (length (PhysicalMemory.frames pm'))) as [Heq|(? & _ & _ & Hd)].
    + rewrite Hg in Heq. by rewrite lookup_ge_None_2 in Heq.
    + by rewrite lookup_ge_None_2 in Hd.
Qed.

Lemma frames_owned_remove_process pid s :
  paging_inv s → frames_owned s → frames_owned (remove_process pid s).2.
Proof.
  intros Hinv Hown'. pose proof Hown' as (Hlen & Hid & Hown).
  destruct (page_tables s !! pid) as [pt|] eqn:Hpt.
  2: { unfold remove_process. by rewrite Hpt. }
  destruct (remove_process_cases pid s pt Hinv Hown' Hpt)
    as (_ & Htb & _ & (Hnf & Hfs & Hnext & _) & _ & _ & _ & Hlen' & Hfr).
  cbv zeta in *. unfold frames_owned. rewrite Hnf, Hfs, Hnext, Hlen'.
  split_and!; [done..|].
  intros j g' Hj.
  destruct (lookup_lt_is_Some_2 (sim_frames s) j) as [g Hg].
  { rewrite <- Hlen'. by eapply lookup_lt_Some. }
  destruct (Hfr j g Hg) as [Hfreed Hkept].
  destruct (Hown j g Hg) as [Hsize Hst].
  destruct (decide (Frame.process_id g = Some pid)) as [Hp|Hp].
  - rewrite (Hfreed Hp) in Hj. by injection Hj as <-.
  - rewrite (Hkept Hp) in Hj. injection Hj as <-. split; [done|].
    destruct (Frame.status g); [done|].
    destruct Hst as (pid' & page & e & ? & ? & (pt' & Hpt' & He & Hpe) & Hfid).
    exists pid', page, e. split_and!; try done.
    exists pt'. rewrite Htb. rewrite lookup_delete_ne by congruence. done.
Qed.

Lemma paging_reachable_owned s : paging_reachable s → frames_owned s.
Proof.
  induction 1 as [num_frames frame_size strategy|op s Hreach IH].
  - apply frames_owned_init.
  - pose proof (paging_reachable_inv s Hreach) as Hinv.
    destruct op; simpl.
    + by apply frames_owned_create_process.
    + by apply frames_owned_allocate_page.
    + by apply frames_owned_deallocate_page.
    + by apply frames_owned_remove_process.
    + by apply frames_owned_translate_address.
    + by apply frames_owned_access_page.
    + by apply frames_owned_reset.
    + by apply frames_owned_set_allocation_strategy.
Qed.

End PagingCases.

Section PagingLifecycle.
Import PagingSimulator.

Implicit Types (s : PagingSimulator.t) (pt : PageTable.t)
  (e : PageTableEntry.t) (f g : Frame.t).

Lemma translate_address_present s pid page fid k pt e :
  paging_inv s →
  page_tables s !! pid = Some pt →
  PageTable.entries pt !! page = Some e →
  PageTableEntry.present_bit e = true →
  PageTableEntry.frame_id e = Some fid →
  0 ≤ k < PageTable.page_size pt →
  translate_address pid (page * PageTable.page_size pt + k) s
  = Ret (Some (Some (fid * PhysicalMemory.frame_size (physical_memory s) + k),
               k, false))
        (count_success
           (update_entry pid page (PageTableEntry.mark_referenced e) s)).
Proof.
  intros (_ & I2 & _ & I4) Hpt He Hp Hf Hk.
  destruct (I4 pid page e) as (i & g & Hi & Hg & _); [by exists pt|].
  rewrite Hf in Hi. injection Hi as ->.
  unfold translate_address, PageTable.translate_address, PageTable.get_entry.
  rewrite Hpt. rewrite decide_False by lia.
  rewrite Z.div_add_l by lia. rewrite Z.div_small by lia.
  rewrite Z.add_0_r.
  rewrite Z.add_comm, Z.mod_add by lia. rewrite Z.mod_small by lia.
  rewrite He, Hp, Hf. rewrite (get_frame_of_nat _ _ _ Hg).
  by rewrite Z.add_comm.
Qed.

Lemma set_page_tables_id s pid pt :
  page_tables s !! pid = Some pt →
  set_page_tables (<[pid := pt]> (page_tables s)) s = s.
Proof.
  intros Hpt. rewrite insert_id by done. by destruct s.
Qed.

(** A successful [allocate_page] leaves the page present and mapped to
    the frame it returns. *)
Lemma allocate_page_maps s pid page size fid s' :
  paging_inv s →
  allocate_page pid page size s = Ret (Some fid) s' →
  same_configuration s s' ∧
  ∃ pt' e, page_tables s' !! pid = Some pt' ∧
           PageTable.entries pt' !! page = Some e ∧
           PageTableEntry.present_bit e = true ∧
           PageTableEntry.frame_id e = Some fid.
Proof.
  intros Hinv Hout.
  destruct (page_tables s !! pid) as [pt|] eqn:Hpt.
  2: { unfold allocate_page in Hout. by rewrite Hpt in Hout. }
  destruct (allocate_page_cases pid page size s pt Hinv Hpt)
    as (Hcfg & _ & _ & Hcase).
  cbv zeta in Hcfg, Hcase. rewrite Hout in Hcfg, Hcase. simpl in Hcfg, Hcase.
  split; [done|].
  destruct (touched_entry_spec page pt) as (He1 & _ & _ & _ & Hold).
  cbv zeta in He1, Hold.
  destruct Hcase as [(r & [= <-] & _ & Htb & _ & Hr)|(i & f & [= ->] & _ & _ & _ & _ & Htb & _)].
  - destruct Hr as [[? _]|(Hp & _ & Hfid & He)]; [done|].
    rewrite He in Hold. destruct Hold as [_ Hpt1].
    exists pt, (touched_entry page pt).1. rewrite Htb, Hpt1.
    by rewrite lookup_insert_eq.
  - eexists _, _. rewrite Htb, lookup_insert_eq. split; [done|].
    unfold PageTable.update_entry. simpl. rewrite lookup_insert_eq.
    by split_and!.
Qed.

End PagingLifecycle.

Section PagingLifecycleTheorems.
Import PagingSimulator.

(** X11.  No frame is leaked or mislabelled: in every reachable state the
    pool holds [num_frames] frames, frame [i] has id [i] and the
    configured size, a FREE frame records no owner, no page and no
    allocated size, and an ALLOCATED frame records the process and page
    of a present page-table entry whose frame id is [i]. *)
Theorem allocated_frame_has_present_entry (s : PagingSimulator.t)
    (i : nat) (f : Frame.t) :
  paging_reachable s →
  sim_frames s !! i = Some f →
  length (sim_frames s)
  = Z.to_nat (PhysicalMemory.num_frames (physical_memory s)) ∧
  Frame.frame_id f = Z.of_nat i ∧
  Frame.size f = PhysicalMemory.frame_size (physical_memory s) ∧
  match Frame.status f with
  | FREE =>
      Frame.process_id f = None ∧ Frame.page_id f = None ∧
      Frame.allocated_size f = 0
  | ALLOCATED =>
      ∃ pid page e,
        Frame.process_id f = Some pid ∧ Frame.page_id f = Some page ∧
        present_entry s pid page e ∧
        PageTableEntry.frame_id e = Some (Z.of_nat i)
  end.
Proof.
  intros Hreach Hi.
  destruct (paging_reachable_inv s Hreach) as (I1 & _).
  destruct (paging_reachable_owned s Hreach) as (Hlen & _ & Hown).
  destruct (Hown i f Hi) as [Hsize Hst].
  split_and!; [done|by apply I1|done..].
Qed.

Lemma allocated_frame_has_present_entry_witness :
  ∃ e, present_entry two_process_simulator 2 0 e ∧
       PageTableEntry.frame_id e = Some 1.
Proof.
  destruct (allocated_frame_has_present_entry two_process_simulator 1
              (Frame.mk 1 16 ALLOCATED (Some 2) (Some 0) 16)
              two_process_simulator_reachable eq_refl)
    as (_ & _ & _ & pid & page & e & Hpid & Hpage & He & Hf).
  simpl in Hpid, Hpage. injection Hpid as <-. injection Hpage as <-.
  by exists e.
Defined.

(** X12.  [reset] brings every reachable simulator back to the state the
    constructor gives for the same number of frames, frame size and
    allocation strategy. *)
Theorem reset_restores_fresh_simulator (s : PagingSimulator.t) :
  paging_reachable s →
  reset s
  = init (PhysicalMemory.num_frames (physical_memory s))
         (PhysicalMemory.frame_size (physical_memory s))
         (MemoryAllocator.strategy (allocator s)).
Proof.
  intros Hreach.
  destruct (paging_reachable_inv s Hreach) as (I1 & _).
  destruct (paging_reachable_owned s Hreach) as (Hlen & Hnext & Hown).
  unfold reset, init, MemoryAllocator.init. f_equal.
  unfold PhysicalMemory.reset, PhysicalMemory.init, PhysicalMemory.set_frames.
  rewrite Hnext. f_equal.
  apply list_eq. intros i. rewrite !list_lookup_fmap.
  fold (sim_frames s).
  destruct (sim_frames s !! i) as [f|] eqn:Hi; simpl.
  - pose proof (lookup_lt_Some _ _ _ Hi) as Hlt. rewrite Hlen in Hlt.
    rewrite lookup_seq_lt by done. simpl.
    destruct (Hown i f Hi) as [Hsize Hst]. specialize (I1 i f Hi).
    unfold Frame.deallocate, Frame.init. f_equal.
    destruct f as [fi fs st fp fg fa]. simpl in *. subst fi fs.
    destruct st; simpl; [|done].
    by destruct Hst as (-> & -> & ->).
  - apply lookup_ge_None_1 in Hi. rewrite Hlen in Hi.
    by rewrite lookup_seq_ge.
Qed.

Lemma reset_restores_fresh_simulator_witness :
  reset two_process_simulator = init 2 16 BEST_FIT.
Proof.
  apply (reset_restores_fresh_simulator two_process_simulator
           two_process_simulator_reachable).
Defined.

(** X13.  [remove_process] on an existing process returns [True], drops
    the process and its page table, leaves the other page tables alone,
    turns every frame owned by the process into a blank free frame and
    leaves every other frame as it was; so the frame of each of its
    mapped pages is free afterwards. *)
Theorem remove_process_frees_its_frames (s : PagingSimulator.t)
    (pid : Z) (pt : PageTable.t) :
  paging_reachable s →
  page_tables s !! pid = Some pt →
  let s' := (remove_process pid s).2 in
  (remove_process pid s).1 = true ∧
  page_tables s' !! pid = None ∧ processes s' !! pid = None ∧
  (∀ pid', pid' ≠ pid →
           page_tables s' !! pid' = page_tables s !! pid' ∧
           processes s' !! pid' = processes s !! pid') ∧
  (∀ (j : nat) g,
     sim_frames s !! j = Some g →
     (Frame.process_id g = Some pid →
      sim_frames s' !! j = Some (Frame.init (Frame.frame_id g) (Frame.size g))) ∧
     (Frame.process_id g ≠ Some pid → sim_frames s' !! j = Some g)) ∧
  (∀ page e fid,
     PageTable.entries pt !! page = Some e →
     PageTableEntry.present_bit e = true →
     PageTableEntry.frame_id e = Some fid →
     ∃ g, sim_frames s' !! Z.to_nat fid = Some g ∧ Frame.status g = FREE).
Proof.
  intros Hreach Hpt.
  pose proof (paging_reachable_inv s Hreach) as Hinv.
  pose proof (paging_reachable_owned s Hreach) as Hown.
  destruct (remove_process_cases pid s pt Hinv Hown Hpt)
    as (Hr & Htb & Hps & _ & _ & _ & _ & _ & Hfr).
  cbv zeta in *. rewrite Htb, Hps.
  split_and!; [done|by apply lookup_delete_eq|by apply lookup_delete_eq| |done|].
  - intros pid' Hne. by rewrite !lookup_delete_ne.
  - intros page e fid He Hp Hfid.
    destruct Hinv as (_ & _ & _ & I4).
    destruct (I4 pid page e) as (i & g & Hi & Hg & _ & Hpid & _);
      [by exists pt|].
    rewrite Hfid in Hi. injection Hi as ->. rewrite Nat2Z.id.
    destruct (Hfr i g Hg) as [Hfreed _]. rewrite (Hfreed Hpid). by eexists.
Qed.

Lemma remove_process_frees_its_frames_witness :
  sim_frames (remove_process 2 two_process_simulator).2 !! 1%nat
  = Some (Frame.init 1 16).
Proof.
  destruct (page_tables two_process_simulator !! 2) as [pt|] eqn:Hpt;
    [|vm_compute in Hpt; discriminate].
  destruct (remove_process_frees_its_frames two_process_simulator 2 pt
              two_process_simulator_reachable Hpt)
    as (_ & _ & _ & _ & Hfr & _).
  apply (proj1 (Hfr 1%nat (Frame.mk 1 16 ALLOCATED (Some 2) (Some 0) 16) eq_refl)).
  reflexivity.
Defined.



(** X15.  [allocate_page] is idempotent on a mapped page: once it has
    returned frame [fid] for a page, asking again (with any size) returns
    [fid] again and changes nothing. *)
Theorem allocate_page_again_same_frame (s s' : PagingSimulator.t)
    (pid page fid : Z) (size size' : option Z) :
  paging_reachable s →
  allocate_page pid page size s = Ret (Some fid) s' →
  allocate_page pid page size' s' = Ret (Some fid) s'.
Proof.
  intros Hreach Hout.
  pose proof (paging_reachable_inv s Hreach) as Hinv.
  destruct (allocate_page_maps s pid page size fid s' Hinv Hout)
    as (_ & pt' & e & Hpt' & He & Hp & Hfid).
  unfold allocate_page, PageTable.get_entry. rewrite Hpt', He, Hp, Hfid.
  by rewrite set_page_tables_id.
Qed.

Lemma allocate_page_again_same_frame_witness :
  allocate_page 2 0 (Some 3) two_process_simulator
  = Ret (Some 1) two_process_simulator.
Proof.
  apply (allocate_page_again_same_frame
           (foldl (λ s op, paging_exec op s) (init 2 16 BEST_FIT)
              [PagingOp.CreateProcess 1 0; PagingOp.CreateProcess 2 0;
               PagingOp.AllocatePage 1 0 None])
           two_process_simulator 2 0 1 None (Some 3)).
  - cbn [foldl]. repeat apply paging_after. apply paging_fresh.
  - vm_compute. reflexivity.
Defined.

(** X16.  [deallocate_page] on a present page returns [True], turns
    the page's frame into a blank free frame, leaves the other frames
    alone and unmaps the entry; a second call finds nothing to release:
    it returns [False] and changes nothing. *)
Theorem deallocate_page_frees_frame_once (s : PagingSimulator.t)
    (pid page : Z) (e : PageTableEntry.t) :
  paging_reachable s →
  present_entry s pid page e →
  let s' := (deallocate_page pid page s).2 in
  (deallocate_page pid page s).1 = true ∧
  (∃ (i : nat) f,
     PageTableEntry.frame_id e = Some (Z.of_nat i) ∧
     sim_frames s !! i = Some f ∧
     sim_frames s' = <[i := Frame.init (Z.of_nat i) (Frame.size f)]> (sim_frames s)) ∧
  (∃ pt', page_tables s' !! pid = Some pt' ∧
          PageTable.entries pt' !! page = Some (PageTableEntry.unmap_frame e)) ∧
  deallocate_page pid page s' = (false, s').
Proof.
  intros Hreach He.
  pose proof (paging_reachable_inv s Hreach) as Hinv.
  assert (paging_inv (deallocate_page pid page s).2) as Hinv'.
  { apply paging_reachable_inv.
    by apply (paging_after (PagingOp.DeallocatePage pid page)). }
  destruct (deallocate_page_cases pid page s Hinv)
    as [[_ Hno]|(pt & e0 & i & f & Hpt & He0 & Hp & Hfid & Hi & _ & Hr & Hfr
                 & Htb & _)].
  { by destruct (Hno e). }
  cbv zeta in *.
  destruct He as (pt' & Hpt' & He' & _).
  rewrite Hpt in Hpt'. injection Hpt' as <-.
  rewrite He0 in He'. injection He' as <-.
  destruct Hinv as (I1 & _). specialize (I1 i f Hi).
  split_and!.
  - done.
  - exists i, f. split_and!; [done..|]. rewrite Hfr. unfold Frame.init.
    by rewrite I1.
  - eexists. rewrite Htb, lookup_insert_eq. split; [done|].
    unfold PageTable.update_entry. simpl. by rewrite lookup_insert_eq.
  - destruct (deallocate_page_cases pid page _ Hinv')
      as [[Hsame _]|(pt2 & e2 & _ & _ & Hpt2 & He2 & Hp2 & _)]; [done|].
    rewrite Htb, lookup_insert_eq in Hpt2. injection Hpt2 as <-.
    unfold PageTable.update_entry in He2. simpl in He2.
    rewrite lookup_insert_eq in He2. injection He2 as <-. done.
Qed.

Lemma deallocate_page_frees_frame_once_witness :
  sim_frames (deallocate_page 2 0 two_process_simulator).2
  = <[1%nat := Frame.init 1 16]> (sim_frames two_process_simulator).
Proof.
  destruct (deallocate_page_frees_frame_once two_process_simulator 2 0
              (PageTableEntry.map_to_frame 1 (PageTableEntry.init 0))
              two_process_simulator_reachable)
    as (_ & (i & f & Hfid & Hi & Hfr) & _).
  - eexists. split; [reflexivity|]. split; reflexivity.
  - simpl in Hfid. injection Hfid as Hfid.
    assert (i = 1%nat) as -> by lia.
    vm_compute in Hi. injection Hi as <-. exact Hfr.
Defined.

End PagingLifecycleTheorems.

Section ProcessBookkeeping.
Import PagingSimulator.

Implicit Types (s : PagingSimulator.t) (pt : PageTable.t)
  (e : PageTableEntry.t) (f g : Frame.t).

Lemma mapped_pages_length pt :
  length (PageTable.get_mapped_pages pt)
  = size (filter (λ kv : Z * PageTableEntry.t,
                    PageTableEntry.present_bit kv.2 = true)
            (PageTable.entries pt)).
Proof.
  unfold PageTable.get_mapped_pages. by rewrite length_fmap, length_map_to_list.
Qed.

(** How writing an entry changes the number of mapped pages. *)
Lemma mapped_pages_update_entry pt page e' :
  let old := match PageTable.entries pt !! page with
             | Some e => PageTableEntry.present_bit e
             | None => false
             end in
  (length (PageTable.get_mapped_pages (PageTable.update_entry page e' pt))
   + (if old then 1 else 0)
   = length (PageTable.get_mapped_pages pt)
     + (if PageTableEntry.present_bit e' then 1 else 0))%nat.
Proof.
  cbv zeta. rewrite !mapped_pages_length. unfold PageTable.update_entry. simpl.
  set (P := λ kv : Z * PageTableEntry.t, PageTableEntry.present_bit kv.2 = true).
  set (m := PageTable.entries pt).
  assert (match m !! page with
          | Some e => PageTableEntry.present_bit e
          | None => false
          end = bool_decide (is_Some (filter P m !! page))) as ->.
  { destruct (filter P m !! page) as [e|] eqn:Hf.
    - apply map_lookup_filter_Some in Hf as [-> Hp]. simpl in Hp. rewrite Hp.
      by rewrite bool_decide_eq_true_2.
    - rewrite bool_decide_eq_false_2 by (by intros [? ?]).
      apply map_lookup_filter_None in Hf as [->|Hf]; [done|].
      destruct (m !! page) as [e|]; [|done].
      specialize (Hf e eq_refl). unfold P in Hf. simpl in Hf.
      by destruct (PageTableEntry.present_bit e). }
  destruct (PageTableEntry.present_bit e') eqn:Hp'.
  - rewrite map_filter_insert_True by done. rewrite map_size_insert.
    destruct (filter P m !! page) as [e|] eqn:Hf.
    + rewrite bool_decide_eq_true_2 by done. simpl. lia.
    + rewrite bool_decide_eq_false_2 by (by intros [? ?]). simpl. lia.
  - rewrite map_filter_insert_False by (unfold P; simpl; congruence).
    rewrite map_filter_delete, map_size_delete.
    destruct (filter P m !! page) as [e|] eqn:Hf.
    + rewrite bool_decide_eq_true_2 by done. simpl.
      pose proof (map_size_ne_0_lookup_2 (filter P m) page (mk_is_Some _ _ Hf)). lia.
    + rewrite bool_decide_eq_false_2 by (by intros [? ?]). simpl. lia.
Qed.

Lemma mapped_pages_update_entry_same pt page e e' :
  PageTable.entries pt !! page = Some e →
  PageTableEntry.present_bit e' = PageTableEntry.present_bit e →
  length (PageTable.get_mapped_pages (PageTable.update_entry page e' pt))
  = length (PageTable.get_mapped_pages pt).
Proof.
  intros He Hp. pose proof (mapped_pages_update_entry pt page e') as H.
  cbv zeta in H. rewrite He, Hp in H. lia.
Qed.

Lemma mapped_pages_none pt :
  (∀ page e, PageTable.entries pt !! page = Some e →
             PageTableEntry.present_bit e = false) →
  PageTable.get_mapped_pages pt = [].
Proof.
  intros Hnp. apply length_zero_iff_nil. rewrite mapped_pages_length.
  apply map_size_empty_iff, map_empty. intros page.
  apply map_lookup_filter_None.
  destruct (PageTable.entries pt !! page) as [e|] eqn:He; [right|by left].
  intros e' [= <-]. simpl. rewrite (Hnp page e He). done.
Qed.

Lemma mapped_pages_touched_entry pt page :
  length (PageTable.get_mapped_pages (touched_entry page pt).2)
  = length (PageTable.get_mapped_pages pt).
Proof.
  unfold touched_entry, PageTable.get_entry, PageTable.create_page.
  destruct (PageTable.entries pt !! page) as [e|] eqn:He; simpl; [done|].
  pose proof (mapped_pages_update_entry pt page (PageTableEntry.init page)) as H.
  cbv zeta in H. rewrite He in H. simpl in H.
  unfold PageTable.update_entry in H. lia.
Qed.

Lemma processes_inv_tables s s' :
  page_tables s' = page_tables s → processes s' = processes s →
  processes_inv s → processes_inv s'.
Proof. unfold processes_inv. by intros -> ->. Qed.

Lemma processes_inv_update_entry s pid page e e' pt :
  page_tables s !! pid = Some pt →
  PageTable.entries pt !! page = Some e →
  PageTableEntry.present_bit e' = PageTableEntry.present_bit e →
  processes_inv s → processes_inv (update_entry pid page e' s).
Proof.
  intros Hpt He Hp [Hdom Hcount]. unfold update_entry. rewrite Hpt.
  split; simpl.
  - intros pid'. rewrite Hdom. destruct (decide (pid' = pid)) as [->|Hne].
    + rewrite lookup_insert_eq, Hpt. split; by eauto.
    + by rewrite lookup_insert_ne.
  - intros pid' info pt' Hinfo Hpt'.
    destruct (decide (pid' = pid)) as [->|Hne].
    + rewrite lookup_insert_eq in Hpt'. injection Hpt' as <-.
      rewrite (mapped_pages_update_entry_same pt page e e' He Hp).
      by apply (Hcount pid).
    + rewrite lookup_insert_ne in Hpt' by done. by apply (Hcount pid').
Qed.

Lemma processes_inv_init num_frames frame_size strategy :
  processes_inv (init num_frames frame_size strategy).
Proof.
  split; simpl.
  - intros pid. rewrite !lookup_empty. done.
  - intros pid info pt Hinfo. by rewrite lookup_empty in Hinfo.
Qed.

Lemma processes_inv_reset s : processes_inv (reset s).
Proof.
  split; simpl.
  - intros pid. rewrite !lookup_empty. done.
  - intros pid info pt Hinfo. by rewrite lookup_empty in Hinfo.
Qed.

Lemma processes_inv_create_process pid num_pages s :
  processes_inv s → processes_inv (create_process pid num_pages s).2.
Proof.
  intros [Hdom Hcount]. unfold create_process.
  destruct (page_tables s !! pid) as [pt|] eqn:Hpt; [done|].
  split; simpl.
  - intros pid'. destruct (decide (pid' = pid)) as [->|Hne].
    + rewrite !lookup_insert_eq. split; by eauto.
    + rewrite !lookup_insert_ne by done. apply Hdom.
  - intros pid' info pt' Hinfo Hpt'.
    destruct (decide (pid' = pid)) as [->|Hne].
    + rewrite lookup_insert_eq in Hinfo. rewrite lookup_insert_eq in Hpt'.
      injection Hinfo as <-. injection Hpt' as <-. simpl.
      rewrite mapped_pages_none; [done|].
      apply (create_pages_not_present (seq 0 (Z.to_nat num_pages))
               (PageTable.init pid (PhysicalMemory.frame_size (physical_memory s)))).
      intros page e He. unfold PageTable.init in He.
      cbn [PageTable.entries] in He. by rewrite lookup_empty in He.
    + rewrite lookup_insert_ne in Hinfo by done.
      rewrite lookup_insert_ne in Hpt' by done. by apply (Hcount pid').
Qed.

Lemma processes_inv_remove_process pid s :
  processes_inv s → processes_inv (remove_process pid s).2.
Proof.
  intros [Hdom Hcount]. unfold remove_process.
  destruct (page_tables s !! pid) as [pt|] eqn:Hpt; [|done].
  split; simpl.
  - intros pid'. destruct (decide (pid' = pid)) as [->|Hne].
    + rewrite !lookup_delete_eq. split; by intros [? ?].
    + rewrite !lookup_delete_ne by done. apply Hdom.
  - intros pid' info pt' Hinfo Hpt'.
    destruct (decide (pid' = pid)) as [->|Hne].
    + by rewrite lookup_delete_eq in Hinfo.
    + rewrite lookup_delete_ne in Hinfo by done.
      rewrite lookup_delete_ne in Hpt' by done. by apply (Hcount pid').
Qed.

Lemma processes_inv_translate_address pid addr s :
  processes_inv s → processes_inv (state_after (translate_address pid addr s)).
Proof.
  intros Hinv. unfold translate_address.
  destruct (page_tables s !! pid) as [pt|] eqn:Hpt; [|done].
  destruct (PageTable.translate_address addr pt) as [[page offset]|]; [|done].
  unfold PageTable.get_entry.
  destruct (PageTable.entries pt !! page) as [e|] eqn:He; [|done].
  destruct (PageTableEntry.present_bit e) eqn:Hp;
    [destruct (PageTableEntry.frame_id e) eqn:Hf;
     [destruct (PhysicalMemory.get_frame _ _); [|done]|]|]; simpl.
  - apply (processes_inv_tables
             (update_entry pid page (PageTableEntry.mark_referenced e) s));
      [done..|].
    by apply (processes_inv_update_entry s pid page e _ pt).
  - by apply (processes_inv_update_entry (count_fault s) pid page e _ pt).
  - by apply (processes_inv_update_entry (count_fault s) pid page e _ pt).
Qed.

Lemma processes_inv_access_page pid page write s :
  processes_inv s → processes_inv (access_page pid page write s).2.
Proof.
  intros Hinv. unfold access_page.
  destruct (page_tables s !! pid) as [pt|] eqn:Hpt; [|done].
  unfold PageTable.get_entry.
  destruct (PageTable.entries pt !! page) as [e|] eqn:He; [|done].
  destruct (PageTableEntry.present_bit e) eqn:Hp; simpl; [|done].
  apply (processes_inv_tables
           (update_entry pid page
              (if write
               then PageTableEntry.mark_modified (PageTableEntry.mark_referenced e)
               else PageTableEntry.mark_referenced e) s));
    [done..|].
  apply (processes_inv_update_entry s pid page e _ pt); try done.
  by destruct write.
Qed.

Lemma processes_inv_allocate_page pid page size s :
  paging_inv s → processes_inv s →
  processes_inv (state_after (allocate_page pid page size s)).
Proof.
  intros Hinv [Hdom Hcount].
  destruct (page_tables s !! pid) as [pt|] eqn:Hpt.
  2: { unfold allocate_page. by rewrite Hpt. }
  destruct (allocate_page_cases pid page size s pt Hinv Hpt)
    as (_ & _ & _ & Hcase).
  cbv zeta in Hcase.
  set (s' := state_after (allocate_page pid page size s)) in *.
  destruct (touched_entry_spec page pt) as (He1 & _ & _ & _ & Hold).
  cbv zeta in He1, Hold.
  pose proof (mapped_pages_touched_entry pt page) as Hlen1.
  destruct Hcase as [(r & _ & _ & Htb & Hps & _)
                    |(i & f & _ & Hnp & _ & _ & _ & Htb & Hps)].
  - split.
    + intros pid'. rewrite Htb, Hps, Hdom.
      destruct (decide (pid' = pid)) as [->|Hne].
      * rewrite lookup_insert_eq, Hpt. split; by eauto.
      * by rewrite lookup_insert_ne.
    + intros pid' info pt'. rewrite Htb, Hps. intros Hinfo Hpt'.
      destruct (decide (pid' = pid)) as [->|Hne].
      * rewrite lookup_insert_eq in Hpt'. injection Hpt' as <-.
        rewrite Hlen1. by apply (Hcount pid).
      * rewrite lookup_insert_ne in Hpt' by done. by apply (Hcount pid').
  - assert (PageTableEntry.present_bit (touched_entry page pt).1 = false) as Hp.
    { destruct (PageTable.entries pt !! page) as [e|] eqn:He.
      - destruct Hold as [Hent _]. rewrite Hent.
        destruct (PageTableEntry.present_bit e) eqn:Hpe; [|done].
        destruct Hnp. exists pt. by rewrite Hent.
      - destruct Hold as [-> _]. done. }
    pose proof (mapped_pages_update_entry (touched_entry page pt).2 page
                  (PageTableEntry.map_to_frame (Z.of_nat i)
                     (touched_entry page pt).1)) as Hlen2.
    cbv zeta in Hlen2. rewrite He1, Hp in Hlen2. simpl in Hlen2.
    destruct (proj2 (Hdom pid)) as [info0 Hinfo0]; [by eauto|].
    rewrite Hinfo0 in Hps.
    split.
    + intros pid'. rewrite Htb, Hps.
      destruct (decide (pid' = pid)) as [->|Hne].
      * rewrite !lookup_insert_eq. split; by eauto.
      * rewrite !lookup_insert_ne by done. apply Hdom.
    + intros pid' info pt'. rewrite Htb, Hps. intros Hinfo Hpt'.
      destruct (decide (pid' = pid)) as [->|Hne].
      * rewrite lookup_insert_eq in Hinfo. rewrite lookup_insert_eq in Hpt'.
        injection Hinfo as <-. injection Hpt' as <-. simpl.
        rewrite (Hcount pid info0 pt Hinfo0 Hpt). lia.
      * rewrite lookup_insert_ne in Hinfo by done.
      rewrite lookup_insert_ne in Hpt' by done. by apply (Hcount pid').
Qed.

Lemma processes_inv_deallocate_page pid page s :
  paging_inv s → processes_inv s →
  processes_inv (deallocate_page pid page s).2.
Proof.
  intros Hinv [Hdom Hcount].
  destruct (deallocate_page_cases pid page s Hinv)
    as [[-> _]|(pt & e & i & f & Hpt & He & Hp & _ & _ & _ & _ & _ & Htb & _
                & _ & _ & _ & Hps)]; [done|].
  cbv zeta in *.
  pose proof (mapped_pages_update_entry pt page (PageTableEntry.unmap_frame e))
    as Hlen.
  cbv zeta in Hlen. rewrite He, Hp in Hlen. simpl in Hlen.
  destruct (proj2 (Hdom pid)) as [info0 Hinfo0]; [by eauto|].
  rewrite Hinfo0 in Hps.
  split.
  - intros pid'. rewrite Htb, Hps.
    destruct (decide (pid' = pid)) as [->|Hne].
    + rewrite !lookup_insert_eq. split; by eauto.
    + rewrite !lookup_insert_ne by done. apply Hdom.
  - intros pid' info pt'. rewrite Htb, Hps. intros Hinfo Hpt'.
    destruct (decide (pid' = pid)) as [->|Hne].
    + rewrite lookup_insert_eq in Hinfo. rewrite lookup_insert_eq in Hpt'.
      injection Hinfo as <-. injection Hpt' as <-. simpl.
      rewrite (Hcount pid info0 pt Hinfo0 Hpt). lia.
    + rewrite lookup_insert_ne in Hinfo by done.
      rewrite lookup_insert_ne in Hpt' by done. by apply (Hcount pid').
Qed.

Lemma paging_reachable_processes s : paging_reachable s → processes_inv s.
Proof.
  induction 1 as [num_frames frame_size strategy|op s Hreach IH].
  - apply processes_inv_init.
  - pose proof (paging_reachable_inv s Hreach) as Hinv.
    destruct op; simpl.
    + by apply processes_inv_create_process.
    + by apply processes_inv_allocate_page.
    + by apply processes_inv_deallocate_page.
    + by apply processes_inv_remove_process.
    + by apply processes_inv_translate_address.
    + by apply processes_inv_access_page.
    + apply processes_inv_reset.
    + by apply (processes_inv_tables s).
Qed.

End ProcessBookkeeping.

Section ProcessBookkeepingTheorems.
Import PagingSimulator.

(** X17.  In every reachable state the [processes] dictionary lists
    exactly the processes that have a page table, and the
    [allocated_pages] counter of a process equals the number of mapped
    pages that [get_stats] reports for its page table. *)
Theorem allocated_pages_counts_mapped_pages (s : PagingSimulator.t) (pid : Z) :
  paging_reachable s →
  (is_Some (processes s !! pid) ↔ is_Some (page_tables s !! pid)) ∧
  ∀ info pt,
    processes s !! pid = Some info →
    page_tables s !! pid = Some pt →
    allocated_pages info = Z.of_nat (mapped_pages (PageTable.get_stats pt)).
Proof.
  intros Hreach. destruct (paging_reachable_processes s Hreach) as [Hdom Hcount].
  split; [apply Hdom|]. intros info pt Hinfo Hpt. simpl. by apply (Hcount pid).
Qed.

Lemma allocated_pages_counts_mapped_pages_witness :
  ∃ info,
    processes two_process_simulator !! 2 = Some info ∧
    allocated_pages info
    = Z.of_nat
        (mapped_pages
           (PageTable.get_stats
              (PageTable.mk 2 16
                 {[ 0 := PageTableEntry.map_to_frame 1 (PageTableEntry.init 0) ]}))).
Proof.
  exists (mkProcessInfo 0 1). split; [vm_compute; reflexivity|].
  apply (proj2 (allocated_pages_counts_mapped_pages two_process_simulator 2
                  two_process_simulator_reachable));
    vm_compute; reflexivity.
Defined.

End ProcessBookkeepingTheorems.

Section FrameCounts.
Import PagingSimulator.

Implicit Types (s : PagingSimulator.t) (pt : PageTable.t)
  (e : PageTableEntry.t) (f g : Frame.t).

Lemma filter_length_insert {A} (P : A → Prop) `{!∀ x, Decision (P x)}
    (l : list A) (i : nat) (x y : A) :
  l !! i = Some y →
  (length (filter P (<[i := x]> l)) + (if decide (P y) then 1 else 0)
   = length (filter P l) + (if decide (P x) then 1 else 0))%nat.
Proof.
  revert i. induction l as [|z l IH]; intros [|i] Hi; simpl in Hi; try done.
  - injection Hi as ->. simpl. rewrite !filter_cons.
    destruct (decide (P x)), (decide (P y)); simpl; lia.
  - simpl. rewrite !filter_cons. specialize (IH i Hi).
    destruct (decide (P z)); simpl; lia.
Qed.

Lemma filter_length_pointwise {A} (P : A → Prop) `{!∀ x, Decision (P x)}
    (l l' : list A) :
  length l = length l' →
  (∀ (i : nat) x y, l !! i = Some x → l' !! i = Some y → (P x ↔ P y)) →
  length (filter P l) = length (filter P l').
Proof.
  revert l'. induction l as [|x l IH]; intros [|y l'] Hlen Hp; simpl in Hlen;
    try done.
  rewrite !filter_cons.
  pose proof (Hp 0%nat x y eq_refl eq_refl) as Hxy.
  assert (length (filter P l) = length (filter P l')) as Hrest.
  { apply IH; [lia|]. intros i x' y' Hx' Hy'. by apply (Hp (S i)). }
  destruct (decide (P x)), (decide (P y)); simpl; tauto || lia.
Qed.

Lemma filter_length_none {A} (P : A → Prop) `{!∀ x, Decision (P x)}
    (l : list A) :
  (∀ (i : nat) x, l !! i = Some x → ¬ P x) → length (filter P l) = 0%nat.
Proof.
  induction l as [|x l IH]; intros Hp; [done|].
  rewrite filter_cons. destruct (decide (P x)) as [Hx|_].
  - by destruct (Hp 0%nat x eq_refl).
  - apply IH. intros i y Hy. by apply (Hp (S i)).
Qed.

Lemma frame_count_inv_same s s' :
  sim_frames s' = sim_frames s →
  (∀ pid, mapped_of s' pid = mapped_of s pid) →
  frame_count_inv s → frame_count_inv s'.
Proof. intros Hfr Hm Hinv pid. by rewrite Hfr, Hm. Qed.

Lemma mapped_of_update_entry s pid page e e' pt pid' :
  page_tables s !! pid = Some pt →
  PageTable.entries pt !! page = Some e →
  PageTableEntry.present_bit e' = PageTableEntry.present_bit e →
  mapped_of (update_entry pid page e' s) pid' = mapped_of s pid'.
Proof.
  intros Hpt He Hp. unfold mapped_of, update_entry. rewrite Hpt. simpl.
  destruct (decide (pid' = pid)) as [->|Hne].
  - rewrite lookup_insert_eq, Hpt.
    by apply (mapped_pages_update_entry_same pt page e e').
  - by rewrite lookup_insert_ne.
Qed.

Lemma frame_count_inv_init num_frames frame_size strategy :
  frame_count_inv (init num_frames frame_size strategy).
Proof.
  intros pid. unfold mapped_of, frames_of. simpl.
  apply filter_length_none. intros i f Hi.
  apply list_lookup_fmap_Some in Hi as (j & -> & _). done.
Qed.

Lemma frame_count_inv_reset s :
  frames_owned s → frame_count_inv (reset s).
Proof.
  intros (_ & _ & Hown) pid. unfold mapped_of, frames_of. simpl.
  apply filter_length_none. intros i f Hi.
  apply list_lookup_fmap_Some in Hi as (g & -> & Hg).
  destruct (Hown i g Hg) as [_ Hst]. unfold Frame.deallocate.
  destruct (Frame.status g) eqn:Hs; simpl; [|done].
  destruct Hst as (-> & _). done.
Qed.

Lemma frame_count_inv_create_process pid num_pages s :
  frame_count_inv s → frame_count_inv (create_process pid num_pages s).2.
Proof.
  intros Hinv. unfold create_process.
  destruct (page_tables s !! pid) as [pt|] eqn:Hpt; [done|].
  intros pid'. specialize (Hinv pid'). unfold mapped_of, sim_frames in *.
  cbn [snd physical_memory page_tables set_processes set_page_tables].
  destruct (decide (pid' = pid)) as [->|Hne].
  - rewrite lookup_insert_eq. rewrite Hpt in Hinv.
    rewrite mapped_pages_none; [done|].
    apply (create_pages_not_present (seq 0 (Z.to_nat num_pages))
             (PageTable.init pid (PhysicalMemory.frame_size (physical_memory s)))).
    intros page e He. unfold PageTable.init in He.
    cbn [PageTable.entries] in He. by rewrite lookup_empty in He.
  - rewrite lookup_insert_ne by done. done.
Qed.

Lemma frame_count_inv_translate_address pid addr s :
  frame_count_inv s → frame_count_inv (state_after (translate_address pid addr s)).
Proof.
  intros Hinv. unfold translate_address.
  destruct (page_tables s !! pid) as [pt|] eqn:Hpt; [|done].
  destruct (PageTable.translate_address addr pt) as [[page offset]|]; [|done].
  unfold PageTable.get_entry.
  destruct (PageTable.entries pt !! page) as [e|] eqn:He; [|done].
  destruct (PageTableEntry.present_bit e) eqn:Hp;
    [destruct (PageTableEntry.frame_id e) eqn:Hf;
     [destruct (PhysicalMemory.get_frame _ _); [|done]|]|]; simpl.
  - apply (frame_count_inv_same s); [|intros pid'|done].
    + unfold update_entry. by rewrite Hpt.
    + by apply (mapped_of_update_entry s pid page e _ pt).
  - apply (frame_count_inv_same s); [|intros pid'|done].
    + unfold update_entry. simpl. by rewrite Hpt.
    + by apply (mapped_of_update_entry (count_fault s) pid page e _ pt).
  - apply (frame_count_inv_same s); [|intros pid'|done].
    + unfold update_entry. simpl. by rewrite Hpt.
    + by apply (mapped_of_update_entry (count_fault s) pid page e _ pt).
Qed.

Lemma frame_count_inv_access_page pid page write s :
  frame_count_inv s → frame_count_inv (access_page pid page write s).2.
Proof.
  intros Hinv. unfold access_page.
  destruct (page_tables s !! pid) as [pt|] eqn:Hpt; [|done].
  unfold PageTable.get_entry.
  destruct (PageTable.entries pt !! page) as [e|] eqn:He; [|done].
  destruct (PageTableEntry.present_bit e) eqn:Hp; simpl; [|done].
  apply (frame_count_inv_same s); [|intros pid'|done].
  - unfold update_entry. by rewrite Hpt.
  - apply (mapped_of_update_entry s pid page e _ pt); try done.
    by destruct write.
Qed.

Lemma frame_count_inv_allocate_page pid page size s :
  paging_inv s → frames_owned s → frame_count_inv s →
  frame_count_inv (state_after (allocate_page pid page size s)).
Proof.
  intros Hinv (_ & _ & Hown) Hcount.
  destruct (page_tables s !! pid) as [pt|] eqn:Hpt.
  2: { unfold allocate_page. by rewrite Hpt. }
  destruct (allocate_page_cases pid page size s pt Hinv Hpt)
    as (_ & _ & _ & Hcase).
  cbv zeta in Hcase.
  set (s' := state_after (allocate_page pid page size s)) in *.
  destruct (touched_entry_spec page pt) as (He1 & _ & _ & _ & Hold).
  cbv zeta in He1, Hold.
  pose proof (mapped_pages_touched_entry pt page) as Hlen1.
  destruct Hcase as [(r & _ & Hfr & Htb & _)
                    |(i & f & _ & Hnp & Hi & Hfit & Hfr & Htb & _)].
  - intros pid'. rewrite Hfr, Hcount. unfold mapped_of. rewrite Htb.
    destruct (decide (pid' = pid)) as [->|Hne].
    + by rewrite lookup_insert_eq, Hpt.
    + by rewrite lookup_insert_ne.
  - assert (PageTableEntry.present_bit (touched_entry page pt).1 = false) as Hp.
    { destruct (PageTable.entries pt !! page) as [e|] eqn:He.
      - destruct Hold as [Hent _]. rewrite Hent.
        destruct (PageTableEntry.present_bit e) eqn:Hpe; [|done].
        destruct Hnp. exists pt. by rewrite Hent.
      - destruct Hold as [-> _]. done. }
    pose proof (mapped_pages_update_entry (touched_entry page pt).2 page
                  (PageTableEntry.map_to_frame (Z.of_nat i)
                     (touched_entry page pt).1)) as Hlen2.
    cbv zeta in Hlen2. rewrite He1, Hp in Hlen2. simpl in Hlen2.
    destruct (Hown i f Hi) as [_ Hst].
    rewrite (frame_fits_free _ _ Hfit) in Hst. destruct Hst as (Hnone & _).
    intros pid'. specialize (Hcount pid'). unfold mapped_of in *.
    rewrite Htb, Hfr. unfold frames_of in *.
    pose proof (filter_length_insert
                  (λ f, Frame.process_id f = Some pid') (sim_frames s) i
                  (Frame.mk (Z.of_nat i) (Frame.size f) ALLOCATED (Some pid)
                     (Some page)
                     (Z.min (default (PhysicalMemory.frame_size
                                        (physical_memory s)) size)
                        (Frame.size f)))
                  f Hi) as Hins.
    simpl in Hins. rewrite Hnone in Hins.
    rewrite (decide_False (P := None = Some pid')) in Hins by done.
    destruct (decide (pid' = pid)) as [->|Hne].
    + rewrite lookup_insert_eq. rewrite Hpt in Hcount.
      rewrite decide_True in Hins by done. lia.
    + rewrite lookup_insert_ne by done.
      rewrite decide_False in Hins by congruence. lia.
Qed.

Lemma frame_count_inv_deallocate_page pid page s :
  paging_inv s → frame_count_inv s →
  frame_count_inv (deallocate_page pid page s).2.
Proof.
  intros Hinv Hcount.
  destruct (deallocate_page_cases pid page s Hinv)
    as [[-> _]|(pt & e & i & f & Hpt & He & Hp & Hfid & Hi & _ & _ & Hfr & Htb
                & _)]; [done|].
  cbv zeta in *.
  pose proof (mapped_pages_update_entry pt page (PageTableEntry.unmap_frame e))
    as Hlen.
  cbv zeta in Hlen. rewrite He, Hp in Hlen. simpl in Hlen.
  destruct Hinv as (_ & _ & _ & I4).
  destruct (I4 pid page e) as (i' & f' & Hfid' & Hi' & _ & Hpid & _);
    [by exists pt|].
  rewrite Hfid in Hfid'. injection Hfid' as Heq.
  apply Nat2Z.inj in Heq as <-. rewrite Hi in Hi'. injection Hi' as <-.
  intros pid'. specialize (Hcount pid'). unfold mapped_of in *.
  rewrite Htb, Hfr. unfold frames_of in *.
  pose proof (filter_length_insert
                (λ f, Frame.process_id f = Some pid') (sim_frames s) i
                (Frame.mk (Frame.frame_id f) (Frame.size f) FREE None None 0)
                f Hi) as Hins.
  simpl in Hins. rewrite Hpid in Hins.
  destruct (decide (pid' = pid)) as [->|Hne].
  - rewrite lookup_insert_eq. rewrite Hpt in Hcount.
    rewrite decide_True in Hins by done. lia.
  - rewrite lookup_insert_ne by done.
    rewrite decide_False in Hins by congruence. lia.
Qed.

Lemma frame_count_inv_remove_process pid s :
  paging_inv s → frames_owned s → frame_count_inv s →
  frame_count_inv (remove_process pid s).2.
Proof.
  intros Hinv Hown Hcount.
  destruct (page_tables s !! pid) as [pt|] eqn:Hpt.
  2: { unfold remove_process. by rewrite Hpt. }
  destruct (remove_process_cases pid s pt Hinv Hown Hpt)
    as (_ & Htb & _ & _ & _ & _ & _ & Hlen & Hfr).
  cbv zeta in *.
  intros pid'. unfold mapped_of, frames_of. rewrite Htb.
  destruct (decide (pid' = pid)) as [->|Hne].
  - rewrite lookup_delete_eq. apply filter_length_none.
    intros j g' Hj.
    destruct (lookup_lt_is_Some_2 (sim_frames s) j) as [g Hg].
    { rewrite <- Hlen. by eapply lookup_lt_Some. }
    destruct (Hfr j g Hg) as [Hfreed Hkept].
    destruct (decide (Frame.process_id g = Some pid)) as [Hp|Hp].
    + rewrite (Hfreed Hp) in Hj. by injection Hj as <-.
    + rewrite (Hkept Hp) in Hj. by injection Hj as <-.
  - rewrite lookup_delete_ne by done.
    specialize (Hcount pid'). unfold mapped_of, frames_of in Hcount.
    rewrite <- Hcount. apply filter_length_pointwise; [done|].
    intros j g' g Hj Hg.
    destruct (Hfr j g Hg) as [Hfreed Hkept].
    destruct (decide (Frame.process_id g = Some pid)) as [Hp|Hp].
    + rewrite (Hfreed Hp) in Hj. injection Hj as <-. simpl. rewrite Hp.
      split; [done|]. intros [= ?]. congruence.
    + rewrite (Hkept Hp) in Hj. by injection Hj as <-.
Qed.

Lemma paging_reachable_frame_count s : paging_reachable s → frame_count_inv s.
Proof.
  induction 1 as [num_frames frame_size strategy|op s Hreach IH].
  - apply frame_count_inv_init.
  - pose proof (paging_reachable_inv s Hreach) as Hinv.
    pose proof (paging_reachable_owned s Hreach) as Hown.
    destruct op; simpl.
    + by apply frame_count_inv_create_process.
    + by apply frame_count_inv_allocate_page.
    + by apply frame_count_inv_deallocate_page.
    + by apply frame_count_inv_remove_process.
    + by apply frame_count_inv_translate_address.
    + by apply frame_count_inv_access_page.
    + by apply frame_count_inv_reset.
    + by apply (frame_count_inv_same s).
Qed.

End FrameCounts.

Section FrameCountTheorems.
Import PagingSimulator.

(** X18.  In every reachable state the number of frames that record a
    process as their owner equals the [allocated_pages] counter of that
    process, and no frame records a process that does not exist; free
    and allocated frames together are all [num_frames] frames. *)
Theorem frames_of_process_match_allocated_pages (s : PagingSimulator.t)
    (pid : Z) :
  paging_reachable s →
  Z.of_nat (length (frames_of pid (sim_frames s)))
  = match processes s !! pid with
    | Some info => allocated_pages info
    | None => 0
    end ∧
  (length (PhysicalMemory.get_free_frames (physical_memory s))
   + length (PhysicalMemory.get_allocated_frames (physical_memory s))
   = Z.to_nat (PhysicalMemory.num_frames (physical_memory s)))%nat.
Proof.
  intros Hreach.
  pose proof (paging_reachable_frame_count s Hreach pid) as Hcount.
  destruct (paging_reachable_processes s Hreach) as [Hdom Hinfo].
  destruct (paging_reachable_owned s Hreach) as (Hlen & _).
  split.
  - rewrite Hcount. unfold mapped_of.
    destruct (processes s !! pid) as [info|] eqn:Hp.
    + destruct (proj1 (Hdom pid)) as [pt Hpt]; [by rewrite Hp|].
      rewrite Hpt. symmetry. by apply (Hinfo pid).
    + destruct (page_tables s !! pid) as [pt|] eqn:Hpt; [|done].
      destruct (proj2 (Hdom pid)) as [info Hi]; [by rewrite Hpt|].
      congruence.
  - rewrite <- Hlen. unfold PhysicalMemory.get_free_frames,
      PhysicalMemory.get_allocated_frames, sim_frames.
    induction (PhysicalMemory.frames (physical_memory s)) as [|f l IH];
      [done|].
    rewrite !filter_cons.
    destruct (Frame.status f) eqn:Hst.
    + rewrite decide_True by done. rewrite decide_False by done. simpl. lia.
    + rewrite decide_False by done. rewrite decide_True by done. simpl. lia.
Qed.

Lemma frames_of_process_match_allocated_pages_witness :
  length (frames_of 2 (sim_frames two_process_simulator)) = 1%nat.
Proof.
  apply Nat2Z.inj.
  rewrite (proj1 (frames_of_process_match_allocated_pages
                    two_process_simulator 2 two_process_simulator_reachable)).
  vm_compute. reflexivity.
Defined.

(** X19.  [access_page] and [translate_address] agree on what is in
    memory: in every reachable state with a positive frame size,
    [access_page] returns [True] for a page exactly when translating an
    address of that page gives a physical address without page fault. *)
Theorem access_page_agrees_with_translate_address (s : PagingSimulator.t)
    (pid page k : Z) (write : bool) :
  paging_reachable s →
  is_Some (page_tables s !! pid) →
  let frame_size := PhysicalMemory.frame_size (physical_memory s) in
  0 ≤ k < frame_size →
  (access_page pid page write s).1 = true
  ↔ ∃ physical_address s',
      translate_address pid (page * frame_size + k) s
      = Ret (Some (Some physical_address, k, false)) s'.
Proof.
  intros Hreach [pt Hpt] frame_size Hk.
  pose proof (paging_reachable_inv s Hreach) as Hinv.
  pose proof Hinv as (_ & I2 & _ & I4).
  pose proof (I2 pid pt Hpt) as Hsize. fold frame_size in Hsize.
  split.
  - unfold access_page, PageTable.get_entry. rewrite Hpt.
    destruct (PageTable.entries pt !! page) as [e|] eqn:He; [|done].
    destruct (PageTableEntry.present_bit e) eqn:Hp; [|done]. intros _.
    destruct (I4 pid page e) as (i & f & Hfid & _); [by exists pt|].
    eexists _, _. rewrite <- Hsize.
    apply (translate_address_present s pid page (Z.of_nat i) k pt e);
      try done. lia.
  - intros (pa & s' & Htr).
    unfold translate_address, PageTable.translate_address,
      PageTable.get_entry in Htr.
    rewrite Hpt, Hsize in Htr. rewrite decide_False in Htr by lia.
    rewrite Z.div_add_l in Htr by lia. rewrite Z.div_small in Htr by lia.
    rewrite Z.add_0_r in Htr.
    unfold access_page, PageTable.get_entry. rewrite Hpt.
    destruct (PageTable.entries pt !! page) as [e|] eqn:He; [|done].
    destruct (PageTableEntry.present_bit e) eqn:Hp; [done|].
    done.
Qed.

Lemma access_page_agrees_with_translate_address_witness :
  (access_page 2 0 false two_process_simulator).1 = true
  ↔ ∃ physical_address s',
      translate_address 2 (0 * 16 + 5) two_process_simulator
      = Ret (Some (Some physical_address, 5, false)) s'.
Proof.
  apply (access_page_agrees_with_translate_address two_process_simulator
           2 0 5 false two_process_simulator_reachable).
  - eexists. vm_compute. reflexivity.
  - split; [lia|vm_compute; reflexivity].
Defined.

End FrameCountTheorems.

Section EntryShape.
Import PagingSimulator.

Implicit Types (s : PagingSimulator.t) (pt : PageTable.t)
  (e : PageTableEntry.t) (f g : Frame.t).

Lemma entries_inv_tables s s' :
  page_tables s' = page_tables s → entries_inv s → entries_inv s'.
Proof. unfold entries_inv. by intros ->. Qed.

Lemma entries_inv_insert s s' pid pt' :
  page_tables s' = <[pid := pt']> (page_tables s) →
  (∀ page e, PageTable.entries pt' !! page = Some e → frame_iff_present e) →
  entries_inv s → entries_inv s'.
Proof.
  intros Htb Hnew Hinv pid' pt page e. rewrite Htb.
  destruct (decide (pid' = pid)) as [->|Hne].
  - rewrite lookup_insert_eq. intros [= <-]. apply Hnew.
  - rewrite lookup_insert_ne by done. apply Hinv.
Qed.

Lemma entries_inv_update_entry s pid page e' :
  frame_iff_present e' → entries_inv s → entries_inv (update_entry pid page e' s).
Proof.
  intros He' Hinv. unfold update_entry.
  destruct (page_tables s !! pid) as [pt|] eqn:Hpt; [|done].
  apply (entries_inv_insert s _ pid (PageTable.update_entry page e' pt));
    [done| |done].
  intros page' e. unfold PageTable.update_entry. simpl.
  destruct (decide (page' = page)) as [->|Hne].
  - rewrite lookup_insert_eq. by intros [= <-].
  - rewrite lookup_insert_ne by done. by apply (Hinv pid pt).
Qed.

Lemma frame_iff_present_init page : frame_iff_present (PageTableEntry.init page).
Proof. split; [by intros [? ?]|done]. Qed.

Lemma frame_iff_present_map fid e :
  frame_iff_present (PageTableEntry.map_to_frame fid e).
Proof. split; [done|by eexists]. Qed.

Lemma frame_iff_present_unmap e :
  frame_iff_present (PageTableEntry.unmap_frame e).
Proof. split; [by intros [? ?]|done]. Qed.

Lemma frame_iff_present_referenced e :
  frame_iff_present e → frame_iff_present (PageTableEntry.mark_referenced e).
Proof. done. Qed.

Lemma frame_iff_present_modified e :
  frame_iff_present e → frame_iff_present (PageTableEntry.mark_modified e).
Proof. done. Qed.

Lemma create_pages_shape (l : list nat) pt :
  (∀ page e, PageTable.entries pt !! page = Some e → frame_iff_present e) →
  ∀ page e,
    PageTable.entries
      (foldl (λ pt (i : nat), (PageTable.create_page (Z.of_nat i) pt).2) pt l)
    !! page = Some e →
    frame_iff_present e.
Proof.
  revert pt. induction l as [|i l IH]; intros pt Hpt; [done|].
  cbn [foldl]. apply IH. intros page e. unfold PageTable.create_page.
  destruct (PageTable.entries pt !! Z.of_nat i) eqn:Hi; [apply Hpt|]. simpl.
  destruct (decide (page = Z.of_nat i)) as [->|Hne].
  - rewrite lookup_insert_eq. intros [= <-]. apply frame_iff_present_init.
  - rewrite lookup_insert_ne by done. apply Hpt.
Qed.

Lemma entries_inv_exec op s :
  paging_inv s → entries_inv s → entries_inv (paging_exec op s).
Proof.
  intros Hinv He. destruct op as [pid n|pid page size|pid page|pid|pid addr
                                 |pid page write| |strategy]; simpl.
  - unfold create_process.
    destruct (page_tables s !! pid) as [pt|] eqn:Hpt; [done|]. simpl.
    eapply (entries_inv_insert s _ pid); [done| |done].
    apply create_pages_shape. intros page e Hl. unfold PageTable.init in Hl.
    cbn [PageTable.entries] in Hl. by rewrite lookup_empty in Hl.
  - destruct (page_tables s !! pid) as [pt|] eqn:Hpt.
    2: { unfold allocate_page. by rewrite Hpt. }
    destruct (allocate_page_cases pid page size s pt Hinv Hpt)
      as (_ & _ & _ & Hcase).
    cbv zeta in Hcase.
    destruct (touched_entry_spec page pt) as (He1 & _ & _ & Hrest & Hold).
    cbv zeta in He1, Hrest, Hold.
    assert (∀ page' e, PageTable.entries (touched_entry page pt).2 !! page'
                       = Some e → frame_iff_present e) as Hpt1.
    { intros page' e. destruct (decide (page' = page)) as [->|Hne].
      - rewrite He1. intros [= <-].
        destruct (PageTable.entries pt !! page) as [e0|] eqn:He0.
        + destruct Hold as [-> _]. by apply (He pid pt page).
        + destruct Hold as [-> _]. apply frame_iff_present_init.
      - rewrite Hrest by done. by apply (He pid pt). }
    destruct Hcase as [(r & _ & _ & Htb & _)|(i & f & _ & _ & _ & _ & _ & Htb & _)].
    + intros pid' pt' page' e. rewrite Htb.
      destruct (decide (pid' = pid)) as [->|Hne].
      * rewrite lookup_insert_eq. intros [= <-]. apply Hpt1.
      * rewrite lookup_insert_ne by done. apply He.
    + intros pid' pt' page' e. rewrite Htb.
      destruct (decide (pid' = pid)) as [->|Hne].
      * rewrite lookup_insert_eq. intros [= <-].
        unfold PageTable.update_entry. simpl.
        destruct (decide (page' = page)) as [->|Hne].
        -- rewrite lookup_insert_eq. intros [= <-].
           apply frame_iff_present_map.
        -- rewrite lookup_insert_ne by done. apply Hpt1.
      * rewrite lookup_insert_ne by done. apply He.
  - destruct (deallocate_page_cases pid page s Hinv)
      as [[-> _]|(pt & e & i & f & Hpt & _ & _ & _ & _ & _ & _ & _ & Htb & _)];
      [done|].
    cbv zeta in Htb.
    intros pid' pt' page' e'. rewrite Htb.
    destruct (decide (pid' = pid)) as [->|Hne].
    + rewrite lookup_insert_eq. intros [= <-].
      unfold PageTable.update_entry. simpl.
      destruct (decide (page' = page)) as [->|Hne].
      * rewrite lookup_insert_eq. intros [= <-]. apply frame_iff_present_unmap.
      * rewrite lookup_insert_ne by done. by apply (He pid pt).
    + rewrite lookup_insert_ne by done. apply He.
  - unfold remove_process.
    destruct (page_tables s !! pid) as [pt|] eqn:Hpt; [|done]. simpl.
    intros pid' pt' page' e'. simpl.
    destruct (decide (pid' = pid)) as [->|Hne].
    + by rewrite lookup_delete_eq.
    + rewrite lookup_delete_ne by done. apply He.
  - unfold translate_address.
    destruct (page_tables s !! pid) as [pt|] eqn:Hpt; [|done].
    destruct (PageTable.translate_address addr pt) as [[page offset]|]; [|done].
    unfold PageTable.get_entry.
    destruct (PageTable.entries pt !! page) as [e|] eqn:Hent; [|done].
    pose proof (He pid pt page e Hpt Hent) as Hshape.
    destruct (PageTableEntry.present_bit e) eqn:Hp;
      [destruct (PageTableEntry.frame_id e) eqn:Hf;
       [destruct (PhysicalMemory.get_frame _ _); [|done]|]|]; simpl.
    + apply (entries_inv_tables
               (update_entry pid page (PageTableEntry.mark_referenced e) s));
        [done|].
      apply entries_inv_update_entry; [|done].
      by apply frame_iff_present_referenced.
    + apply entries_inv_update_entry; [|done].
      by apply frame_iff_present_referenced.
    + apply entries_inv_update_entry; [|done].
      by apply frame_iff_present_referenced.
  - unfold access_page.
    destruct (page_tables s !! pid) as [pt|] eqn:Hpt; [|done].
    unfold PageTable.get_entry.
    destruct (PageTable.entries pt !! page) as [e|] eqn:Hent; [|done].
    pose proof (He pid pt page e Hpt Hent) as Hshape.
    destruct (PageTableEntry.present_bit e) eqn:Hp; simpl; [|done].
    apply (entries_inv_tables
             (update_entry pid page
                (if write
                 then PageTableEntry.mark_modified
                        (PageTableEntry.mark_referenced e)
                 else PageTableEntry.mark_referenced e) s)); [done|].
    apply entries_inv_update_entry; [|done].
    destruct write; [apply frame_iff_present_modified|];
      by apply frame_iff_present_referenced.
  - intros pid' pt' page' e'. simpl. by rewrite lookup_empty.
  - done.
Qed.

Lemma paging_reachable_entries s : paging_reachable s → entries_inv s.
Proof.
  induction 1 as [num_frames frame_size strategy|op s Hreach IH].
  - intros pid pt page e. simpl. by rewrite lookup_empty.
  - apply entries_inv_exec; [|done]. by apply paging_reachable_inv.
Qed.

End EntryShape.

Section EntryShapeTheorems.
Import PagingSimulator.

(** X20.  The stand-alone [logical_to_physical_paging] and the simulator
    agree: in every reachable state with a frame size other than zero,
    for an address whose page has an entry in the process's page table,
    [translate_address] returns exactly the triple (physical address,
    offset, page fault) that [logical_to_physical_paging] computes from
    the table's page-to-frame dictionary.  In reachable states an entry
    holds a frame id exactly when its present bit is set. *)
Theorem paging_translations_agree (s : PagingSimulator.t)
    (pid address : Z) (pt : PageTable.t) (e : PageTableEntry.t) :
  paging_reachable s →
  let frame_size := PhysicalMemory.frame_size (physical_memory s) in
  frame_size ≠ 0 →
  page_tables s !! pid = Some pt →
  PageTable.entries pt !! (address `div` frame_size) = Some e →
  (is_Some (PageTableEntry.frame_id e) ↔ PageTableEntry.present_bit e = true) ∧
  ∃ triple s',
    translate_address pid address s = Ret (Some triple) s' ∧
    AddressTranslation.logical_to_physical_paging address
      (PageTable.page_size pt) (frame_ids pt) frame_size
    = Returns (Some triple).
Proof.
  intros Hreach frame_size Hnz Hpt He.
  pose proof (paging_reachable_inv s Hreach) as (_ & I2 & _ & I4).
  pose proof (paging_reachable_entries s Hreach pid pt _ e Hpt He) as Hshape.
  split; [done|].
  pose proof (I2 pid pt Hpt) as Hsize. fold frame_size in Hsize.
  unfold translate_address, PageTable.translate_address, PageTable.get_entry,
    AddressTranslation.logical_to_physical_paging, frame_ids.
  rewrite Hpt, Hsize. rewrite !decide_False by done.
  rewrite lookup_fmap, He. simpl.
  destruct (PageTableEntry.present_bit e) eqn:Hp.
  - destruct (I4 pid (address `div` frame_size) e) as (i & f & Hfid & Hf & _);
      [by exists pt|].
    rewrite Hfid. rewrite (get_frame_of_nat _ _ _ Hf). by eexists _, _.
  - destruct (PageTableEntry.frame_id e) as [fid|] eqn:Hfid.
    + destruct Hshape as [Hshape _]. rewrite Hfid in Hshape.
      specialize (Hshape (mk_is_Some _ _ eq_refl)). congruence.
    + by eexists _, _.
Qed.

Lemma paging_translations_agree_witness :
  ∃ triple s',
    translate_address 2 5 two_process_simulator = Ret (Some triple) s' ∧
    AddressTranslation.logical_to_physical_paging 5 16
      {[ 0 := Some 1 ]} 16
    = Returns (Some triple).
Proof.
  destruct (paging_translations_agree two_process_simulator 2 5
              (PageTable.mk 2 16
                 {[ 0 := PageTableEntry.map_to_frame 1 (PageTableEntry.init 0) ]})
              (PageTableEntry.map_to_frame 1 (PageTableEntry.init 0))
              two_process_simulator_reachable)
    as (_ & triple & s' & Htr & Hl2p).
  - vm_compute. discriminate.
  - vm_compute. reflexivity.
  - vm_compute. reflexivity.
  - exists triple, s'. split; [done|].
    unfold frame_ids in Hl2p. cbn [PageTable.entries PageTable.page_size] in Hl2p.
    rewrite map_fmap_singleton in Hl2p. exact Hl2p.
Defined.

End EntryShapeTheorems.

(** * The allocation strategies *)

Section AllocatorFacts.
Import MemoryAllocator.

Implicit Types (frames : list Frame.t) (f g : Frame.t).

(** A [for i in range(start, start + n)] loop of [_next_fit] over
    positions that exist stops at the first frame that fits. *)
Lemma next_fit_loop_seq (n start : nat) pid page size a frames :
  (start + n ≤ length frames)%nat →
  ((∀ (j : nat) g, (start ≤ j < start + n)%nat → frames !! j = Some g →
                   Frame.fits size g = false) ∧
   next_fit_loop (seq start n) pid page size a frames = Ret None (a, frames))
  ∨ (∃ (i : nat) f,
       (start ≤ i < start + n)%nat ∧
       frames !! i = Some f ∧ Frame.fits size f = true ∧
       (∀ (j : nat) g, (start ≤ j < i)%nat → frames !! j = Some g →
                       Frame.fits size g = false) ∧
       next_fit_loop (seq start n) pid page size a frames
       = Ret (Some (Frame.frame_id f))
             (mk (strategy a) ((i + 1) `mod` length frames)%nat,
              <[i := (Frame.allocate pid page size f).2]> frames)).
Proof.
  revert start. induction n as [|n IH]; intros start Hlen.
  { left. split; [|done]. intros j g ?. lia. }
  cbn [seq next_fit_loop].
  destruct (lookup_lt_is_Some_2 frames start) as [f Hf]; [lia|].
  rewrite Hf. destruct (Frame.fits size f) eqn:Hfit.
  - right. exists start, f. rewrite (frame_allocate_fits _ _ _ _ Hfit).
    split_and!; [lia|lia|done|done| |done]. intros j g ?. lia.
  - destruct (IH (S start)) as [[Hno ->]|(i & g & Hi & Hg & Hgfit & Hpre & ->)];
      [lia| |].
    + left. split; [|done]. intros j g Hj Hg.
      destruct (decide (j = start)) as [->|Hne]; [congruence|].
      apply (Hno j); [lia|done].
    + right. exists i, g. split_and!; [lia|lia|done|done| |done].
      intros j h Hj Hh.
      destruct (decide (j = start)) as [->|Hne]; [congruence|].
      apply (Hpre j); [lia|done].
Qed.

End AllocatorFacts.

Section AllocatorTheorems.
Import MemoryAllocator.

(** X21.  Under FIRST_FIT, [allocate] takes the free frame of lowest
    position that is large enough, returns its id and leaves the
    next-fit cursor and every other frame alone; when no free frame is
    large enough it returns [None] and changes nothing. *)
Theorem first_fit_takes_lowest_fitting_frame (frames : list Frame.t)
    (pid page size : Z) (a : MemoryAllocator.t) :
  strategy a = FIRST_FIT →
  ((∀ (j : nat) g, frames !! j = Some g → Frame.fits size g = false) ∧
   allocate pid page size a frames = Ret None (a, frames))
  ∨ (∃ (i : nat) f,
       frames !! i = Some f ∧ Frame.fits size f = true ∧
       (∀ (j : nat) g, (j < i)%nat → frames !! j = Some g →
                       Frame.fits size g = false) ∧
       allocate pid page size a frames
       = Ret (Some (Frame.frame_id f))
             (a, <[i := Frame.mk (Frame.frame_id f) (Frame.size f) ALLOCATED
                           (Some pid) (Some page) (Z.min size (Frame.size f))]>
                   frames)).
Proof.
  intros Hs. unfold allocate. rewrite Hs.
  destruct (first_fit_spec frames pid page size)
    as [[Hno ->]|(i & f & Hi & Hf & Hpre & ->)]; [by left|].
  right. exists i, f. rewrite (frame_allocate_fits _ _ _ _ Hf). by split_and!.
Qed.

Lemma first_fit_takes_lowest_fitting_frame_witness :
  allocate 7 3 2 (mk FIRST_FIT 0) frames_4_2_2
  = Ret (Some 0)
        (mk FIRST_FIT 0,
         [Frame.mk 0 4 ALLOCATED (Some 7) (Some 3) 2; Frame.init 1 2;
          Frame.init 2 2]).
Proof.
  destruct (first_fit_takes_lowest_fitting_frame frames_4_2_2 7 3 2
              (mk FIRST_FIT 0) eq_refl)
    as [[Hno _]|(i & f & Hi & Hf & Hpre & ->)].
  - by specialize (Hno 0%nat (Frame.init 0 4) eq_refl).
  - destruct i as [|i].
    + injection Hi as <-. reflexivity.
    + by specialize (Hpre 0%nat (Frame.init 0 4) ltac:(lia) eq_refl).
Defined.

(** X22.  Under NEXT_FIT with the cursor inside the frame list,
    [allocate] takes the first free frame that is large enough in the
    order cursor, cursor+1, ..., end, 0, ..., cursor-1, and moves the
    cursor to the position after it (wrapping to 0); when no free frame
    is large enough it returns [None] and changes nothing. *)
Theorem next_fit_scans_from_cursor (frames : list Frame.t)
    (pid page size : Z) (a : MemoryAllocator.t) :
  strategy a = NEXT_FIT →
  (_next_fit_start a ≤ length frames)%nat →
  ((∀ (j : nat) g, frames !! j = Some g → Frame.fits size g = false) ∧
   allocate pid page size a frames = Ret None (a, frames))
  ∨ (∃ (i : nat) f,
       frames !! i = Some f ∧ Frame.fits size f = true ∧
       (∀ (j : nat) g, visited_before (_next_fit_start a) i j →
                       frames !! j = Some g → Frame.fits size g = false) ∧
       allocate pid page size a frames
       = Ret (Some (Frame.frame_id f))
             (mk NEXT_FIT ((i + 1) `mod` length frames)%nat,
              <[i := Frame.mk (Frame.frame_id f) (Frame.size f) ALLOCATED
                       (Some pid) (Some page) (Z.min size (Frame.size f))]>
                frames)).
Proof.
  intros Hs Hcur. unfold allocate, _next_fit. rewrite Hs.
  destruct (next_fit_loop_seq (length frames - _next_fit_start a)
              (_next_fit_start a) pid page size a frames)
    as [[Hno1 ->]|(i & f & Hi & Hf & Hfit & Hpre & ->)]; [lia| |].
  - destruct (next_fit_loop_seq (_next_fit_start a) 0 pid page size a frames)
      as [[Hno2 ->]|(i & f & Hi & Hf & Hfit & Hpre & ->)]; [lia| |].
    + left. split; [|done]. intros j g Hj.
      pose proof (lookup_lt_Some _ _ _ Hj).
      destruct (decide (j < _next_fit_start a)%nat).
      * apply (Hno2 j); [lia|done].
      * apply (Hno1 j); [lia|done].
    + right. exists i, f. rewrite (frame_allocate_fits _ _ _ _ Hfit), Hs.
      split_and!; [done..| |done].
      intros j g [Hj|[_ [Hj|Hj]]] Hg.
      * lia.
      * pose proof (lookup_lt_Some _ _ _ Hg). apply (Hno1 j); [lia|done].
      * apply (Hpre j); [lia|done].
  - right. exists i, f. rewrite (frame_allocate_fits _ _ _ _ Hfit), Hs.
    split_and!; [done..| |done].
    intros j g [Hj|[Hj _]] Hg; [|lia]. by apply (Hpre j).
Qed.

Lemma next_fit_scans_from_cursor_witness :
  allocate 7 3 3 (mk NEXT_FIT 2) frames_4_2_2
  = Ret (Some 0)
        (mk NEXT_FIT 1,
         [Frame.mk 0 4 ALLOCATED (Some 7) (Some 3) 3; Frame.init 1 2;
          Frame.init 2 2]).
Proof.
  destruct (next_fit_scans_from_cursor frames_4_2_2 7 3 3 (mk NEXT_FIT 2)
              eq_refl)
    as [[Hno _]|(i & f & Hi & Hf & Hpre & ->)].
  - simpl. lia.
  - by specialize (Hno 0%nat (Frame.init 0 4) eq_refl).
  - destruct i as [|[|[|i]]]; simpl in Hi; try discriminate;
      injection Hi as <-; try discriminate. reflexivity.
Defined.

(** X23.  Giving a frame back undoes the allocation: on a frame list in
    which ids are positions and free frames are blank, after [allocate]
    has returned frame [fid], [deallocate] of [fid] returns [True] and
    the frame list is the one from before the allocation. *)
Theorem allocate_then_deallocate_restores_frames (frames frames' : list Frame.t)
    (pid page size fid : Z) (a a' : MemoryAllocator.t) :
  blank_free_frames frames →
  (_next_fit_start a ≤ length frames)%nat →
  allocate pid page size a frames = Ret (Some fid) (a', frames') →
  deallocate frames' fid = (true, frames).
Proof.
  intros Hblank Hcur Hout.
  destruct (allocate_spec pid page size a frames Hcur)
    as [[_ Hnone]|(i & f & a'' & Hi & Hf & _ & Hsome)]; [congruence|].
  rewrite Hsome in Hout. injection Hout as <- <- <-.
  destruct (Hblank i f Hi) as [Hid Hfree].
  destruct (Hfree (frame_fits_free _ _ Hf)) as (Hp & Hg & Hsz).
  pose proof (lookup_lt_Some _ _ _ Hi) as Hlt.
  unfold deallocate. rewrite length_insert, Hid.
  rewrite bool_decide_eq_true_2 by lia. rewrite Nat2Z.id.
  rewrite list_lookup_insert_eq by done.
  rewrite (frame_allocate_fits _ _ _ _ Hf). cbn [snd].
  unfold Frame.deallocate. cbn [Frame.status].
  rewrite bool_decide_eq_true_2 by done. cbn [Frame.frame_id Frame.size].
  rewrite list_insert_insert_eq. f_equal.
  apply list_insert_id. rewrite Hi. f_equal.
  pose proof (frame_fits_free _ _ Hf) as Hst.
  destruct f as [fi fs st fp fg fa]. simpl in *. by subst.
Qed.

Lemma allocate_then_deallocate_restores_frames_witness :
  deallocate
    [Frame.init 0 4; Frame.mk 1 2 ALLOCATED (Some 7) (Some 3) 2; Frame.init 2 2]
    1
  = (true, frames_4_2_2).
Proof.
  apply (allocate_then_deallocate_restores_frames frames_4_2_2 _ 7 3 2 1
           (mk BEST_FIT 0) (mk BEST_FIT 0)).
  - intros [|[|[|i]]] f Hi; simpl in Hi; try discriminate;
      injection Hi as <-; by split.
  - simpl. lia.
  - reflexivity.
Defined.

End AllocatorTheorems.

(** * Page tables and address arithmetic *)

Section PageTableTheorems.

(** X24.  The statistics of a page table add up: [mapped_pages] counts
    exactly the pages whose entry is present, each once, and
    [mapped_pages + unmapped_pages = total_pages]. *)
Theorem page_table_stats_add_up (pt : PageTable.t) :
  let stats := PageTable.get_stats pt in
  (mapped_pages stats + unmapped_pages stats = total_pages stats)%nat ∧
  mapped_pages stats = length (PageTable.get_mapped_pages pt) ∧
  NoDup (PageTable.get_mapped_pages pt) ∧
  ∀ page,
    page ∈ PageTable.get_mapped_pages pt
    ↔ ∃ e, PageTable.get_entry page pt = Some e ∧
           PageTableEntry.present_bit e = true.
Proof.
  cbv zeta. unfold PageTable.get_stats, PageTable.get_mapped_pages. simpl.
  split_and!.
  - rewrite length_fmap, length_map_to_list.
    pose proof (map_size_filter
                  (λ kv : Z * PageTableEntry.t,
                     PageTableEntry.present_bit kv.2 = true)
                  (PageTable.entries pt)).
    lia.
  - done.
  - apply NoDup_fst_map_to_list.
  - intros page. rewrite list_elem_of_fmap. split.
    + intros ([page' e] & -> & Hin). apply elem_of_map_to_list in Hin.
      apply map_lookup_filter_Some in Hin as [He Hp]. by exists e.
    + intros (e & He & Hp). exists (page, e). split; [done|].
      apply elem_of_map_to_list. by apply map_lookup_filter_Some.
Qed.

(** X25.  [split_address] and [combine_address] are inverse to each
    other for a positive page size: every address splits into a page
    number and an offset below the page size that combine back to the
    address, and a page number with an offset below the page size is
    recovered by splitting their combination. *)
Theorem split_combine_round_trip (address page_number offset page_size : Z) :
  0 ≤ offset < page_size →
  AddressTranslation.split_address
    (AddressTranslation.combine_address page_number offset page_size) page_size
  = Returns (page_number, offset) ∧
  ∃ p o,
    AddressTranslation.split_address address page_size = Returns (p, o) ∧
    0 ≤ o < page_size ∧
    AddressTranslation.combine_address p o page_size = address.
Proof.
  intros Hoff.
  unfold AddressTranslation.split_address, AddressTranslation.combine_address.
  rewrite !decide_False by lia. split.
  - f_equal. f_equal.
    + rewrite Z.div_add_l by lia. rewrite Z.div_small by lia. lia.
    + rewrite Z.add_comm, Z.mod_add by lia. by apply Z.mod_small.
  - eexists _, _. split; [done|]. split.
    + apply Z.mod_pos_bound. lia.
    + pose proof (Z.div_mod address page_size). lia.
Qed.

Lemma split_combine_round_trip_witness :
  AddressTranslation.split_address
    (AddressTranslation.combine_address 3 5 16) 16
  = Returns (3, 5).
Proof.
  apply (split_combine_round_trip 0 3 5 16). lia.
Defined.

End PageTableTheorems.

(** * More on the segmentation engine *)

Section SegmentationFacts.
Import SegmentationEngine.

Implicit Types (s : SegmentationEngine.t) (st : SegmentTable.t)
  (sg : Segment.t).

Lemma dict_get_set_ne k k' v d :
  k' ≠ k →
  SegmentTable.dict_get k' (SegmentTable.dict_set k v d)
  = SegmentTable.dict_get k' d.
Proof.
  intros Hne. induction d as [|[k0 v0] d IH]; simpl.
  - by rewrite decide_False by done.
  - destruct (decide (k0 = k)) as [->|Hk]; simpl.
    + by rewrite !decide_False by done.
    + by rewrite IH.
Qed.

Lemma segment_of_add_segment s pid seg name size base st pid' seg' :
  segment_tables s !! pid = Some st →
  segment_of pid' seg' (add_segment pid seg name size base s).2
  = if decide (pid' = pid ∧ seg' = seg)
    then Some (Segment.init seg name (default (next_base_address s) base) size)
    else segment_of pid' seg' s.
Proof.
  intros Hst. unfold add_segment, segment_of. rewrite Hst.
  assert (segment_tables
            (let '(base0, next) :=
               match base with
               | Some b => (b, next_base_address s)
               | None => (next_base_address s,
                          next_base_address s + (size + 0x100))
               end in
             (true,
              mk (<[pid := (SegmentTable.add_segment seg name base0 size st).2]>
                    (segment_tables s))
                 next (access_attempts s) (access_successes s)
                 (bounds_violations s))).2
          = <[pid := (SegmentTable.add_segment seg name
                        (default (next_base_address s) base) size st).2]>
              (segment_tables s)) as ->.
  { by destruct base. }
  destruct (decide (pid' = pid)) as [->|Hpid].
  - rewrite lookup_insert_eq, Hst. simpl.
    unfold SegmentTable.get_segment. simpl.
    destruct (decide (seg' = seg)) as [->|Hseg].
    + rewrite decide_True by done. apply dict_get_set.
    + rewrite decide_False by (intros [_ ?]; done).
      by apply dict_get_set_ne.
  - rewrite lookup_insert_ne by done.
    by rewrite decide_False by (intros [? _]; done).
Qed.

Lemma segment_of_create_process s pid pid' seg' :
  segment_of pid' seg' (create_process pid s).2
  = segment_of pid' seg' s.
Proof.
  unfold create_process, segment_of.
  destruct (segment_tables s !! pid) as [st|] eqn:Hst; [done|]. simpl.
  destruct (decide (pid' = pid)) as [->|Hpid].
  - rewrite lookup_insert_eq, Hst. done.
  - by rewrite lookup_insert_ne.
Qed.

Lemma segment_of_remove_process s pid pid' seg' sg :
  segment_of pid' seg' (remove_process pid s).2 = Some sg →
  segment_of pid' seg' s = Some sg.
Proof.
  unfold remove_process, segment_of.
  destruct (segment_tables s !! pid) as [st|] eqn:Hst; [|done]. simpl.
  destruct (decide (pid' = pid)) as [->|Hpid].
  - by rewrite lookup_delete_eq.
  - by rewrite lookup_delete_ne.
Qed.

Lemma translate_address_tables s pid seg offset :
  segment_tables (translate_address pid seg offset s).2 = segment_tables s ∧
  next_base_address (translate_address pid seg offset s).2 = next_base_address s.
Proof.
  unfold translate_address.
  destruct (segment_tables s !! pid) as [st|]; [|done].
  destruct (SegmentTable.translate_address seg offset st) as [[r []] msg]; done.
Qed.

Lemma placement_inv_exec op s :
  auto_placing op → placement_inv s → placement_inv (segmentation_exec op s).
Proof.
  intros Hop (Hcur & Hin & Hapart).
  destruct op as [pid|pid|pid seg name size base|pid seg off|]; simpl.
  - assert (next_base_address (create_process pid s).2 = next_base_address s)
      as Hnext.
    { unfold create_process. by destruct (segment_tables s !! pid). }
    split_and!.
    + by rewrite Hnext.
    + intros pid' seg' sg. rewrite segment_of_create_process, Hnext.
      apply Hin.
    + intros pid1 seg1 sg1 pid2 seg2 sg2 Hne.
      rewrite !segment_of_create_process. by apply Hapart.
  - assert (next_base_address (remove_process pid s).2 = next_base_address s)
      as Hnext.
    { unfold remove_process. by destruct (segment_tables s !! pid). }
    split_and!.
    + by rewrite Hnext.
    + intros pid' seg' sg Hsg%segment_of_remove_process. rewrite Hnext.
      by apply (Hin pid' seg').
    + intros pid1 seg1 sg1 pid2 seg2 sg2 Hne
        H1%segment_of_remove_process H2%segment_of_remove_process.
      by apply (Hapart pid1 seg1 sg1 pid2 seg2 sg2).
  - destruct Hop as [-> Hsize].
    destruct (segment_tables s !! pid) as [st|] eqn:Hst.
    2: { unfold add_segment. rewrite Hst. by split_and!. }
    assert (next_base_address (add_segment pid seg name size None s).2
            = next_base_address s + (size + 0x100)) as Hnext.
    { unfold add_segment. by rewrite Hst. }
    split_and!.
    + rewrite Hnext. lia.
    + intros pid' seg' sg.
      rewrite (segment_of_add_segment s pid seg name size None st) by done.
      rewrite Hnext. case_decide as Hkey.
      * intros [= <-]. simpl. lia.
      * intros Hsg. destruct (Hin pid' seg' sg Hsg) as (? & ? & ?). lia.
    + intros pid1 seg1 sg1 pid2 seg2 sg2 Hne.
      rewrite !(segment_of_add_segment s pid seg name size None st) by done.
      case_decide as Hk1; case_decide as Hk2.
      * destruct Hk1 as [-> ->], Hk2 as [-> ->]. done.
      * intros [= <-] H2. simpl.
        destruct (Hin pid2 seg2 sg2 H2) as (? & ? & ?). right. lia.
      * intros H1 [= <-]. simpl.
        destruct (Hin pid1 seg1 sg1 H1) as (? & ? & ?). left. lia.
      * by apply Hapart.
  - destruct (translate_address_tables s pid seg off) as [Htb Hnext].
    unfold placement_inv, segment_of. rewrite Htb, Hnext. by split_and!.
  - split_and!.
    + done.
    + intros pid' seg' sg. unfold segment_of, reset. simpl.
      by rewrite lookup_empty.
    + intros pid1 seg1 sg1 pid2 seg2 sg2 _. unfold segment_of, reset. simpl.
      by rewrite lookup_empty.
Qed.

Lemma auto_placed_reachable_inv s : auto_placed_reachable s → placement_inv s.
Proof.
  induction 1 as [|op s _ IH Hop].
  - split_and!; [done| |].
    + intros pid seg sg. unfold segment_of, init. simpl. by rewrite lookup_empty.
    + intros pid1 seg1 sg1 pid2 seg2 sg2 _. unfold segment_of, init. simpl.
      by rewrite lookup_empty.
  - by apply placement_inv_exec.
Qed.

(** The access counters after one [translate_address]. *)
Lemma translate_address_counters s pid seg offset :
  let out := translate_address pid seg offset s in
  access_attempts out.2 = access_attempts s + 1 ∧
  match segment_tables s !! pid with
  | None =>
      access_successes out.2 = access_successes s ∧
      bounds_violations out.2 = bounds_violations s
  | Some _ =>
      if out.1.1.2
      then access_successes out.2 = access_successes s + 1 ∧
           bounds_violations out.2 = bounds_violations s
      else access_successes out.2 = access_successes s ∧
           bounds_violations out.2 = bounds_violations s + 1
  end.
Proof.
  cbv zeta. unfold translate_address.
  destruct (segment_tables s !! pid) as [st|]; [|done].
  by destruct (SegmentTable.translate_address seg offset st) as [[r []] msg].
Qed.

Lemma gaps_nonneg l (acc : Q) : (0 <= acc)%Q → (0 <= gaps l acc)%Q.
Proof.
  revert acc. induction l as [|x l IH]; intros acc Hacc; [done|].
  destruct l as [|y l]; [done|].
  change (gaps (x :: y :: l) acc)
    with (gaps (y :: l)
            (if bool_decide (Segment.base y > Segment.base x + Segment.limit x)
             then (acc + inject_Z (Segment.base y
                                   - (Segment.base x + Segment.limit x)))%Q
             else acc)).
  apply IH. case_bool_decide as Hgap; [|done].
  apply Qle_trans with (acc + 0)%Q.
  - by rewrite Qplus_0_r.
  - apply Qplus_le_r. change 0%Q with (inject_Z 0). rewrite <- Zle_Qle. lia.
Qed.

End SegmentationFacts.

Section SegmentationTheorems.
Import SegmentationEngine.

(** X26.  As long as every segment is placed by the engine (no
    caller-supplied base) and no size is negative, segments never
    overlap, across all processes: two different segments lie at least
    0x100 bytes apart, so no physical address is the translation of
    offsets of two different segments. *)
Theorem auto_placed_segments_never_overlap (s : SegmentationEngine.t)
    (pid1 seg1 pid2 seg2 : Z) (sg1 sg2 : Segment.t) :
  auto_placed_reachable s →
  (pid1, seg1) ≠ (pid2, seg2) →
  segment_of pid1 seg1 s = Some sg1 →
  segment_of pid2 seg2 s = Some sg2 →
  (Segment.base sg1 + Segment.limit sg1 + 0x100 ≤ Segment.base sg2 ∨
   Segment.base sg2 + Segment.limit sg2 + 0x100 ≤ Segment.base sg1) ∧
  ∀ offset1 offset2 a1 a2,
    Segment.translate offset1 sg1 = Some a1 →
    Segment.translate offset2 sg2 = Some a2 →
    a1 ≠ a2.
Proof.
  intros Hreach Hne H1 H2.
  destruct (auto_placed_reachable_inv s Hreach) as (_ & _ & Hapart).
  pose proof (Hapart pid1 seg1 sg1 pid2 seg2 sg2 Hne H1 H2) as Hgap.
  split; [done|].
  intros offset1 offset2 a1 a2. unfold Segment.translate, Segment.contains_address.
  do 2 case_bool_decide; try done. intros [= <-] [= <-]. lia.
Qed.

Lemma auto_placed_segments_never_overlap_witness :
  Segment.base (Segment.init 0 "CODE" 0x1000 0x1000) + 0x1000 + 0x100
  ≤ Segment.base (Segment.init 1 "DATA" 0x2100 0x1000) ∨
  Segment.base (Segment.init 1 "DATA" 0x2100 0x1000) + 0x1000 + 0x100
  ≤ Segment.base (Segment.init 0 "CODE" 0x1000 0x1000).
Proof.
  refine (proj1 (auto_placed_segments_never_overlap auto_code_data_engine
                   1 0 1 1 (Segment.init 0 "CODE" 0x1000 0x1000)
                   (Segment.init 1 "DATA" 0x2100 0x1000) _ _ eq_refl eq_refl)).
  - unfold auto_code_data_engine, auto_code_engine.
    repeat (apply auto_placed_after; [|by simpl]).
    apply auto_placed_fresh.
  - intros [=].
Defined.

(** X27.  The access counters are consistent in every reachable state:
    none is negative, and successes plus bounds violations never exceed
    the attempts.  They can fall short of them: a translation for an
    unknown process counts as an attempt only. *)
Theorem access_counters_consistent (s : SegmentationEngine.t) :
  segmentation_reachable s →
  0 ≤ access_successes s ∧ 0 ≤ bounds_violations s ∧
  access_successes s + bounds_violations s ≤ access_attempts s ∧
  ∀ pid seg offset,
    segment_tables s !! pid = None →
    let s' := (translate_address pid seg offset s).2 in
    access_attempts s' = access_attempts s + 1 ∧
    access_successes s' + bounds_violations s'
    = access_successes s + bounds_violations s.
Proof.
  intros Hreach.
  assert (0 ≤ access_successes s ∧ 0 ≤ bounds_violations s ∧
          access_successes s + bounds_violations s ≤ access_attempts s)
    as (H1 & H2 & H3).
  { induction Hreach as [|op s _ IH]; [done|].
    destruct op as [pid|pid|pid seg name size base|pid seg off|]; simpl.
    - unfold create_process. by destruct (segment_tables s !! pid).
    - unfold remove_process. by destruct (segment_tables s !! pid).
    - unfold add_segment. destruct (segment_tables s !! pid); [|done].
      by destruct base.
    - pose proof (translate_address_counters s pid seg off) as [Ha Hc].
      cbv zeta in Ha, Hc.
      destruct (segment_tables s !! pid);
        [destruct (translate_address pid seg off s).1.1.2|]; lia.
    - done. }
  split_and!; [done..|].
  intros pid seg offset Hnone.
  pose proof (translate_address_counters s pid seg offset) as [Ha Hc].
  cbv zeta in *. rewrite Hnone in Hc. lia.
Qed.

Lemma access_counters_consistent_witness :
  access_successes
    (translate_address 1 0 5 (translate_address 1 0 0x1000 auto_code_engine).2).2
  + bounds_violations
      (translate_address 1 0 5 (translate_address 1 0 0x1000 auto_code_engine).2).2
  ≤ access_attempts
      (translate_address 1 0 5 (translate_address 1 0 0x1000 auto_code_engine).2).2.
Proof.
  refine (proj1 (proj2 (proj2 (access_counters_consistent _ _)))).
  apply (segmentation_after (SegmentationOp.TranslateAddress 1 0 5)).
  apply (segmentation_after (SegmentationOp.TranslateAddress 1 0 0x1000)).
  unfold auto_code_engine. repeat apply segmentation_after.
  apply segmentation_fresh.
Defined.

(** X28.  A segment that has just been added is translated within its
    bounds only: for an existing process, after [add_segment] with size
    [size], an offset with [0 <= offset < size] translates to
    [base + offset] (the given base, or the cursor when none is given)
    and counts as a success; any other offset gives no address and counts
    as a bounds violation.  Segments with another id or of another
    process are as they were. *)
Theorem add_segment_then_translate (s : SegmentationEngine.t)
    (pid seg size offset : Z) (name : string) (base : option Z)
    (st : SegmentTable.t) :
  segment_tables s !! pid = Some st →
  let s1 := (add_segment pid seg name size base s).2 in
  let out := translate_address pid seg offset s1 in
  (add_segment pid seg name size base s).1 = true ∧
  (∀ pid' seg', (pid', seg') ≠ (pid, seg) →
                segment_of pid' seg' s1 = segment_of pid' seg' s) ∧
  access_attempts out.2 = access_attempts s + 1 ∧
  if bool_decide (0 ≤ offset < size)
  then out.1.1 = (Some (default (next_base_address s) base + offset), true) ∧
       access_successes out.2 = access_successes s + 1 ∧
       bounds_violations out.2 = bounds_violations s
  else out.1.1 = (None, false) ∧
       access_successes out.2 = access_successes s ∧
       bounds_violations out.2 = bounds_violations s + 1.
Proof.
  intros Hst. cbv zeta.
  pose proof (segment_of_add_segment s pid seg name size base st pid seg Hst)
    as Hnew.
  rewrite decide_True in Hnew by done.
  assert (access_attempts (add_segment pid seg name size base s).2
          = access_attempts s ∧
          access_successes (add_segment pid seg name size base s).2
          = access_successes s ∧
          bounds_violations (add_segment pid seg name size base s).2
          = bounds_violations s) as (Ha & Hs & Hv).
  { unfold add_segment. rewrite Hst. by destruct base. }
  split_and!.
  - unfold add_segment. rewrite Hst. by destruct base.
  - intros pid' seg' Hne.
    rewrite (segment_of_add_segment s pid seg name size base st) by done.
    rewrite decide_False; [done|]. intros [-> ->]. done.
  - pose proof (translate_address_counters
                  (add_segment pid seg name size base s).2 pid seg offset)
      as [Hatt _].
    cbv zeta in Hatt. lia.
  - unfold segment_of in Hnew.
    destruct (segment_tables (add_segment pid seg name size base s).2 !! pid)
      as [st1|] eqn:Hst1; [|done].
    simpl in Hnew. unfold translate_address. rewrite Hst1.
    unfold SegmentTable.translate_address. rewrite Hnew.
    unfold Segment.translate, Segment.contains_address. simpl.
    case_bool_decide; simpl; rewrite ?Ha, ?Hs, ?Hv; by split_and!.
Qed.

Lemma add_segment_then_translate_witness :
  (translate_address 1 0 5 auto_code_engine).1.1 = (Some (0x1000 + 5), true).
Proof.
  refine (proj1 (proj2 (proj2 (proj2
            (add_segment_then_translate
               (segmentation_exec (SegmentationOp.CreateProcess 1) init)
               1 0 0x1000 5 "CODE" None (SegmentTable.init 1) eq_refl))))).
Defined.

(** X29.  For every engine state and process, the fragmentation report
    never shows a negative number: internal fragmentation is always
    reported as zero, and the external bytes and percentage are zero or
    more. *)
Theorem fragmentation_never_negative (s : SegmentationEngine.t) (pid : Z) :
  match calculate_fragmentation pid s with
  | FragmentationNone internal external =>
      (internal == 0)%Q ∧ (external == 0)%Q
  | FragmentationReport internal_bytes external_bytes
      internal_percent external_percent =>
      (internal_bytes == 0)%Q ∧ (internal_percent == 0)%Q ∧
      (0 <= external_bytes)%Q ∧ (0 <= external_percent)%Q
  end.
Proof.
  unfold calculate_fragmentation.
  destruct (segment_tables s !! pid) as [st|]; [|done].
  destruct ((SegmentTable.segments st).*2) as [|sg l] eqn:Hl; [done|].
  set (segs := sg :: l).
  pose proof (gaps_nonneg (sorted_by_base segs) 0 ltac:(done)) as Hgaps.
  split_and!; [done| |done|].
  - case_bool_decide; [|done]. unfold Qdiv. ring.
  - case_bool_decide as Htotal; [|done].
    apply Qmult_le_0_compat; [|done].
    apply Qmult_le_0_compat; [done|].
    apply Qinv_le_0_compat. change 0%Q with (inject_Z 0).
    rewrite <- Zle_Qle. lia.
Qed.

(** X30.  The stand-alone [logical_to_physical_segmentation] and the
    segment table agree: on the dictionary of (base, limit) pairs of a
    segment table, the function returns [None] for a segment the table
    does not have, and otherwise exactly the triple (address, valid
    flag, error message) that [SegmentTable.translate_address]
    returns. *)
Theorem segmentation_translations_agree (segment_table : gmap Z (Z * Z))
    (st : SegmentTable.t) (segment_id offset : Z) :
  describes segment_table st →
  AddressTranslation.logical_to_physical_segmentation segment_id offset
    segment_table
  = match SegmentTable.get_segment segment_id st with
    | None => None
    | Some _ => Some (SegmentTable.translate_address segment_id offset st)
    end.
Proof.
  intros Hd. unfold AddressTranslation.logical_to_physical_segmentation,
    SegmentTable.translate_address.
  rewrite (Hd segment_id).
  destruct (SegmentTable.get_segment segment_id st) as [sg|]; [|done]. simpl.
  unfold Segment.translate, Segment.contains_address.
  destruct (decide (0 ≤ offset < Segment.limit sg)) as [Hin|Hout].
  - rewrite (bool_decide_eq_true_2 (0 ≤ offset < Segment.limit sg)) by done.
    rewrite !bool_decide_eq_false_2 by lia. done.
  - rewrite (bool_decide_eq_false_2 (0 ≤ offset < Segment.limit sg)) by done.
    simpl. destruct (decide (offset < 0)).
    + by rewrite (bool_decide_eq_true_2 (offset < 0)) by done.
    + rewrite (bool_decide_eq_false_2 (offset < 0)) by done.
      by rewrite bool_decide_eq_true_2 by lia.
Qed.

Lemma segmentation_translations_agree_witness :
  AddressTranslation.logical_to_physical_segmentation 0 0x1000
    {[ 0 := (0x1000, 0x1000) ]}
  = Some (SegmentTable.translate_address 0 0x1000
            (SegmentTable.mk 1 [(0, Segment.init 0 "CODE" 0x1000 0x1000)])).
Proof.
  apply (segmentation_translations_agree {[ 0 := (0x1000, 0x1000) ]}
           (SegmentTable.mk 1 [(0, Segment.init 0 "CODE" 0x1000 0x1000)])
           0 0x1000).
  intros id. unfold SegmentTable.get_segment. simpl.
  destruct (decide (0 = id)) as [<-|Hne].
  - by rewrite lookup_singleton_eq.
  - by rewrite lookup_singleton_ne.
Defined.

End SegmentationTheorems.
